(** * GroundTruth route planner: the client-side orchestration core

    A shallow embedding of [frontend/src/App.tsx], [api/client.ts],
    [api/markers.ts], [types.ts] and of the click dispatch of
    [components/MapView.tsx], and the properties of route consolidation,
    error surfacing, point selection, marker refresh and the
    device-location default that are checked against it.

    The hazard report form ([handleHazardSubmit], [api/hazards.ts]) has
    cells of its own ([HazardForm]); its events are not among those of
    [Event], and write none of the cells the properties on runs are
    about, except that a successful upload turns the hazard-pick mode
    off. *)

From Stdlib Require Import ZArith List String Ascii Bool Lia Permutation Sorted.
From Stdlib Require Import DecimalString Floats.SpecFloat.
Import ListNotations.
Open Scope string_scope.
Open Scope list_scope.

(* ================================================================== *)
(** * JavaScript numbers

    A JS [number] is an IEEE 754 binary64 value.  [spec_float] is the
    Standard Library's inductive description of such values; the
    operations below are the ones at precision 53 that the source uses. *)

Module JsNumber.

Definition number : Type := spec_float.

Definition prec : Z := 53.
Definition emax : Z := 1024.

Definition of_Z (z : Z) : number := binary_normalize prec emax z 0 false.

Definition NaN : number := S754_nan.
Definition Infinity : number := S754_infinity false.
Definition NegInfinity : number := S754_infinity true.

(** [a === b] on numbers. *)
Definition strict_eq (a b : number) : bool := SFeqb a b.
(** [a < b], [a <= b], [a >= b]. *)
Definition lt (a b : number) : bool := SFltb a b.
Definition le (a b : number) : bool := SFleb a b.
Definition ge (a b : number) : bool := SFleb b a.
(** [a - b] and [Math.abs]. *)
Definition sub (a b : number) : number := SFsub prec emax a b.
Definition abs (a : number) : number := SFabs a.

(** [Number.isFinite]. *)
Definition isFinite (a : number) : bool :=
  match a with
  | S754_zero _ | S754_finite _ _ _ => true
  | S754_infinity _ | S754_nan => false
  end.

(** The literal [1e-6]: 0x1.0c6f7a0b5ed8dp-20. *)
Definition lit_1e_6 : number := S754_finite false 4722366482869645 (-72).

Definition number_eq_dec (a b : number) : {a = b} + {a <> b}.
Proof.
  decide equality; try apply Bool.bool_dec;
    try apply Z.eq_dec; apply Pos.eq_dec.
Defined.

End JsNumber.
Import JsNumber.

(* ================================================================== *)
(** * Data model ([types.ts], [api/client.ts]) *)

Record LatLon := mkLatLon { lat : number; lon : number }.

Inductive TravelMode := WALK | DRIVE.

Inductive RouteVariantKind :=
| walkSafe | walkAccessible | walkSafeAccessible | driveFast | driveSafe.

(** The string value of a kind (the TypeScript literal). *)
Definition kind_name (k : RouteVariantKind) : string :=
  match k with
  | walkSafe => "walkSafe"
  | walkAccessible => "walkAccessible"
  | walkSafeAccessible => "walkSafeAccessible"
  | driveFast => "driveFast"
  | driveSafe => "driveSafe"
  end.

Definition kind_eq_dec (a b : RouteVariantKind) : {a = b} + {a <> b}.
Proof. decide equality. Defined.

Definition kind_eqb (a b : RouteVariantKind) : bool :=
  if kind_eq_dec a b then true else false.

(** [RouteResult]; [coordinates] is [routeGeojson?.geometry?.coordinates]:
    [None] when any link of the optional chain is missing. *)
Record RouteResult := mkRouteResult {
  distanceMeters : number;
  durationSeconds : number;
  pathNodeIds : list number;
  pathEdgeIds : list number;
  coordinates : option (list (number * number))
}.

Inductive RouteResponse :=
| ok (data : RouteResult)
| no_route (message : string)
| error (message : string) (status : option number).

Record RouteChoice := mkRouteChoice {
  choice_id : string;
  choice_kinds : list RouteVariantKind;
  choice_result : RouteResult;
  choice_color : string;
  choice_label : string
}.

(* ================================================================== *)
(** * Constant tables of [App.tsx] *)

Definition routeKindLabels (k : RouteVariantKind) : string :=
  match k with
  | walkSafe => "Safe"
  | walkAccessible => "Accessible"
  | walkSafeAccessible => "Safe + Accessible"
  | driveFast => "Fastest"
  | driveSafe => "Safe"
  end.

Definition routeColors (k : RouteVariantKind) : string :=
  match k with
  | walkSafe => "#16a34a"
  | walkAccessible => "#1e3a8a"
  | walkSafeAccessible => "#1f6feb"
  | driveFast => "#1f6feb"
  | driveSafe => "#16a34a"
  end.

(** Request order of the variants (line 308). *)
Definition variants (mode : TravelMode) : list RouteVariantKind :=
  match mode with
  | DRIVE => [driveFast; driveSafe]
  | WALK => [walkSafe; walkAccessible; walkSafeAccessible]
  end.

(** Ranking order of the kinds (line 351). *)
Definition kindOrder (mode : TravelMode) : list RouteVariantKind :=
  match mode with
  | DRIVE => [driveFast; driveSafe]
  | WALK => [walkSafeAccessible; walkSafe; walkAccessible]
  end.

(** The kind looked for by the default selection (line 375). *)
Definition preferredKind (mode : TravelMode) : RouteVariantKind :=
  match mode with
  | DRIVE => driveFast
  | WALK => walkSafeAccessible
  end.

(* ================================================================== *)
(** * Array helpers with the JS semantics the source relies on *)

Definition includes (kinds : list RouteVariantKind) (k : RouteVariantKind) : bool :=
  existsb (kind_eqb k) kinds.

(** [Array.prototype.findIndex]: the first index, or -1. *)
Fixpoint findIndex_from {A} (p : A -> bool) (l : list A) (i : Z) : Z :=
  match l with
  | [] => -1
  | x :: t => if p x then i else findIndex_from p t (i + 1)
  end.

Definition findIndex {A} (p : A -> bool) (l : list A) : Z := findIndex_from p l 0.

(** [Array.prototype.sort] with a comparator: a stable sort, here by
    insertion; [x] goes before the first [y] with [cmp x y <= 0]. *)
Fixpoint sort_insert {A} (cmp : A -> A -> Z) (x : A) (l : list A) : list A :=
  match l with
  | [] => [x]
  | y :: t => if (cmp x y <=? 0)%Z then x :: y :: t else y :: sort_insert cmp x t
  end.

Definition array_sort {A} (cmp : A -> A -> Z) (l : list A) : list A :=
  fold_right (sort_insert cmp) [] l.

(** [Array.prototype.join]. *)
Definition join (sep : string) (l : list string) : string := String.concat sep l.

(* ================================================================== *)
(** * The consolidation key

    [JSON.stringify(coords)] renders an array of number pairs.  A finite
    number is printed by its shortest round-tripping decimal (so two finite
    numbers print alike exactly when they are [===], both zeros as "0");
    NaN and the infinities are printed as "null".  The text of an array of
    pairs determines, and is determined by, the list of these atoms, which
    is what the key is here. *)

Inductive JsonAtom := JsonNull | JsonNum (x : number).

Definition json_number (x : number) : JsonAtom :=
  match x with
  | S754_zero _ => JsonNum (S754_zero false)
  | S754_finite _ _ _ => JsonNum x
  | S754_infinity _ | S754_nan => JsonNull
  end.

Definition JsonKey : Type := list (JsonAtom * JsonAtom).

Definition JSON_stringify (coords : list (number * number)) : JsonKey :=
  map (fun p => (json_number (fst p), json_number (snd p))) coords.

Definition atom_eq_dec (a b : JsonAtom) : {a = b} + {a <> b}.
Proof. decide equality. apply number_eq_dec. Defined.

Definition key_eq_dec (a b : JsonKey) : {a = b} + {a <> b}.
Proof. apply list_eq_dec. decide equality; apply atom_eq_dec. Defined.

(** [result.routeGeojson?.geometry?.coordinates ?? []] *)
Definition coords_of (r : RouteResult) : list (number * number) :=
  match coordinates r with
  | Some cs => cs
  | None => []
  end.

Definition route_key (r : RouteResult) : JsonKey := JSON_stringify (coords_of r).

(* ================================================================== *)
(** * [handleRoute]: classification of the responses (lines 315-337) *)

Definition OkRoute : Type := (RouteVariantKind * RouteResult)%type.

(** The message pushed for a failed variant. *)
Definition failure_message (kind : RouteVariantKind) (response : RouteResponse)
  : option string :=
  match response with
  | ok _ => None
  | no_route message =>
      Some (if String.eqb message ""
            then "No route found."
            else ("No " ++ routeKindLabels kind ++ " route: " ++ message)%string)
  | error message _ =>
      Some (routeKindLabels kind ++ " route error: " ++ message)%string
  end.

(** One iteration of [responses.forEach((response, index) => ...)], with
    [kind = variants[index]]. *)
Definition classify_step (acc : list OkRoute * list string)
  (kr : RouteVariantKind * RouteResponse) : list OkRoute * list string :=
  let '(okRoutes, errorMessages) := acc in
  let '(kind, response) := kr in
  match response with
  | ok data => (okRoutes ++ [(kind, data)], errorMessages)
  | _ =>
      match failure_message kind response with
      | Some m => (okRoutes, errorMessages ++ [m])
      | None => (okRoutes, errorMessages)
      end
  end.

Definition classify (mode : TravelMode) (responses : list RouteResponse)
  : list OkRoute * list string :=
  fold_left classify_step (combine (variants mode) responses) ([], []).

(* ================================================================== *)
(** * [handleRoute]: consolidation (lines 339-377) *)

Record Entry := mkEntry { entry_kinds : list RouteVariantKind; entry_result : RouteResult }.

(** The JS [Map], in insertion order. *)
Definition ConsolidatedMap : Type := list (JsonKey * Entry).

(** [consolidated.get(key)] followed by [entry.kinds.push(kind)] or
    [consolidated.set(key, { kinds: [kind], result })]. *)
Fixpoint map_upsert (key : JsonKey) (kind : RouteVariantKind) (result : RouteResult)
  (m : ConsolidatedMap) : ConsolidatedMap :=
  match m with
  | [] => [(key, mkEntry [kind] result)]
  | (k, e) :: rest =>
      if key_eq_dec key k
      then (k, mkEntry (entry_kinds e ++ [kind]) (entry_result e)) :: rest
      else (k, e) :: map_upsert key kind result rest
  end.

Definition consolidate_step (m : ConsolidatedMap) (o : OkRoute) : ConsolidatedMap :=
  map_upsert (route_key (snd o)) (fst o) (snd o) m.

Definition consolidate (okRoutes : list OkRoute) : ConsolidatedMap :=
  fold_left consolidate_step okRoutes [].

Definition make_choice (mode : TravelMode) (e : Entry) : RouteChoice :=
  let orderedKinds := filter (includes (entry_kinds e)) (kindOrder mode) in
  let color := match orderedKinds with
               | k :: _ => routeColors k
               | [] => "#1f6feb"
               end in
  {| choice_id := join "-" (map kind_name orderedKinds);
     choice_kinds := orderedKinds;
     choice_result := entry_result e;
     choice_color := color;
     choice_label := join " · " (map routeKindLabels orderedKinds) |}.

(** [kindOrder.findIndex((kind) => a.kinds.includes(kind))] *)
Definition best_rank (mode : TravelMode) (c : RouteChoice) : Z :=
  findIndex (includes (choice_kinds c)) (kindOrder mode).

Definition compare_choices (mode : TravelMode) (a b : RouteChoice) : Z :=
  (best_rank mode a - best_rank mode b)%Z.

Definition build_choices (mode : TravelMode) (okRoutes : list OkRoute) : list RouteChoice :=
  array_sort (compare_choices mode) (map (fun ke => make_choice mode (snd ke)) (consolidate okRoutes)).

(** [defaultChoice?.id ?? choices[0]?.id ?? null] *)
Definition default_selection (mode : TravelMode) (choices : list RouteChoice) : option string :=
  match find (fun c => includes (choice_kinds c) (preferredKind mode)) choices with
  | Some c => Some (choice_id c)
  | None => match choices with
            | c :: _ => Some (choice_id c)
            | [] => None
            end
  end.

(** What [handleRoute] writes once the responses are in: the error, or
    the choices and the selected id. *)
Inductive RouteOutcome :=
| RouteFailed (message : string)
| RouteChoices (choices : list RouteChoice) (selected : option string).

Definition route_outcome (mode : TravelMode) (responses : list RouteResponse) : RouteOutcome :=
  let '(okRoutes, errorMessages) := classify mode responses in
  match okRoutes with
  | [] => RouteFailed (match errorMessages with
                       | m :: _ => m
                       | [] => "No route found."
                       end)
  | _ :: _ =>
      let choices := build_choices mode okRoutes in
      RouteChoices choices (default_selection mode choices)
  end.

(** [Promise.all(variants.map((variant) => fetchRouteVariant(params, variant)))]
    for a server that answers [fetch k] to the request of kind [k]. *)
Definition responses_of (mode : TravelMode) (fetch : RouteVariantKind -> RouteResponse)
  : list RouteResponse :=
  map fetch (variants mode).

(* ================================================================== *)
(** * Reading the consolidation map *)

(** [consolidated.get(key)] *)
Fixpoint map_get (key : JsonKey) (m : ConsolidatedMap) : option Entry :=
  match m with
  | [] => None
  | (k, e) :: rest => if key_eq_dec key k then Some e else map_get key rest
  end.

(** The ok routes whose geometry has the given key, in request order. *)
Definition has_key (key : JsonKey) (o : OkRoute) : bool :=
  if key_eq_dec (route_key (snd o)) key then true else false.

Definition group_of (key : JsonKey) (okRoutes : list OkRoute) : list OkRoute :=
  filter (has_key key) okRoutes.

(** The entry a group gives rise to: all its kinds, the first result. *)
Definition entry_of_group (g : list OkRoute) : option Entry :=
  match g with
  | [] => None
  | (_, r) :: _ => Some (mkEntry (map fst g) r)
  end.

Definition is_ok (r : RouteResponse) : bool :=
  match r with ok _ => true | _ => false end.

(** The successful variants of a request, in request order. *)
Definition ok_routes (mode : TravelMode) (fetch : RouteVariantKind -> RouteResponse)
  : list OkRoute :=
  flat_map (fun k => match fetch k with ok d => [(k, d)] | _ => [] end) (variants mode).

(** The messages of the failed variants of a request, in request order. *)
Definition failure_messages (mode : TravelMode) (fetch : RouteVariantKind -> RouteResponse)
  : list string :=
  flat_map (fun k => match failure_message k (fetch k) with Some m => [m] | None => [] end)
           (variants mode).

(** Variant [k] succeeded with a geometry whose key is [key]. *)
Definition contributes (fetch : RouteVariantKind -> RouteResponse) (key : JsonKey)
  (k : RouteVariantKind) : bool :=
  match fetch k with
  | ok d => if key_eq_dec (route_key d) key then true else false
  | _ => false
  end.

(** Rank of a kind in the canonical order of its travel mode. *)
Definition rank (mode : TravelMode) (k : RouteVariantKind) : Z :=
  findIndex (kind_eqb k) (kindOrder mode).

(** Element-wise [===] of two coordinate sequences. *)
Fixpoint same_coords (a b : list (number * number)) : bool :=
  match a, b with
  | [], [] => true
  | (x1, y1) :: a', (x2, y2) :: b' =>
      strict_eq x1 x2 && strict_eq y1 y2 && same_coords a' b'
  | _, _ => false
  end.

Definition finite_coords (cs : list (number * number)) : Prop :=
  Forall (fun p => isFinite (fst p) = true /\ isFinite (snd p) = true) cs.

(* ================================================================== *)
(** * Built-ins and helpers of [App.tsx] (lines 13-23) *)

(** The JS built-ins the handlers call on text and numbers. *)
Class JsRuntime := {
  Number_ : string -> number;          (* [Number(value)] *)
  toFixed : number -> nat -> string;   (* [value.toFixed(digits)] *)
  trim : string -> string              (* [String.prototype.trim] *)
}.

Definition parseNumber `{JsRuntime} (value : string) : option number :=
  let parsed := Number_ value in
  if isFinite parsed then Some parsed else None.

Definition isValidLat (value : number) : bool :=
  ge value (of_Z (-90)) && le value (of_Z 90).

Definition isValidLon (value : number) : bool :=
  ge value (of_Z (-180)) && le value (of_Z 180).

Definition formatCoord `{JsRuntime} (value : number) : string := toFixed value 6.

(** [isSameLocation(a, b)], with the default [epsilon = 1e-6]. *)
Definition isSameLocation (a b : LatLon) : bool :=
  lt (abs (sub (lat a) (lat b))) lit_1e_6 && lt (abs (sub (lon a) (lon b))) lit_1e_6.

(* ================================================================== *)
(** * Markers ([types.ts], [api/markers.ts]) *)

Record MarkerBounds := mkBounds { minLat : number; maxLat : number; minLon : number; maxLon : number }.

Record HazardMarker := mkHazardMarker {
  marker_id : string;
  marker_lat : number;
  marker_lon : number;
  marker_label : option string;
  marker_confidence : option number;
  marker_iconType : option string;
  marker_severity : option number;
  marker_type : option string
}.

Record RiskMarker := mkRiskMarker {
  risk_lat : number;
  risk_lon : number;
  risk_riskType : option string;
  risk_value : option number;
  risk_severity : option number;
  risk_iconType : option string
}.

Record RouteMarkers := mkRouteMarkers {
  hazardMarkers : list HazardMarker;
  riskMarkers : list RiskMarker
}.

Inductive MarkerResponse :=
| markers_ok (data : RouteMarkers)
| markers_error (message : string) (status : option number).

(** A JS object used as [Record<string, RouteMarkers>]: assignment
    replaces the value of an existing key and appends a new one. *)
Definition MarkerRecord : Type := list (string * RouteMarkers).

Fixpoint record_set (key : string) (v : RouteMarkers) (o : MarkerRecord) : MarkerRecord :=
  match o with
  | [] => [(key, v)]
  | (k, w) :: rest => if String.eqb k key then (k, v) :: rest else (k, w) :: record_set key v rest
  end.

Fixpoint record_get (key : string) (o : MarkerRecord) : option RouteMarkers :=
  match o with
  | [] => None
  | (k, w) :: rest => if String.eqb k key then Some w else record_get key rest
  end.

(** [choices.forEach((choice) => { nextMarkers[choice.id] = response.data; })]
    from the empty object. *)
Definition broadcast (choices : list RouteChoice) (data : RouteMarkers) : MarkerRecord :=
  fold_left (fun o c => record_set (choice_id c) data o) choices [].

(* ================================================================== *)
(** * Application state (the [useState] and [useRef] cells of [App]) *)

Inductive PointKind := StartPoint | EndPoint.

Inductive GeoStatus := idle | locating | ready | unavailable.

(** Modelled from the spec: the result type of [geocodePlace], declared
    in [api/geocode.ts], which is not among the sources; "geocode(query)
    -> {lat, lon, label} | error", read by [handlePlaceSearch] as
    [result.kind], [result.data] and [result.message]. *)
Inductive GeocodeResponse :=
| geocode_ok (glat glon : number) (label : string)
| geocode_failed (message : string).

(** Modelled from the spec: the result type of [reverseGeocode], declared
    in [api/geocode.ts]; "reverseGeocode(lat, lon) -> {label} | error",
    read by [requestDeviceLocation] as [result.kind] and [result.label]. *)
Inductive ReverseResponse :=
| reverse_ok (label : string)
| reverse_failed.

Inductive GeoErrorCode := PERMISSION_DENIED | POSITION_UNAVAILABLE | TIMEOUT | OTHER_CODE.

Record Points := mkPoints {
  start : option LatLon;
  end_ : option LatLon;
  startLat : string;
  startLon : string;
  endLat : string;
  endLon : string;
  startPlace : string;
  endPlace : string
}.

Record RouteState := mkRouteState {
  routeChoices : list RouteChoice;
  selectedRouteId : option string;
  routeMarkers : MarkerRecord;
  error_ : option string
}.

Record HazardState := mkHazardState {
  hazardPickMode : bool;
  hazardLat : string;
  hazardLon : string;
  hazardLocation : option LatLon
}.

Record DeviceLocation := mkDeviceLocation { dev_lat : number; dev_lon : number; accuracy : number }.

Record GeoState := mkGeoState {
  geoStatus : GeoStatus;
  geoError : option string;
  deviceLocation : option DeviceLocation;
  startRef : option LatLon;
  hasDefaultedStart : bool
}.

(** [markerDeps] is not a cell of the source: it counts the calls of
    [setMapBounds] and [setRouteChoices].  Each such call stores a fresh
    object, so each changes the dependencies [[mapBounds, routeChoices]] of
    the marker effect; React then runs the cleanup of the previous run
    ([cancelled = true]) and runs the effect again. *)
Record AppState := mkAppState {
  points : Points;
  travelMode : TravelMode;
  route : RouteState;
  mapBounds : option MarkerBounds;
  loading : bool;
  geocoding : option PointKind;
  hazard : HazardState;
  geo : GeoState;
  markerDeps : nat
}.

Definition initial_state : AppState :=
  mkAppState (mkPoints None None "" "" "" "" "" "") WALK
             (mkRouteState [] None [] None) None false None
             (mkHazardState false "" "" None)
             (mkGeoState idle None None None false) 0.

(** ** Setters *)

Definition upd_points (f : Points -> Points) (s : AppState) : AppState :=
  mkAppState (f (points s)) (travelMode s) (route s) (mapBounds s) (loading s)
             (geocoding s) (hazard s) (geo s) (markerDeps s).

Definition upd_route (f : RouteState -> RouteState) (s : AppState) : AppState :=
  mkAppState (points s) (travelMode s) (f (route s)) (mapBounds s) (loading s)
             (geocoding s) (hazard s) (geo s) (markerDeps s).

Definition upd_hazard (f : HazardState -> HazardState) (s : AppState) : AppState :=
  mkAppState (points s) (travelMode s) (route s) (mapBounds s) (loading s)
             (geocoding s) (f (hazard s)) (geo s) (markerDeps s).

Definition upd_geo (f : GeoState -> GeoState) (s : AppState) : AppState :=
  mkAppState (points s) (travelMode s) (route s) (mapBounds s) (loading s)
             (geocoding s) (hazard s) (f (geo s)) (markerDeps s).

Definition bump_deps (s : AppState) : AppState :=
  mkAppState (points s) (travelMode s) (route s) (mapBounds s) (loading s)
             (geocoding s) (hazard s) (geo s) (S (markerDeps s)).

Definition setStart v := upd_points (fun p =>
  mkPoints v (end_ p) (startLat p) (startLon p) (endLat p) (endLon p) (startPlace p) (endPlace p)).
Definition setEnd v := upd_points (fun p =>
  mkPoints (start p) v (startLat p) (startLon p) (endLat p) (endLon p) (startPlace p) (endPlace p)).
Definition setStartLat v := upd_points (fun p =>
  mkPoints (start p) (end_ p) v (startLon p) (endLat p) (endLon p) (startPlace p) (endPlace p)).
Definition setStartLon v := upd_points (fun p =>
  mkPoints (start p) (end_ p) (startLat p) v (endLat p) (endLon p) (startPlace p) (endPlace p)).
Definition setEndLat v := upd_points (fun p =>
  mkPoints (start p) (end_ p) (startLat p) (startLon p) v (endLon p) (startPlace p) (endPlace p)).
Definition setEndLon v := upd_points (fun p =>
  mkPoints (start p) (end_ p) (startLat p) (startLon p) (endLat p) v (startPlace p) (endPlace p)).
Definition setStartPlace v := upd_points (fun p =>
  mkPoints (start p) (end_ p) (startLat p) (startLon p) (endLat p) (endLon p) v (endPlace p)).
Definition setEndPlace v := upd_points (fun p =>
  mkPoints (start p) (end_ p) (startLat p) (startLon p) (endLat p) (endLon p) (startPlace p) v).

Definition setRouteChoices v (s : AppState) : AppState :=
  bump_deps (upd_route (fun r =>
    mkRouteState v (selectedRouteId r) (routeMarkers r) (error_ r)) s).
Definition setSelectedRouteId v := upd_route (fun r =>
  mkRouteState (routeChoices r) v (routeMarkers r) (error_ r)).
Definition setRouteMarkers v := upd_route (fun r =>
  mkRouteState (routeChoices r) (selectedRouteId r) v (error_ r)).
Definition setError v := upd_route (fun r =>
  mkRouteState (routeChoices r) (selectedRouteId r) (routeMarkers r) v).

Definition setMapBounds v (s : AppState) : AppState :=
  mkAppState (points s) (travelMode s) (route s) v (loading s)
             (geocoding s) (hazard s) (geo s) (S (markerDeps s)).
Definition setTravelMode v (s : AppState) : AppState :=
  mkAppState (points s) v (route s) (mapBounds s) (loading s)
             (geocoding s) (hazard s) (geo s) (markerDeps s).
Definition setLoading v (s : AppState) : AppState :=
  mkAppState (points s) (travelMode s) (route s) (mapBounds s) v
             (geocoding s) (hazard s) (geo s) (markerDeps s).
Definition setGeocoding v (s : AppState) : AppState :=
  mkAppState (points s) (travelMode s) (route s) (mapBounds s) (loading s)
             v (hazard s) (geo s) (markerDeps s).

Definition setHazardPickMode v := upd_hazard (fun h =>
  mkHazardState v (hazardLat h) (hazardLon h) (hazardLocation h)).
Definition setHazardLat v := upd_hazard (fun h =>
  mkHazardState (hazardPickMode h) v (hazardLon h) (hazardLocation h)).
Definition setHazardLon v := upd_hazard (fun h =>
  mkHazardState (hazardPickMode h) (hazardLat h) v (hazardLocation h)).
Definition setHazardLocation v := upd_hazard (fun h =>
  mkHazardState (hazardPickMode h) (hazardLat h) (hazardLon h) v).

Definition setGeoStatus v := upd_geo (fun g =>
  mkGeoState v (geoError g) (deviceLocation g) (startRef g) (hasDefaultedStart g)).
Definition setGeoError v := upd_geo (fun g =>
  mkGeoState (geoStatus g) v (deviceLocation g) (startRef g) (hasDefaultedStart g)).
Definition setDeviceLocation v := upd_geo (fun g =>
  mkGeoState (geoStatus g) (geoError g) v (startRef g) (hasDefaultedStart g)).
Definition setStartRef v := upd_geo (fun g =>
  mkGeoState (geoStatus g) (geoError g) (deviceLocation g) v (hasDefaultedStart g)).
Definition setHasDefaultedStart v := upd_geo (fun g =>
  mkGeoState (geoStatus g) (geoError g) (deviceLocation g) (startRef g) v).

(* ================================================================== *)
(** * Asynchronous requests and events

    A handler runs to its next [await] and returns the requests it has
    started; what follows the [await] is a second handler, run by the
    event that delivers the result.  The values such an event carries
    besides the result are those captured by the closure when the request
    was started. *)

Record RouteParams := mkRouteParams {
  p_startLat : number; p_startLon : number; p_endLat : number; p_endLon : number
}.

Inductive Request :=
| ReqRoutes (mode : TravelMode) (params : RouteParams) (bounds : option MarkerBounds)
| ReqRouteMarkers (choices : list RouteChoice) (bounds : MarkerBounds)
| ReqEffectMarkers (epoch : nat) (choices : list RouteChoice) (bounds : MarkerBounds)
| ReqGeocode (kind : PointKind) (query : string)
| ReqReverseGeocode (defaultLocation : LatLon)
| ReqGeolocation.

Inductive Event :=
| MapClick (clat clon : number)
| StartLatInput (value : string)
| StartLonInput (value : string)
| EndLatInput (value : string)
| EndLonInput (value : string)
| StartPlaceInput (value : string)
| EndPlaceInput (value : string)
| PlaceSearch (kind : PointKind)
| GeocodeSettled (kind : PointKind) (result : GeocodeResponse)
| RouteClick
| RoutesSettled (mode : TravelMode) (bounds : option MarkerBounds) (responses : list RouteResponse)
| RouteMarkersSettled (choices : list RouteChoice) (response : MarkerResponse)
| EffectMarkersSettled (epoch : nat) (choices : list RouteChoice) (response : MarkerResponse)
| BoundsChange (bounds : MarkerBounds)
| WalkClick
| DriveClick
| SelectRoute (routeId : string)
| ClearClick
| HazardPickToggle
| HazardClearLocation
| HazardLatInput (value : string)
| HazardLonInput (value : string)
| RefreshLocation (supported : bool)   (* also the call on mount, line 171 *)
| GeoSuccess (glat glon gaccuracy : number)
| GeoFailure (code : GeoErrorCode) (message : string)
| ReverseGeocodeSettled (defaultLocation : LatLon) (result : ReverseResponse).

Notation "s |> f" := (f s) (at level 45, left associativity, only parsing).

(* ================================================================== *)
(** * The handlers of [App] *)

(** Lines 178-183. *)
Definition clearRouteState (s : AppState) : AppState :=
  s |> setRouteChoices [] |> setSelectedRouteId None |> setRouteMarkers [] |> setError None.

(** The point a pair of coordinate fields denotes (lines 188-194). *)
Definition point_of_inputs `{JsRuntime} (nextLat nextLon : string) : option LatLon :=
  match parseNumber nextLat, parseNumber nextLon with
  | Some latValue, Some lonValue =>
      if isValidLat latValue && isValidLon lonValue
      then Some (mkLatLon latValue lonValue)
      else None
  | _, _ => None
  end.

Definition updateStartFromInputs `{JsRuntime} (nextLat nextLon : string) (s : AppState) : AppState :=
  s |> setStartLat nextLat |> setStartLon nextLon
    |> setStart (point_of_inputs nextLat nextLon)
    |> setStartPlace "" |> clearRouteState.

Definition updateEndFromInputs `{JsRuntime} (nextLat nextLon : string) (s : AppState) : AppState :=
  s |> setEndLat nextLat |> setEndLon nextLon
    |> setEnd (point_of_inputs nextLat nextLon)
    |> setEndPlace "" |> clearRouteState.

(** Lines 213-229. *)
Definition applyGeocodeResult `{JsRuntime} (kind : PointKind) (la lo : number) (label : string)
  (s : AppState) : AppState :=
  let formattedLat := formatCoord la in
  let formattedLon := formatCoord lo in
  match kind with
  | StartPoint =>
      s |> setStart (Some (mkLatLon la lo)) |> setStartLat formattedLat
        |> setStartLon formattedLon |> setStartPlace label
  | EndPoint =>
      s |> setEnd (Some (mkLatLon la lo)) |> setEndLat formattedLat
        |> setEndLon formattedLon |> setEndPlace label
  end.

(** [handlePlaceSearch] up to [await geocodePlace(query)] (lines 231-240). *)
Definition handlePlaceSearch `{JsRuntime} (kind : PointKind) (s : AppState)
  : AppState * list Request :=
  let query := trim (match kind with
                     | StartPoint => startPlace (points s)
                     | EndPoint => endPlace (points s)
                     end) in
  if String.eqb query ""
  then (s |> setError (Some "Please enter a place name."), [])
  else (s |> clearRouteState |> setGeocoding (Some kind), [ReqGeocode kind query]).

(** [handlePlaceSearch] after the [await] (lines 241-252). *)
Definition handlePlaceSearch_settled `{JsRuntime} (kind : PointKind) (result : GeocodeResponse)
  (s : AppState) : AppState :=
  let s := s |> setGeocoding None in
  match result with
  | geocode_ok la lo label =>
      if negb (isValidLat la) || negb (isValidLon lo)
      then s |> setError (Some "Geocoder returned out-of-range coordinates.")
      else applyGeocodeResult kind la lo label s
  | geocode_failed message => s |> setError (Some message)
  end.

(** Lines 255-285. *)
Definition handleMapClick `{JsRuntime} (la lo : number) (s0 : AppState) : AppState :=
  let s := clearRouteState s0 in
  let formattedLat := formatCoord la in
  let formattedLon := formatCoord lo in
  match start (points s0) with
  | None =>
      s |> setStart (Some (mkLatLon la lo)) |> setStartLat formattedLat
        |> setStartLon formattedLon |> setStartPlace ""
  | Some _ =>
      match end_ (points s0) with
      | None =>
          s |> setEnd (Some (mkLatLon la lo)) |> setEndLat formattedLat
            |> setEndLon formattedLon |> setEndPlace ""
      | Some _ =>
          s |> setStart (Some (mkLatLon la lo)) |> setEnd None
            |> setStartLat formattedLat |> setStartLon formattedLon
            |> setEndLat "" |> setEndLon ""
            |> setStartPlace "" |> setEndPlace ""
      end
  end.

(** [handleRoute] up to [await Promise.all(...)] (lines 287-312). *)
Definition handleRoute (s0 : AppState) : AppState * list Request :=
  let s := clearRouteState s0 in
  match start (points s0), end_ (points s0) with
  | Some st, Some en =>
      if negb (isValidLat (lat st)) || negb (isValidLon (lon st))
         || negb (isValidLat (lat en)) || negb (isValidLon (lon en))
      then (s |> setError (Some "Coordinates are out of range."), [])
      else (s |> setLoading true,
            [ReqRoutes (travelMode s0)
                       (mkRouteParams (lat st) (lon st) (lat en) (lon en))
                       (mapBounds s0)])
  | _, _ => (s |> setError (Some "Please set both a start and end location."), [])
  end.

(** [handleRoute] from the responses to [await fetchRouteMarkers(mapBounds)]
    (lines 313-380); [mode] and [bounds] are the [travelMode] and
    [mapBounds] of the render in which the handler started. *)
Definition handleRoute_settled (mode : TravelMode) (bounds : option MarkerBounds)
  (responses : list RouteResponse) (s : AppState) : AppState * list Request :=
  let s := s |> setLoading false in
  match route_outcome mode responses with
  | RouteFailed message => (s |> setError (Some message), [])
  | RouteChoices choices selected =>
      (s |> setRouteChoices choices |> setSelectedRouteId selected,
       match bounds with
       | Some b => [ReqRouteMarkers choices b]
       | None => []
       end)
  end.

(** [handleRoute] after the marker fetch (lines 381-387). *)
Definition handleRoute_markers (choices : list RouteChoice) (response : MarkerResponse)
  (s : AppState) : AppState :=
  match response with
  | markers_ok data => s |> setRouteMarkers (broadcast choices data)
  | markers_error _ _ => s
  end.

(** The marker effect after its fetch (lines 556-563): [cancelled] holds
    when the dependencies have changed since the run that started it. *)
Definition markerEffect_settled (epoch : nat) (choices : list RouteChoice)
  (response : MarkerResponse) (s : AppState) : AppState :=
  let cancelled := negb (Nat.eqb epoch (markerDeps s)) in
  match response with
  | markers_ok data =>
      if cancelled then s else s |> setRouteMarkers (broadcast choices data)
  | markers_error _ _ => s
  end.

(** The marker effect itself (lines 549-555), run when its dependencies
    have changed. *)
Definition markerEffect (s : AppState) : list Request :=
  match mapBounds s with
  | None => []
  | Some b =>
      match routeChoices (route s) with
      | [] => []
      | _ :: _ => [ReqEffectMarkers (markerDeps s) (routeChoices (route s)) b]
      end
  end.

(** Lines 470-484. *)
Definition handleClear (s : AppState) : AppState :=
  s |> setStart None |> setEnd None
    |> setStartLat "" |> setStartLon "" |> setEndLat "" |> setEndLon ""
    |> setStartPlace "" |> setEndPlace "" |> setGeocoding None
    |> setRouteChoices [] |> setSelectedRouteId None |> setRouteMarkers [] |> setError None.

(** The travel-mode buttons (lines 595-612). *)
Definition selectTravelMode (mode : TravelMode) (s : AppState) : AppState :=
  match travelMode s, mode with
  | WALK, WALK | DRIVE, DRIVE => s
  | _, _ => s |> setTravelMode mode |> clearRouteState
  end.

(** Lines 537-547. *)
Definition handleHazardLocationInput `{JsRuntime} (nextLat nextLon : string) (s : AppState)
  : AppState :=
  s |> setHazardLat nextLat |> setHazardLon nextLon
    |> setHazardLocation (point_of_inputs nextLat nextLon).

(** [onHazardPick] (lines 924-931). *)
Definition onHazardPick `{JsRuntime} (la lo : number) (s : AppState) : AppState :=
  s |> setHazardPickMode false
    |> setHazardLat (formatCoord la) |> setHazardLon (formatCoord lo)
    |> setHazardLocation (Some (mkLatLon la lo)).

(** The click handler of [MapEventHandler]; [App] always passes
    [onHazardPick]. *)
Definition mapEventHandler_click `{JsRuntime} (la lo : number) (s : AppState) : AppState :=
  if hazardPickMode (hazard s)
  then onHazardPick la lo s
  else handleMapClick la lo s.

(** [requestDeviceLocation] up to [getCurrentPosition] (lines 111-121);
    [supported] is [navigator.geolocation] being there. *)
Definition requestDeviceLocation (supported : bool) (s : AppState) : AppState * list Request :=
  if supported
  then (s |> setGeoStatus locating |> setGeoError None, [ReqGeolocation])
  else (s |> setGeoStatus unavailable
          |> setGeoError (Some "Geolocation is not supported by this browser.")
          |> setDeviceLocation None, []).

(** The success callback of [getCurrentPosition] (lines 122-151). *)
Definition geolocation_success `{JsRuntime} (la lo acc : number) (s : AppState)
  : AppState * list Request :=
  let s := s |> setGeoStatus ready |> setDeviceLocation (Some (mkDeviceLocation la lo acc)) in
  let currentStart := startRef (geo s) in
  match hasDefaultedStart (geo s), currentStart with
  | false, None =>
      let defaultLocation := mkLatLon la lo in
      (s |> setStart (Some defaultLocation)
         |> setStartLat (formatCoord la) |> setStartLon (formatCoord lo)
         |> setStartPlace "Current location"
         |> setHasDefaultedStart true,
       [ReqReverseGeocode defaultLocation])
  | _, _ => (s, [])
  end.

(** The continuation of [reverseGeocode(lat, lon)] (lines 142-150). *)
Definition reverseGeocode_settled (defaultLocation : LatLon) (result : ReverseResponse)
  (s : AppState) : AppState :=
  match result with
  | reverse_failed => s
  | reverse_ok label =>
      match startRef (geo s) with
      | Some latestStart =>
          if isSameLocation latestStart defaultLocation
          then s |> setStartPlace label
          else s
      | None => s
      end
  end.

(** The error callback of [getCurrentPosition] (lines 153-165). *)
Definition geolocation_failure (code : GeoErrorCode) (message : string) (s : AppState)
  : AppState :=
  let message :=
    match code with
    | PERMISSION_DENIED => "Permission denied for location."
    | POSITION_UNAVAILABLE => "Location information is unavailable."
    | TIMEOUT => "Location request timed out."
    | OTHER_CODE => if String.eqb message "" then "Unable to retrieve location." else message
    end in
  s |> setGeoStatus unavailable |> setGeoError (Some message) |> setDeviceLocation None.

(** Lines 503-504; the hazard upload is not part of the model, so
    [hazardUploading] is false.  A disabled button takes no click. *)
Definition routeDisabled (s : AppState) : bool :=
  loading s
  || match start (points s) with None => true | Some _ => false end
  || match end_ (points s) with None => true | Some _ => false end.

Definition hazardInputsDisabled (s : AppState) : bool :=
  match geoStatus (geo s) with ready => false | _ => true end.

(* ================================================================== *)
(** * One event: the handler, then the commit *)

Definition handle `{JsRuntime} (ev : Event) (s : AppState) : AppState * list Request :=
  match ev with
  | MapClick la lo => (mapEventHandler_click la lo s, [])
  | StartLatInput v => (updateStartFromInputs v (startLon (points s)) s, [])
  | StartLonInput v => (updateStartFromInputs (startLat (points s)) v s, [])
  | EndLatInput v => (updateEndFromInputs v (endLon (points s)) s, [])
  | EndLonInput v => (updateEndFromInputs (endLat (points s)) v s, [])
  | StartPlaceInput v => (setStartPlace v s, [])
  | EndPlaceInput v => (setEndPlace v s, [])
  | PlaceSearch kind => handlePlaceSearch kind s
  | GeocodeSettled kind result => (handlePlaceSearch_settled kind result s, [])
  | RouteClick => if routeDisabled s then (s, []) else handleRoute s
  | RoutesSettled mode bounds responses => handleRoute_settled mode bounds responses s
  | RouteMarkersSettled choices response => (handleRoute_markers choices response s, [])
  | EffectMarkersSettled epoch choices response =>
      (markerEffect_settled epoch choices response s, [])
  | BoundsChange b => (setMapBounds (Some b) s, [])
  | WalkClick => (selectTravelMode WALK s, [])
  | DriveClick => (selectTravelMode DRIVE s, [])
  | SelectRoute routeId => (setSelectedRouteId (Some routeId) s, [])
  | ClearClick => (handleClear s, [])
  | HazardPickToggle =>
      if hazardInputsDisabled s then (s, [])
      else (setHazardPickMode (negb (hazardPickMode (hazard s))) s, [])
  | HazardClearLocation =>
      match hazardLocation (hazard s) with
      | Some _ =>
          if hazardInputsDisabled s then (s, [])
          else (s |> setHazardLocation None |> setHazardLat "" |> setHazardLon ""
                  |> setHazardPickMode false, [])
      | None => (s, [])
      end
  | HazardLatInput v =>
      if hazardInputsDisabled s then (s, [])
      else (handleHazardLocationInput v (hazardLon (hazard s)) s, [])
  | HazardLonInput v =>
      if hazardInputsDisabled s then (s, [])
      else (handleHazardLocationInput (hazardLat (hazard s)) v s, [])
  | RefreshLocation supported =>
      match geoStatus (geo s) with
      | locating => (s, [])
      | _ => requestDeviceLocation supported s
      end
  | GeoSuccess la lo acc => geolocation_success la lo acc s
  | GeoFailure code message => (geolocation_failure code message s, [])
  | ReverseGeocodeSettled defaultLocation result =>
      (reverseGeocode_settled defaultLocation result s, [])
  end.

(** After the handler React renders and runs the effects whose
    dependencies have changed: [startRef.current = start] (lines 174-176)
    and the marker effect. *)
Definition commit (before : AppState) (after : AppState * list Request)
  : AppState * list Request :=
  let s := setStartRef (start (points (fst after))) (fst after) in
  (s, snd after ++ (if Nat.eqb (markerDeps before) (markerDeps s) then [] else markerEffect s)).

Definition step `{JsRuntime} (s : AppState) (ev : Event) : AppState * list Request :=
  commit s (handle ev s).

(** A sequence of events, with all the requests started on the way. *)
Fixpoint run `{JsRuntime} (s : AppState) (evs : list Event) : AppState * list Request :=
  match evs with
  | [] => (s, [])
  | ev :: rest =>
      let '(s1, r1) := step s ev in
      let '(s2, r2) := run s1 rest in
      (s2, r1 ++ r2)
  end.

(** The route state is cleared. *)
Definition route_cleared (s : AppState) : Prop :=
  routeChoices (route s) = [] /\ selectedRouteId (route s) = None /\
  routeMarkers (route s) = [] /\ error_ (route s) = None.

(* ================================================================== *)
(** * [Promise.all]

    The promises settle in some order; each value is stored at the index
    of its promise, and the array is delivered once every slot is filled.
    [fetchRouteVariant] turns every failure of the fetch into an [error]
    response, so the promises are taken to resolve. *)

Fixpoint store {A} (i : nat) (v : A) (slots : list (option A)) : list (option A) :=
  match slots, i with
  | [], _ => []
  | _ :: rest, O => Some v :: rest
  | x :: rest, S j => x :: store j v rest
  end.

Fixpoint all_filled {A} (slots : list (option A)) : option (list A) :=
  match slots with
  | [] => Some []
  | None :: _ => None
  | Some v :: rest =>
      match all_filled rest with
      | Some vs => Some (v :: vs)
      | None => None
      end
  end.

Definition Promise_all {A} (n : nat) (settlements : list (nat * A)) : option (list A) :=
  all_filled (fold_left (fun slots iv => store (fst iv) (snd iv) slots)
                        settlements (repeat None n)).

(** The settlements of a request when the variants answer in request order. *)
Definition in_request_order (mode : TravelMode) (fetch : RouteVariantKind -> RouteResponse)
  : list (nat * RouteResponse) :=
  combine (seq 0 (List.length (variants mode))) (responses_of mode fetch).

(** What [handleRoute] derives when the responses settle in the given order. *)
Definition outcome_of_settlements (mode : TravelMode) (settlements : list (nat * RouteResponse))
  : option RouteOutcome :=
  match Promise_all (List.length (variants mode)) settlements with
  | Some responses => Some (route_outcome mode responses)
  | None => None
  end.

(* ================================================================== *)
(** * The all-fail message as the specification words it

    "The first noRoute message in canonical kind order, or, if none is
    noRoute, the first error message in canonical kind order."  This
    follows the specification text, for comparison with [route_outcome]. *)

Fixpoint first_some {A B} (f : A -> option B) (l : list A) : option B :=
  match l with
  | [] => None
  | x :: rest => match f x with Some b => Some b | None => first_some f rest end
  end.

Definition spec_all_fail_message (mode : TravelMode) (fetch : RouteVariantKind -> RouteResponse)
  : option string :=
  match first_some (fun k => match fetch k with no_route m => Some m | _ => None end)
                   (kindOrder mode) with
  | Some m => Some m
  | None => first_some (fun k => match fetch k with error m _ => Some m | _ => None end)
                       (kindOrder mode)
  end.

(* ================================================================== *)
(** * The built-ins as ECMA-262 defines them

    [String.prototype.trim], [Number(text)] (StringToNumber),
    [Number.prototype.toFixed] and [Math.round], computed on the bytes
    of a text (UTF-8) and on the exact value of a double.  They give the
    instances of [JsRuntime] and [JsMath] on which the concrete lemmas
    are run. *)

Module Ecma.

Definition bytes_of (text : string) : list N := map N_of_ascii (list_ascii_of_string text).

Definition text_of (bytes : list N) : string := string_of_list_ascii (map ascii_of_N bytes).

(** WhiteSpace and LineTerminator: U+0009 to U+000D, U+0020, U+00A0,
    U+1680, U+2000 to U+200A, U+2028, U+2029, U+202F, U+205F, U+3000 and
    U+FEFF, each as its UTF-8 bytes. *)
Definition white_space : list (list N) :=
  [ [9]; [10]; [11]; [12]; [13]; [32];
    [194; 160];
    [225; 154; 128];
    [226; 128; 128]; [226; 128; 129]; [226; 128; 130]; [226; 128; 131];
    [226; 128; 132]; [226; 128; 133]; [226; 128; 134]; [226; 128; 135];
    [226; 128; 136]; [226; 128; 137]; [226; 128; 138];
    [226; 128; 168]; [226; 128; 169];
    [226; 128; 175];
    [226; 129; 159];
    [227; 128; 128];
    [239; 187; 191] ]%N.

Fixpoint starts_with (w bytes : list N) : bool :=
  match w, bytes with
  | [], _ => true
  | x :: w', b :: bytes' => N.eqb x b && starts_with w' bytes'
  | _ :: _, [] => false
  end.

(** The length of the white space character at the head, 0 if there is
    none. *)
Definition space_at_head (spaces : list (list N)) (bytes : list N) : nat :=
  match find (fun w => starts_with w bytes) spaces with
  | Some w => List.length w
  | None => 0
  end.

Fixpoint drop_spaces (spaces : list (list N)) (fuel : nat) (bytes : list N) : list N :=
  match fuel with
  | O => bytes
  | S fuel' =>
      match space_at_head spaces bytes with
      | O => bytes
      | n => drop_spaces spaces fuel' (skipn n bytes)
      end
  end.

(** White space is dropped at the head, then at the tail (on the
    reversed bytes); the length of the text is fuel enough. *)
Definition trim_bytes (bytes : list N) : list N :=
  let front := drop_spaces white_space (List.length bytes) bytes in
  rev (drop_spaces (map (@rev N) white_space) (List.length front) (rev front)).

(** [text.trim()] *)
Definition String_trim (text : string) : string := text_of (trim_bytes (bytes_of text)).

(** The value of a digit in a radix: 0-9, a-f, A-F. *)
Definition digit_value (radix : N) (b : N) : option Z :=
  let value :=
    if ((48 <=? b) && (b <=? 57))%N then Some (b - 48)%N
    else if ((97 <=? b) && (b <=? 102))%N then Some (b - 87)%N
    else if ((65 <=? b) && (b <=? 70))%N then Some (b - 55)%N
    else None in
  match value with
  | Some d => if (d <? radix)%N then Some (Z.of_N d) else None
  | None => None
  end.

(** The digits at the head: their value after [acc], their number after
    [count], and what follows them. *)
Fixpoint read_digits (radix : N) (bytes : list N) (acc : Z) (count : nat)
  : Z * nat * list N :=
  match bytes with
  | b :: rest =>
      match digit_value radix b with
      | Some d => read_digits radix rest (acc * Z.of_N radix + d)%Z (S count)
      | None => (acc, count, bytes)
      end
  | [] => (acc, count, [])
  end.

(** The double nearest to [m * 10 ^ e10] (ties to even), with the sign
    [negative]; [m] is not negative.  Integers and powers of ten are
    exact in [Z], and [SFdiv] rounds the exact quotient once. *)
Definition round_decimal (negative : bool) (m e10 : Z) : number :=
  if (m =? 0)%Z then S754_zero negative
  else if (0 <=? e10)%Z
  then binary_normalize prec emax ((if negative then - m else m) * 10 ^ e10) 0 false
  else SFdiv prec emax (S754_finite negative (Z.to_pos m) 0)
             (S754_finite false (Z.to_pos (10 ^ (- e10))) 0).

(** The digits of a [0x], [0o] or [0b] literal. *)
Definition non_decimal (radix : N) (digits : list N) : number :=
  match read_digits radix digits 0 0 with
  | (value, S _, []) => round_decimal false value 0
  | _ => NaN
  end.

(** ExponentPart, if any, up to the end of the text. *)
Definition exponent_part (bytes : list N) : option Z :=
  match bytes with
  | [] => Some 0%Z
  | b :: rest =>
      if ((b =? 101) || (b =? 69))%N
      then
        let '(negative, digits) :=
          match rest with
          | sign :: digits =>
              if (sign =? 43)%N then (false, digits)
              else if (sign =? 45)%N then (true, digits)
              else (false, rest)
          | [] => (false, rest)
          end in
        match read_digits 10 digits 0 0 with
        | (value, S _, []) => Some (if negative then - value else value)%Z
        | _ => None
        end
      else None
  end.

(** StrUnsignedDecimalLiteral: [Infinity], or digits with an optional
    point and an optional exponent, at least one digit in all. *)
Definition unsigned_decimal (negative : bool) (bytes : list N) : number :=
  if list_eq_dec N.eq_dec bytes (bytes_of "Infinity") then S754_infinity negative
  else
    let '(int_value, int_count, rest) := read_digits 10 bytes 0 0 in
    let '(mantissa, frac_count, rest) :=
      match rest with
      | b :: after => if (b =? 46)%N then read_digits 10 after int_value 0
                      else (int_value, O, rest)
      | [] => (int_value, O, rest)
      end in
    match (int_count + frac_count)%nat with
    | O => NaN
    | S _ =>
        match exponent_part rest with
        | Some e => round_decimal negative mantissa (e - Z.of_nat frac_count)
        | None => NaN
        end
    end.

(** The digits after [0] and one of the two letters. *)
Definition prefixed (a b : N) (bytes : list N) : option (list N) :=
  match bytes with
  | zero :: letter :: digits =>
      if ((zero =? 48) && ((letter =? a) || (letter =? b)))%N then Some digits else None
  | _ => None
  end.

(** [Number(text)]: white space is dropped on both sides; the empty text
    is 0, a text that is no StrNumericLiteral is NaN.  Only a decimal
    literal takes a sign.  The exact value is rounded, which is what the
    engines do also beyond the twenty digits up to which ECMA-262 asks for
    it. *)
Definition StringToNumber (text : string) : number :=
  let bytes := trim_bytes (bytes_of text) in
  match bytes with
  | [] => S754_zero false
  | first :: rest =>
      if (first =? 43)%N then unsigned_decimal false rest
      else if (first =? 45)%N then unsigned_decimal true rest
      else match prefixed 120 88 bytes, prefixed 111 79 bytes, prefixed 98 66 bytes with
           | Some digits, _, _ => non_decimal 16 digits
           | None, Some digits, _ => non_decimal 8 digits
           | None, None, Some digits => non_decimal 2 digits
           | None, None, None => unsigned_decimal false bytes
           end
  end.

(** The decimal digits of an integer that is not negative. *)
Definition decimal (n : Z) : string := NilZero.string_of_uint (N.to_uint (Z.to_N n)).

(** The integer [n] for which [n / 10 ^ f] is nearest to [m * 2 ^ e],
    the larger one of two. *)
Definition scaled_round (m : positive) (e : Z) (f : nat) : Z :=
  let scaled := (Z.pos m * 10 ^ Z.of_nat f)%Z in
  if (0 <=? e)%Z then (scaled * 2 ^ e)%Z
  else ((2 * scaled + 2 ^ (- e)) / 2 ^ (1 - e))%Z.

Fixpoint zeros (n : nat) : string :=
  match n with
  | O => ""
  | S n' => String "0" (zeros n')
  end.

(** The digits of [n] with a point before the last [f] of them. *)
Definition fixed_digits (n : Z) (f : nat) : string :=
  let m := decimal n in
  let m := if (String.length m <=? f)%nat
           then (zeros (f + 1 - String.length m) ++ m)%string else m in
  let k := String.length m in
  if (f =? 0)%nat then m
  else (substring 0 (k - f) m ++ "." ++ substring (k - f) f m)%string.

(** Number::toString for an integer [value] of at least 10 ^ 21, the
    double [x]: the pairs [(s, n)] of [k] digits [s] with
    [s * 10 ^ (n - k)] rounding to [x]. *)
Definition candidates (x : number) (value n0 k : Z) : list (Z * Z) :=
  let q := (value / 10 ^ (n0 - k))%Z in
  filter (fun sn => ((10 ^ (k - 1) <=? fst sn) && (fst sn <? 10 ^ k))%Z
                    && SFeqb (of_Z (fst sn * 10 ^ (snd sn - k))) x)
         ([(q, n0); (q + 1, n0)%Z] ++ (if (k =? 1)%Z then [(1, n0 + 1)%Z] else [])).

(** Of two candidates the one nearer to the value, the even one of two
    equally near. *)
Definition closer (value k : Z) (best next : Z * Z) : Z * Z :=
  let distance := fun sn : Z * Z => Z.abs (fst sn * 10 ^ (snd sn - k) - value) in
  if (distance next <? distance best)%Z then next
  else if ((distance next =? distance best) && Z.even (fst next))%Z then next
  else best.

(** The least number of digits that gives the double back. *)
Fixpoint shortest (x : number) (value n0 : Z) (ks : list Z) : option (Z * Z * Z) :=
  match ks with
  | [] => None
  | k :: rest =>
      match candidates x value n0 k with
      | [] => shortest x value n0 rest
      | c :: cs => Some (fold_left (closer value k) cs c, k)
      end
  end.

(** Seventeen digits identify a double, so the search succeeds on every
    double. *)
Definition exponent_form (x : number) (value : Z) : string :=
  let n0 := Z.of_nat (String.length (decimal value)) in
  match shortest x value n0 (map Z.of_nat (seq 1 17)) with
  | Some (s, n, k) =>
      let digits := decimal s in
      ((if (k =? 1)%Z then digits
        else substring 0 1 digits ++ "." ++ substring 1 (String.length digits - 1) digits)
       ++ "e+" ++ decimal (n - 1))%string
  | None => decimal value
  end.

(** [x.toFixed(f)] for [f] up to 100 (a larger [f] is a RangeError, and
    the source passes 6). *)
Definition Number_toFixed (x : number) (f : nat) : string :=
  match x with
  | S754_nan => "NaN"
  | S754_infinity false => "Infinity"
  | S754_infinity true => "-Infinity"
  | S754_zero _ => fixed_digits 0 f
  | S754_finite negative m e =>
      ((if negative then "-" else "")
       ++ (if SFleb (of_Z (10 ^ 21)) (S754_finite false m e)
           then exponent_form (S754_finite false m e) (Z.shiftl (Z.pos m) e)
           else fixed_digits (scaled_round m e f) f))%string
  end.

(** [Math.round(x)]: the integer nearest to [x], the larger one of two;
    a zero result keeps the sign of [x]. *)
Definition Math_round (x : number) : number :=
  match x with
  | S754_finite negative m e =>
      if (0 <=? e)%Z then x
      else
        let n := ((2 * (if negative then Z.neg m else Z.pos m) + 2 ^ (- e)) / 2 ^ (1 - e))%Z in
        if (n =? 0)%Z then S754_zero negative else of_Z n
  | _ => x
  end.

End Ecma.

(* ================================================================== *)
(** * Sample inputs used by the concrete lemmas below *)

(** Two results with the geometry [[0,0],[1,1]] and different lengths,
    and one with another geometry. *)
Definition result_short : RouteResult :=
  mkRouteResult (of_Z 100) (of_Z 60) [of_Z 1; of_Z 2] [of_Z 7]
                (Some [(of_Z 0, of_Z 0); (of_Z 1, of_Z 1)]).

Definition result_long : RouteResult :=
  mkRouteResult (of_Z 900) (of_Z 600) [of_Z 1; of_Z 5; of_Z 2] [of_Z 8; of_Z 9]
                (Some [(of_Z 0, of_Z 0); (of_Z 1, of_Z 1)]).

Definition result_other : RouteResult :=
  mkRouteResult (of_Z 100) (of_Z 60) [of_Z 1; of_Z 2] [of_Z 7]
                (Some [(of_Z 0, of_Z 0); (of_Z 2, of_Z 1)]).

(** Drive: fastest answers noRoute("M1"), safe answers noRoute("M2"). *)
Definition both_no_route (k : RouteVariantKind) : RouteResponse :=
  match k with
  | driveFast => no_route "M1"
  | _ => no_route "M2"
  end.

(** Drive: fastest answers error(500, "timeout"), safe answers noRoute("M2"). *)
Definition error_then_no_route (k : RouteVariantKind) : RouteResponse :=
  match k with
  | driveFast => error "timeout" (Some (of_Z 500))
  | _ => no_route "M2"
  end.


(** Walk: safe and accessible answer ok with the same geometry,
    safe+accessible answers noRoute("blocked"). *)
Definition two_merge (k : RouteVariantKind) : RouteResponse :=
  match k with
  | walkSafe => ok result_short
  | walkAccessible => ok result_long
  | _ => no_route "blocked"
  end.

(** Walk: safe and accessible answer ok with different geometries. *)
Definition two_differ (k : RouteVariantKind) : RouteResponse :=
  match k with
  | walkSafe => ok result_short
  | walkAccessible => ok result_other
  | _ => no_route "blocked"
  end.

(** The runtime of the concrete lemmas: the built-ins of ECMA-262. *)
Definition plain_runtime : JsRuntime :=
  {| Number_ := Ecma.StringToNumber; toFixed := Ecma.Number_toFixed;
     trim := Ecma.String_trim |}.

Definition point (a b : Z) : LatLon := mkLatLon (of_Z a) (of_Z b).

Definition sample_bounds : MarkerBounds := mkBounds (of_Z 0) (of_Z 10) (of_Z 0) (of_Z 10).

Definition moved_bounds : MarkerBounds := mkBounds (of_Z 20) (of_Z 30) (of_Z 20) (of_Z 30).

(** The markers inside [sample_bounds] and those inside [moved_bounds]. *)
Definition sample_markers : RouteMarkers :=
  mkRouteMarkers [mkHazardMarker "h1" (of_Z 1) (of_Z 1) (Some "Hazard") None None None None] [].

Definition moved_markers : RouteMarkers :=
  mkRouteMarkers [mkHazardMarker "h2" (of_Z 25) (of_Z 25) (Some "Hazard") None None None None] [].

(** Start and end are set, a place search for the start is started, the
    route is requested and answered, then the geocoder answers. *)
Definition geocode_race_trace : list Event :=
  [MapClick (of_Z 1) (of_Z 1); MapClick (of_Z 2) (of_Z 2);
   StartPlaceInput "Ithaca Commons"; PlaceSearch StartPoint;
   RouteClick; RoutesSettled WALK None (responses_of WALK two_merge);
   GeocodeSettled StartPoint (geocode_ok (of_Z 3) (of_Z 3) "Ithaca Commons")].

(** The bounds are known, a route is computed, then the map is moved
    while the marker fetches of that route are still in flight. *)
Definition stale_marker_trace : list Event :=
  [BoundsChange sample_bounds; MapClick (of_Z 1) (of_Z 1); MapClick (of_Z 2) (of_Z 2);
   RouteClick; RoutesSettled WALK (Some sample_bounds) (responses_of WALK two_merge);
   BoundsChange moved_bounds].

Definition merged_choice : RouteChoice :=
  mkRouteChoice "walkSafe-walkAccessible" [walkSafe; walkAccessible] result_short
                "#16a34a" "Safe · Accessible".





(* ================================================================== *)
(** * Values derived in the render of [App] *)

(** Truthiness of a string that may be null: null and "" are falsy. *)
Definition truthy (v : option string) : bool :=
  match v with
  | Some t => negb (String.eqb t "")
  | None => false
  end.

(** [choice.id === selectedRouteId] and [route.id === selectedRouteId]. *)
Definition is_selected (selected : option string) (id : string) : bool :=
  match selected with
  | Some sel => String.eqb id sel
  | None => false
  end.

(** [selectedRoute] (lines 106-109). *)
Definition selectedRoute (s : AppState) : option RouteChoice :=
  find (fun choice => is_selected (selectedRouteId (route s)) (choice_id choice))
       (routeChoices (route s)).

(** An element of the [routes] prop of [MapView]. *)
Record MapRoute := mkMapRoute {
  mr_id : string;
  mr_color : string;
  mr_coordinates : list (number * number)
}.

(** [RouteResult] records [routeGeojson?.geometry?.coordinates], and not
    which link of the chain is missing when there are no coordinates.
    Line 513 reads the chain without [?.], so there it matters:
    [geometry_present] tells, of a result without coordinates, whether
    [routeGeojson.geometry] is there and only its [coordinates] are
    missing. *)
Class RouteGeometry := { geometry_present : RouteResult -> bool }.

(** An element of [mapped] (line 513),
    [choice.result.routeGeojson.geometry.coordinates ?? []]: the
    coordinates; the empty list when only [coordinates] is missing; and a
    TypeError, here [None], when [routeGeojson] or its [geometry] is
    missing. *)
Definition to_map_route `{RouteGeometry} (choice : RouteChoice) : option MapRoute :=
  match coordinates (choice_result choice) with
  | Some coords => Some (mkMapRoute (choice_id choice) (choice_color choice) coords)
  | None =>
      if geometry_present (choice_result choice)
      then Some (mkMapRoute (choice_id choice) (choice_color choice) [])
      else None
  end.

(** [l.map(f)], which throws as soon as [f] does. *)
Fixpoint map_all {A B} (f : A -> option B) (l : list A) : option (list B) :=
  match l with
  | [] => Some []
  | x :: rest =>
      match f x, map_all f rest with
      | Some y, Some ys => Some (y :: ys)
      | _, _ => None
      end
  end.

(** [mapRoutes] (lines 509-523); [None] when the [useMemo] callback
    throws, in which case [App] does not render. *)
Definition mapRoutes `{RouteGeometry} (s : AppState) : option (list MapRoute) :=
  match map_all to_map_route (routeChoices (route s)) with
  | None => None
  | Some mapped =>
      if negb (truthy (selectedRouteId (route s)))
      then Some mapped
      else
        match find (fun r => is_selected (selectedRouteId (route s)) (mr_id r)) mapped with
        | Some selected =>
            Some (filter (fun r => negb (is_selected (selectedRouteId (route s)) (mr_id r)))
                         mapped
                  ++ [selected])
        | None => Some mapped
        end
  end.

(** The geometry of every route of the list can be read: it has its
    coordinates, or at least its [routeGeojson.geometry]. *)
Definition geometry_readable `{RouteGeometry} (choices : list RouteChoice) : Prop :=
  Forall (fun choice => coordinates (choice_result choice) <> None
                        \/ geometry_present (choice_result choice) = true) choices.

(** [activeRouteId] and [activeMarkers] (lines 524-525); the lookup
    [routeMarkers[activeRouteId]] is the one of [record_get] for every key
    that is not a property of [Object.prototype]. *)
Definition activeRouteId (s : AppState) : option string :=
  match selectedRouteId (route s) with
  | Some id => Some id
  | None =>
      match routeChoices (route s) with
      | c :: _ => Some (choice_id c)
      | [] => None
      end
  end.

Definition activeMarkers (s : AppState) : option RouteMarkers :=
  if truthy (activeRouteId s)
  then match activeRouteId s with
       | Some id => record_get id (routeMarkers (route s))
       | None => None
       end
  else None.

(** The [hazardMarkers] prop of [MapView] (line 921). *)
Definition hazardMarkers_prop (s : AppState) : list HazardMarker :=
  match activeMarkers s with
  | Some m => hazardMarkers m
  | None => []
  end.

(* ================================================================== *)
(** * [components/MapView.tsx] *)

(** Line 205, on numbers. *)
Definition isValidCoord (la lo : number) : bool :=
  isFinite la && isFinite lo && le (abs la) (of_Z 90) && le (abs lo) (of_Z 180).

(** [([lon, lat]) => [lat, lon]] *)
Definition to_latLng (p : number * number) : number * number := (snd p, fst p).

(** [safeHazardMarkers] (lines 237-240). *)
Definition safeHazardMarkers (markers : list HazardMarker) : list HazardMarker :=
  filter (fun marker => isValidCoord (marker_lat marker) (marker_lon marker)) markers.

(** A rendered [Polyline]: its key, its positions and whether it is drawn
    as the selected one (lines 278-307). *)
Record Polyline := mkPolyline {
  line_key : string;
  line_positions : list (number * number);
  line_selected : bool
}.

Definition polylines (routes : list MapRoute) (selectedRouteId : option string)
  : list Polyline :=
  flat_map (fun r =>
              match map to_latLng (mr_coordinates r) with
              | [] => []
              | latLngs => [mkPolyline (mr_id r) latLngs (is_selected selectedRouteId (mr_id r))]
              end)
           routes.

(** [SelectedRouteBounds] (lines 64-88): the route whose bounds are
    fitted, and the argument of [map.fitBounds] when it is called. *)
Definition bounds_route (routes : list MapRoute) (selectedRouteId : option string)
  : option MapRoute :=
  match routes with
  | [] => None
  | first :: _ =>
      match find (fun r => is_selected selectedRouteId (mr_id r)) routes with
      | Some r => Some r
      | None => Some first
      end
  end.

Definition fitBounds_argument (routes : list MapRoute) (selectedRouteId : option string)
  : option (list (number * number)) :=
  match bounds_route routes selectedRouteId with
  | Some selected =>
      let latLngs := map to_latLng (mr_coordinates selected) in
      if Nat.ltb 1 (List.length latLngs) then Some latLngs else None
  | None => None
  end.

(** [DeviceCenter] (lines 90-107): the [hasCentered] ref and the calls of
    [map.setView] made so far; one run of the effect per change of the
    [deviceLocation] and [deviceZoom] props. *)
Record DeviceCenter := mkDeviceCenter {
  hasCentered : bool;
  setView_calls : list (LatLon * number)
}.

Definition deviceCenter_effect (st : DeviceCenter) (props : option LatLon * number)
  : DeviceCenter :=
  match fst props with
  | None => st
  | Some deviceLocation =>
      if hasCentered st then st
      else mkDeviceCenter true (setView_calls st ++ [(deviceLocation, snd props)])
  end.

Definition deviceCenter_run (renders : list (option LatLon * number)) : DeviceCenter :=
  fold_left deviceCenter_effect renders (mkDeviceCenter false []).

(* ================================================================== *)
(** * [api/client.ts], [api/markers.ts], [api/hazards.ts]: reading a response *)

(** What a [catch] receives: an [Error] with its message, or another value. *)
Inductive Thrown := ThrownError (message : string) | ThrownOther.

(** [error instanceof Error ? error.message : fallback] *)
Definition thrown_message (fallback : string) (e : Thrown) : string :=
  match e with
  | ThrownError message => message
  | ThrownOther => fallback
  end.

(** [a || b] on strings. *)
Definition or_else (a b : string) : string := if String.eqb a "" then b else a.

(** The decoded body of a response that is not ok, as [readErrorMessage]
    looks at it: a truthy value whose [message] is a string, another
    truthy value (with its [JSON.stringify] text), or a falsy one. *)
Inductive JsonBody :=
| BodyWithMessage (message : string)
| BodyOther (stringified : string)
| BodyFalsy.

(** A response that is not ok.  Its body can be read once: [resp_json]
    is what [response.json().catch(() => null)] gives when it is the first
    read, with [None] for the rejection, and [resp_text] is what
    [response.text().catch(() => '')] gives when it is the first read. *)
Record ErrorResponse := mkErrorResponse {
  resp_status : Z;
  resp_statusText : string;
  resp_contentType : option string;
  resp_json : option JsonBody;
  resp_text : string
}.

(** [response.text().catch(() => '')]: once [json()] has read the body,
    [text()] rejects and the [catch] gives the empty string. *)
Definition text_or_empty (bodyUsed : bool) (r : ErrorResponse) : string :=
  if bodyUsed then "" else resp_text r.

(** The outcome of [fetch] and of reading an ok response as [T]:
    [fetch] rejects, or the response is ok and [response.json()] throws or
    gives the payload, or the response is not ok. *)
Inductive FetchOutcome (T : Type) :=
| FetchRejected (e : Thrown)
| FetchOk (payload : Thrown + T)
| FetchNotOk (r : ErrorResponse).

Arguments FetchRejected {T} e.
Arguments FetchOk {T} payload.
Arguments FetchNotOk {T} r.

(** [contentType.includes(part)] *)
Definition str_includes (text part : string) : bool :=
  match String.index 0 part text with
  | Some _ => true
  | None => false
  end.

(** [readErrorMessage], the same in the three files.  With a JSON
    content type [json()] is called first, so the [text()] that follows a
    body without a usable value finds the body read. *)
Definition readErrorMessage (r : ErrorResponse) : string :=
  let contentType := match resp_contentType r with Some c => c | None => "" end in
  let rest := fun bodyUsed =>
    or_else (or_else (text_or_empty bodyUsed r) (resp_statusText r)) "Request failed." in
  if str_includes contentType "application/json"
  then match resp_json r with
       | Some (BodyWithMessage message) => message
       | Some (BodyOther stringified) => stringified
       | Some BodyFalsy | None => rest true
       end
  else rest false.

(** [fetchRouteVariant] (client.ts, lines 49-76), given what the fetch
    of the variant's URL comes to. *)
Definition fetchRouteVariant (outcome : FetchOutcome RouteResult) : RouteResponse :=
  match outcome with
  | FetchOk (inr data) => ok data
  | FetchNotOk r =>
      let message := readErrorMessage r in
      if Z.eqb (resp_status r) 422
      then no_route (or_else message "No route found.")
      else error (or_else message "Routing failed. Please try again.")
                 (Some (of_Z (resp_status r)))
  | FetchOk (inl e) | FetchRejected e => error (thrown_message "Network error." e) None
  end.

(** [ApiHazardMarker] and [ApiRouteMarkers] (markers.ts, lines 14-30);
    [None] is a missing or null field. *)
Record ApiHazardMarker := mkApiHazardMarker {
  api_id : string;
  api_latitude : option number;
  api_longitude : option number;
  api_lat : option number;
  api_lon : option number;
  api_label : option string;
  api_confidence : option number;
  api_iconType : option string;
  api_severity : option number;
  api_type : option string
}.

Record ApiRouteMarkers := mkApiRouteMarkers {
  api_hazardMarkers : option (list ApiHazardMarker)
}.

(** [a ?? b] *)
Definition nullish {A} (a : option A) (b : A) : A :=
  match a with
  | Some v => v
  | None => b
  end.

Definition normalize_marker (marker : ApiHazardMarker) : HazardMarker :=
  mkHazardMarker (api_id marker)
                 (nullish (api_lat marker) (nullish (api_latitude marker) NaN))
                 (nullish (api_lon marker) (nullish (api_longitude marker) NaN))
                 (api_label marker) (api_confidence marker) (api_iconType marker)
                 (api_severity marker) (api_type marker).

(** [fetchRouteMarkers] (markers.ts, lines 56-99); the fetch is not
    reached without bounds. *)
Definition fetchRouteMarkers (bounds : option MarkerBounds)
  (outcome : FetchOutcome ApiRouteMarkers) : MarkerResponse :=
  match bounds with
  | None => markers_error "Missing bounds for marker request." None
  | Some _ =>
      match outcome with
      | FetchOk (inr data) =>
          markers_ok
            (mkRouteMarkers
               (filter (fun marker => isFinite (marker_lat marker)
                                      && isFinite (marker_lon marker))
                       (map normalize_marker (nullish (api_hazardMarkers data) [])))
               [])
      | FetchNotOk r =>
          markers_error (or_else (readErrorMessage r) "Failed to fetch markers.")
                        (Some (of_Z (resp_status r)))
      | FetchOk (inl e) | FetchRejected e =>
          markers_error (thrown_message "Network error." e) None
      end
  end.

(* ================================================================== *)
(** * The hazard report form ([App.tsx], lines 9-11, 91-97, 391-468, 504-508) *)

Definition MAX_IMAGE_BYTES : Z := 10 * 1024 * 1024.

Definition ALLOWED_IMAGE_TYPES : list string := ["image/jpeg"; "image/png"; "image/webp"].

Inductive HazardReportType := cracks | blocked_sidewalk.

Definition DEFAULT_HAZARD_TYPE : HazardReportType := cracks.

Inductive HazardReportMode := quick | photo.

(** A [File]: its name, its MIME type and its size in bytes. *)
Record ImageFile := mkImageFile { file_name : string; file_type : string; file_size : Z }.

Record HazardResponse := mkHazardResponse {
  hazard_id : string;
  hazard_status : string;
  hazard_lat : number;
  hazard_lon : number;
  hazard_type : string;
  hazard_createdAt : string
}.

(** The cells of the form that [AppState] does not hold. *)
Record HazardForm := mkHazardForm {
  hazardUploading : bool;
  hazardSuccess : option HazardResponse;
  hazardError : option string;
  hazardType : HazardReportType;
  hazardSeverity : string;
  hazardReportMode : HazardReportMode;
  hazardFile : option ImageFile
}.

Definition initial_form : HazardForm :=
  mkHazardForm false None None DEFAULT_HAZARD_TYPE "72" quick None.

Definition setHazardUploading v (f : HazardForm) : HazardForm :=
  mkHazardForm v (hazardSuccess f) (hazardError f) (hazardType f) (hazardSeverity f)
               (hazardReportMode f) (hazardFile f).
Definition setHazardSuccess v (f : HazardForm) : HazardForm :=
  mkHazardForm (hazardUploading f) v (hazardError f) (hazardType f) (hazardSeverity f)
               (hazardReportMode f) (hazardFile f).
Definition setHazardError v (f : HazardForm) : HazardForm :=
  mkHazardForm (hazardUploading f) (hazardSuccess f) v (hazardType f) (hazardSeverity f)
               (hazardReportMode f) (hazardFile f).
Definition setHazardFile v (f : HazardForm) : HazardForm :=
  mkHazardForm (hazardUploading f) (hazardSuccess f) (hazardError f) (hazardType f)
               (hazardSeverity f) (hazardReportMode f) v.

(** [Math.round], which the quick report applies to the severity. *)
Class JsMath := { Math_round : number -> number }.

(** The payloads of [submitHazardReport] and [submitHazardReportWithImage]. *)
Inductive SubmitRequest :=
| SubmitReport (type : HazardReportType) (latitude longitude severity : number)
| SubmitImage (file : ImageFile) (latitude longitude : number).

Definition resetHazardMessages (f : HazardForm) : HazardForm :=
  f |> setHazardError None |> setHazardSuccess None.

(** [handleHazardFileChange] (lines 396-400). *)
Definition handleHazardFileChange (file : option ImageFile) (f : HazardForm) : HazardForm :=
  f |> setHazardFile file |> resetHazardMessages.

(** [handleHazardSubmit] up to its [await] (lines 402-455); the [finally]
    block runs on every return inside the [try]. *)
Definition handleHazardSubmit `{JsRuntime} `{JsMath} (s : AppState) (f0 : HazardForm)
  : HazardForm * option SubmitRequest :=
  let f := resetHazardMessages f0 in
  match geoStatus (geo s), deviceLocation (geo s) with
  | ready, Some device =>
      let selectedLocation :=
        match hazardLocation (hazard s) with
        | Some l => Some l
        | None =>
            match deviceLocation (geo s) with
            | Some d => Some (mkLatLon (dev_lat d) (dev_lon d))
            | None => None
            end
        end in
      match selectedLocation with
      | None =>
          (f |> setHazardError (Some "Please select a location for the hazard report."),
           None)
      | Some location =>
          let f := f |> setHazardUploading true in
          match hazardReportMode f0 with
          | photo =>
              match hazardFile f0 with
              | None =>
                  (f |> setHazardError (Some "Please select an image to upload.")
                     |> setHazardUploading false |> setHazardUploading false, None)
              | Some file =>
                  if negb (existsb (String.eqb (file_type file)) ALLOWED_IMAGE_TYPES)
                  then (f |> setHazardError (Some "Image type must be JPEG, PNG, or WEBP.")
                          |> setHazardUploading false |> setHazardUploading false, None)
                  else if (MAX_IMAGE_BYTES <? file_size file)%Z
                  then (f |> setHazardError (Some "Image must be 10MB or smaller.")
                          |> setHazardUploading false |> setHazardUploading false, None)
                  else (f, Some (SubmitImage file (lat location) (lon location)))
              end
          | quick =>
              match parseNumber (hazardSeverity f0) with
              | None =>
                  (f |> setHazardError (Some "Severity must be between 0 and 100.")
                     |> setHazardUploading false |> setHazardUploading false, None)
              | Some severityValue =>
                  if lt severityValue (of_Z 0) || lt (of_Z 100) severityValue
                  then (f |> setHazardError (Some "Severity must be between 0 and 100.")
                          |> setHazardUploading false |> setHazardUploading false, None)
                  else (f, Some (SubmitReport (hazardType f0) (lat location) (lon location)
                                              (Math_round severityValue)))
              end
          end
      end
  | _, _ =>
      (f |> setHazardError
              (Some "Location is unavailable. Please refresh location and try again."),
       None)
  end.

(** [submitHazardReport] and [submitHazardReportWithImage] (hazards.ts,
    lines 39-75) after the fetch: the response, or what they throw. *)
Definition submitHazard_result (outcome : FetchOutcome HazardResponse)
  : Thrown + HazardResponse :=
  match outcome with
  | FetchRejected e => inl e
  | FetchNotOk r => inl (ThrownError (or_else (readErrorMessage r) "Hazard upload failed."))
  | FetchOk payload => payload
  end.

(** [handleHazardSubmit] after the [await] (lines 438-467). *)
Definition handleHazardSubmit_settled (request : SubmitRequest)
  (result : Thrown + HazardResponse) (sf : AppState * HazardForm) : AppState * HazardForm :=
  let '(s, f) := sf in
  match result with
  | inr response =>
      let f := f |> setHazardSuccess (Some response) in
      let f := match request with
               | SubmitImage _ _ _ => f |> setHazardFile None
               | SubmitReport _ _ _ _ => f
               end in
      (s |> setHazardPickMode false |> setHazardLocation None
         |> setHazardLat "" |> setHazardLon "",
       f |> setHazardUploading false)
  | inl err =>
      (s, f |> setHazardError (Some (thrown_message "Upload failed." err))
            |> setHazardUploading false)
  end.

(** Lines 504-508, with the [hazardUploading] cell. *)
Definition hazardInputsDisabled_form (s : AppState) (f : HazardForm) : bool :=
  hazardInputsDisabled s || hazardUploading f.

Definition hazardSubmitDisabled (s : AppState) (f : HazardForm) : bool :=
  hazardInputsDisabled_form s f
  || (match hazardLocation (hazard s) with None => true | Some _ => false end
      && (match deviceLocation (geo s) with None => true | Some _ => false end
          || match geoStatus (geo s) with ready => false | _ => true end))
  || (match hazardReportMode f with photo => true | quick => false end
      && match hazardFile f with None => true | Some _ => false end).

(** The events of a run in which every selected id is the id of a route
    shown when it is selected (the route buttons and the polylines are built
    from the current routes). *)
Fixpoint selects_shown `{JsRuntime} (s : AppState) (evs : list Event) : Prop :=
  match evs with
  | [] => True
  | ev :: rest =>
      match ev with
      | SelectRoute routeId => In routeId (map choice_id (routeChoices (route s)))
      | _ => True
      end /\ selects_shown (fst (step s ev)) rest
  end.

(** The selection is absent or the id of a route of the list. *)
Definition selection_valid (s : AppState) : Prop :=
  match selectedRouteId (route s) with
  | Some routeId => In routeId (map choice_id (routeChoices (route s)))
  | None => True
  end.

(** The state after a route request answered by two different
    geometries, the state after a first device fix, and a form in photo
    mode with a small JPEG. *)
Definition routed_state : AppState :=
  fst (@run plain_runtime initial_state
            [BoundsChange sample_bounds; MapClick (of_Z 1) (of_Z 1);
             MapClick (of_Z 2) (of_Z 2); RouteClick;
             RoutesSettled WALK (Some sample_bounds) (responses_of WALK two_differ)]).

Definition safe_choice : RouteChoice :=
  mkRouteChoice "walkSafe" [walkSafe] result_short "#16a34a" "Safe".

Definition located_state : AppState :=
  fst (@run plain_runtime initial_state
            [RefreshLocation true; GeoSuccess (of_Z 7) (of_Z 7) (of_Z 1)]).

Definition sample_file : ImageFile := mkImageFile "pothole.jpg" "image/jpeg" 2048.

Definition photo_form : HazardForm :=
  mkHazardForm false None None cracks "72" photo (Some sample_file).

(** The quick form with a severity above 100. *)
Definition excess_form : HazardForm :=
  mkHazardForm false None None cracks "150" quick None.

(** [Math.round] of ECMA-262. *)
Definition plain_math : JsMath := {| Math_round := Ecma.Math_round |}.

(** Payloads in which a result without coordinates has no
    [routeGeojson] at all, and payloads in which it has its geometry
    without coordinates. *)
Definition bare_payload : RouteGeometry := {| geometry_present := fun _ => false |}.

Definition empty_geometry_payload : RouteGeometry := {| geometry_present := fun _ => true |}.

(** A state that shows [safe_choice] and a route whose result has no
    coordinates. *)
Definition result_without_coordinates : RouteResult :=
  mkRouteResult (of_Z 100) (of_Z 60) [of_Z 1; of_Z 2] [of_Z 7] None.

Definition broken_state : AppState :=
  initial_state
    |> setRouteChoices [safe_choice;
                        mkRouteChoice "walkAccessible" [walkAccessible]
                                      result_without_coordinates "#1e3a8a" "Accessible"]
    |> setSelectedRouteId (Some "walkSafe").

(** The finite coordinates of a marker of the server, and the invariant
    of the geolocation cells. *)
Definition resolved_finite (marker : ApiHazardMarker) : bool :=
  isFinite (nullish (api_lat marker) (nullish (api_latitude marker) NaN))
  && isFinite (nullish (api_lon marker) (nullish (api_longitude marker) NaN)).

Definition location_ready (s : AppState) : Prop :=
  geoStatus (geo s) = ready -> deviceLocation (geo s) <> None.

(* ================================================================== *)
(** * Lemmas on classification *)

Lemma kind_eqb_eq a b : kind_eqb a b = true <-> a = b.
Proof. unfold kind_eqb. destruct (kind_eq_dec a b); split; congruence. Qed.

Lemma kind_eqb_refl a : kind_eqb a a = true.
Proof. now apply kind_eqb_eq. Qed.

Lemma includes_In kinds k : includes kinds k = true <-> In k kinds.
Proof.
  unfold includes. rewrite existsb_exists. split.
  - intros [x [Hin Hx]]. apply kind_eqb_eq in Hx. now subst.
  - intros Hin. exists k. split; [assumption | apply kind_eqb_refl].
Qed.

Lemma classify_fold l : forall oks errs,
  fold_left classify_step l (oks, errs) =
  (oks ++ flat_map (fun kr => match snd kr with ok d => [(fst kr, d)] | _ => [] end) l,
   errs ++ flat_map (fun kr => match failure_message (fst kr) (snd kr) with
                               | Some m => [m] | None => [] end) l).
Proof.
  induction l as [| [k r] l IH]; intros oks errs; simpl.
  - now rewrite !app_nil_r.
  - destruct r; simpl; rewrite IH; simpl; now rewrite <- ?app_assoc.
Qed.

Lemma combine_map_self {A B} (f : A -> B) (l : list A) :
  combine l (map f l) = map (fun a => (a, f a)) l.
Proof. induction l; simpl; congruence. Qed.

Lemma classify_responses_of mode fetch :
  classify mode (responses_of mode fetch) = (ok_routes mode fetch, failure_messages mode fetch).
Proof.
  unfold classify, responses_of, ok_routes, failure_messages.
  rewrite classify_fold, combine_map_self. simpl.
  now rewrite !flat_map_concat_map, !map_map.
Qed.

Lemma ok_routes_In mode fetch k d :
  In (k, d) (ok_routes mode fetch) <-> In k (variants mode) /\ fetch k = ok d.
Proof.
  unfold ok_routes. rewrite in_flat_map. split.
  - intros [x [Hx Hin]]. destruct (fetch x) eqn:E; simpl in Hin; try contradiction.
    destruct Hin as [Hin | []]. inversion Hin; subst. now split.
  - intros [Hin E]. exists k. split; [assumption |]. rewrite E. now left.
Qed.

Lemma ok_routes_nil mode fetch :
  ok_routes mode fetch = [] <-> forall k, In k (variants mode) -> is_ok (fetch k) = false.
Proof.
  split.
  - intros Hnil k Hin. destruct (fetch k) eqn:E; try reflexivity.
    assert (Hc : In (k, data) (ok_routes mode fetch)) by now apply ok_routes_In.
    rewrite Hnil in Hc. contradiction.
  - intros Hall. destruct (ok_routes mode fetch) as [| [k d] l] eqn:E; [reflexivity |].
    assert (Hc : In (k, d) (ok_routes mode fetch)) by (rewrite E; now left).
    apply ok_routes_In in Hc. destruct Hc as [Hin Hk].
    specialize (Hall k Hin). rewrite Hk in Hall. discriminate.
Qed.

Lemma variants_NoDup mode : NoDup (variants mode).
Proof.
  destruct mode; simpl; repeat constructor; simpl; intuition discriminate.
Qed.

Lemma kindOrder_variants mode k : In k (kindOrder mode) <-> In k (variants mode).
Proof. destruct mode; simpl; intuition. Qed.

Lemma ok_routes_NoDup mode fetch : NoDup (map fst (ok_routes mode fetch)).
Proof.
  unfold ok_routes. generalize (variants_NoDup mode).
  induction (variants mode) as [| k l IH]; intros Hnd; simpl; [constructor |].
  inversion Hnd as [| ? ? Hnotin Hnd']; subst.
  rewrite map_app. destruct (fetch k) eqn:E; simpl; try now apply IH.
  constructor; [| now apply IH].
  intros Hin. apply in_map_iff in Hin. destruct Hin as [[k' d'] [Hk Hin]].
  simpl in Hk; subst k'. apply in_flat_map in Hin.
  destruct Hin as [x [Hx Hin]]. destruct (fetch x); simpl in Hin; try contradiction.
  destruct Hin as [Hin | []]. inversion Hin; subst. contradiction.
Qed.

(* ================================================================== *)
(** * Lemmas on the consolidation map *)

Lemma map_get_upsert_same key kind r m :
  map_get key (map_upsert key kind r m) =
  Some (match map_get key m with
        | Some e => mkEntry (entry_kinds e ++ [kind]) (entry_result e)
        | None => mkEntry [kind] r
        end).
Proof.
  induction m as [| [k e] m IH]; simpl.
  - destruct (key_eq_dec key key); congruence.
  - destruct (key_eq_dec key k) as [-> | Hne]; simpl.
    + destruct (key_eq_dec k k); congruence.
    + destruct (key_eq_dec key k); [contradiction | exact IH].
Qed.

Lemma map_get_upsert_other key key' kind r m :
  key' <> key -> map_get key' (map_upsert key kind r m) = map_get key' m.
Proof.
  intros Hne. induction m as [| [k e] m IH]; simpl.
  - destruct (key_eq_dec key' key); congruence.
  - destruct (key_eq_dec key k) as [-> | Hk]; simpl.
    + destruct (key_eq_dec key' k); congruence.
    + destruct (key_eq_dec key' k); [reflexivity | exact IH].
Qed.

Lemma map_upsert_keys key kind r m :
  map fst (map_upsert key kind r m) =
  if in_dec key_eq_dec key (map fst m) then map fst m else map fst m ++ [key].
Proof.
  induction m as [| [k e] m IH]; simpl; [reflexivity |].
  destruct (key_eq_dec key k) as [-> | Hk]; simpl.
  - destruct (key_eq_dec k k); [reflexivity | congruence].
  - destruct (key_eq_dec k key); [congruence |].
    rewrite IH. now destruct (in_dec key_eq_dec key (map fst m)).
Qed.

Lemma map_upsert_NoDup key kind r m :
  NoDup (map fst m) -> NoDup (map fst (map_upsert key kind r m)).
Proof.
  intros Hnd. rewrite map_upsert_keys.
  destruct (in_dec key_eq_dec key (map fst m)) as [Hin | Hnin]; [assumption |].
  apply NoDup_app; auto.
  - repeat constructor. intros [].
  - intros x Hx [<- | []]. contradiction.
Qed.

Lemma map_get_In key e m :
  NoDup (map fst m) -> (In (key, e) m <-> map_get key m = Some e).
Proof.
  induction m as [| [k e'] m IH]; simpl; intros Hnd.
  - split; [intros [] | discriminate].
  - inversion Hnd as [| ? ? Hnotin Hnd']; subst.
    destruct (key_eq_dec key k) as [-> | Hk].
    + split.
      * intros [Heq | Hin]; [congruence |].
        exfalso. apply Hnotin. now apply (in_map fst) in Hin.
      * intros Heq. left. congruence.
    + rewrite <- (IH Hnd'). split.
      * intros [Heq | Hin]; [congruence | assumption].
      * intros Hin. now right.
Qed.

Lemma consolidate_snoc l o :
  consolidate (l ++ [o]) = consolidate_step (consolidate l) o.
Proof. unfold consolidate. now rewrite fold_left_app. Qed.

Lemma consolidate_NoDup l : NoDup (map fst (consolidate l)).
Proof.
  induction l as [| o l IH] using rev_ind.
  - constructor.
  - rewrite consolidate_snoc. now apply map_upsert_NoDup.
Qed.

Lemma group_of_snoc key l o :
  group_of key (l ++ [o]) = group_of key l ++ (if has_key key o then [o] else []).
Proof. unfold group_of. rewrite filter_app. simpl. now destruct (has_key key o). Qed.

(** The map built from the ok routes holds, under each key, the kinds of
    all routes with that key and the result of the first of them. *)
Lemma map_get_consolidate key l :
  map_get key (consolidate l) = entry_of_group (group_of key l).
Proof.
  induction l as [| [k r] l IH] using rev_ind; [reflexivity |].
  rewrite consolidate_snoc, group_of_snoc. unfold consolidate_step, has_key. simpl.
  destruct (key_eq_dec (route_key r) key) as [<- | Hne].
  - rewrite map_get_upsert_same, IH.
    destruct (group_of (route_key r) l) as [| [k0 r0] g]; simpl; [reflexivity |].
    now rewrite map_app.
  - rewrite map_get_upsert_other by congruence. now rewrite app_nil_r.
Qed.

Lemma group_of_head key l k r g :
  group_of key l = (k, r) :: g -> route_key r = key /\ In (k, r) l.
Proof.
  intros Hg. assert (Hin : In (k, r) (group_of key l)) by (rewrite Hg; now left).
  unfold group_of in Hin. apply filter_In in Hin. destruct Hin as [Hin Hk].
  unfold has_key in Hk. simpl in Hk.
  destruct (key_eq_dec (route_key r) key); [now split | discriminate].
Qed.

Lemma consolidate_entry key e l :
  In (key, e) (consolidate l) ->
  exists k r g, group_of key l = (k, r) :: g /\
                e = mkEntry (map fst ((k, r) :: g)) r /\ route_key r = key.
Proof.
  intros Hin. apply map_get_In in Hin; [| apply consolidate_NoDup].
  rewrite map_get_consolidate in Hin.
  destruct (group_of key l) as [| [k r] g] eqn:Hg; simpl in Hin; [discriminate |].
  exists k, r, g. split; [reflexivity |]. split.
  - simpl in *. now inversion Hin.
  - now apply (group_of_head _ _ _ _ _ Hg).
Qed.

Lemma consolidate_covers l k r :
  In (k, r) l -> exists e, In (route_key r, e) (consolidate l) /\ In k (entry_kinds e).
Proof.
  intros Hin.
  assert (Hg : In (k, r) (group_of (route_key r) l)).
  { unfold group_of. apply filter_In. split; [assumption |].
    unfold has_key. simpl. destruct (key_eq_dec (route_key r) (route_key r)); congruence. }
  destruct (group_of (route_key r) l) as [| [k0 r0] g] eqn:Eg; [contradiction |].
  exists (mkEntry (map fst ((k0, r0) :: g)) r0). split.
  - apply map_get_In; [apply consolidate_NoDup |].
    rewrite map_get_consolidate, Eg. reflexivity.
  - simpl. change (In k (map fst ((k0, r0) :: g))). now apply (in_map fst) in Hg.
Qed.

(* ================================================================== *)
(** * Lemmas on sorting *)

Lemma sort_insert_perm {A} (cmp : A -> A -> Z) x l :
  Permutation (sort_insert cmp x l) (x :: l).
Proof.
  induction l as [| y l IH]; simpl; [reflexivity |].
  destruct (cmp x y <=? 0)%Z; [reflexivity |].
  rewrite IH. apply perm_swap.
Qed.

Lemma array_sort_perm {A} (cmp : A -> A -> Z) l : Permutation (array_sort cmp l) l.
Proof.
  induction l as [| x l IH]; simpl; [reflexivity |].
  rewrite sort_insert_perm. now constructor.
Qed.

Lemma array_sort_In {A} (cmp : A -> A -> Z) l x : In x (array_sort cmp l) <-> In x l.
Proof.
  split; apply Permutation_in; [| symmetry]; apply array_sort_perm.
Qed.

Section SortByKey.
Context {A : Type} (f : A -> Z).

Let by_key (a b : A) : Z := (f a - f b)%Z.

Lemma sort_insert_sorted x l :
  StronglySorted (fun a b => (f a <= f b)%Z) l ->
  StronglySorted (fun a b => (f a <= f b)%Z) (sort_insert by_key x l).
Proof.
  induction 1 as [| y l Hs IH Hall]; simpl.
  - repeat constructor.
  - unfold by_key at 1. destruct (Z.leb_spec (f x - f y) 0).
    + constructor; [now constructor |].
      constructor; [lia |].
      rewrite Forall_forall in *. intros z Hz. specialize (Hall z Hz). lia.
    + constructor; [assumption |].
      rewrite Forall_forall in *. intros z Hz.
      apply (Permutation_in _ (sort_insert_perm by_key x l)) in Hz.
      destruct Hz as [<- | Hz]; [lia | now apply Hall].
Qed.

Lemma array_sort_sorted l :
  StronglySorted (fun a b => (f a <= f b)%Z) (array_sort by_key l).
Proof.
  induction l as [| x l IH]; simpl; [constructor | now apply sort_insert_sorted].
Qed.

End SortByKey.

(* ================================================================== *)
(** * Lemmas on the key: [===] against the JSON text *)





(* ================================================================== *)
(** * Lemmas on the choices *)

Lemma route_outcome_spec mode fetch :
  route_outcome mode (responses_of mode fetch) =
  match ok_routes mode fetch with
  | [] => RouteFailed (match failure_messages mode fetch with
                       | m :: _ => m
                       | [] => "No route found."
                       end)
  | _ :: _ =>
      RouteChoices (build_choices mode (ok_routes mode fetch))
                   (default_selection mode (build_choices mode (ok_routes mode fetch)))
  end.
Proof. unfold route_outcome. now rewrite classify_responses_of. Qed.

Lemma build_choices_In mode l c :
  In c (build_choices mode l) <->
  exists key e, In (key, e) (consolidate l) /\ c = make_choice mode e.
Proof.
  unfold build_choices. rewrite array_sort_In, in_map_iff. split.
  - intros [[key e] [Hc Hin]]. exists key, e. now split.
  - intros [key [e [Hin Hc]]]. exists (key, e). now split.
Qed.

Lemma contributes_spec fetch key k :
  contributes fetch key k = true <-> exists d, fetch k = ok d /\ route_key d = key.
Proof.
  unfold contributes. destruct (fetch k) as [d | |].
  - destruct (key_eq_dec (route_key d) key) as [He | Hne]; split.
    + intros _. now exists d.
    + reflexivity.
    + discriminate.
    + intros [d' [Hd Hk]]. inversion Hd; subst. contradiction.
  - split; [discriminate | intros [d [Hd _]]; discriminate].
  - split; [discriminate | intros [d [Hd _]]; discriminate].
Qed.

Lemma includes_group mode fetch key k :
  In k (variants mode) ->
  includes (map fst (group_of key (ok_routes mode fetch))) k = contributes fetch key k.
Proof.
  intros Hk. apply eq_true_iff_eq.
  rewrite includes_In, contributes_spec, in_map_iff. split.
  - intros [[k' d] [Hfst Hin]]. simpl in Hfst; subst k'.
    unfold group_of in Hin. apply filter_In in Hin. destruct Hin as [Hin Hkey].
    apply ok_routes_In in Hin. exists d. split; [tauto |].
    unfold has_key in Hkey. simpl in Hkey.
    now destruct (key_eq_dec (route_key d) key).
  - intros [d [Hd Hkey]]. exists (k, d). split; [reflexivity |].
    unfold group_of. apply filter_In. split.
    + now apply ok_routes_In.
    + unfold has_key. simpl. now destruct (key_eq_dec (route_key d) key).
Qed.

(** The kinds of a choice: the contributing kinds, in canonical order. *)
Lemma choice_kinds_contributes mode fetch key e :
  In (key, e) (consolidate (ok_routes mode fetch)) ->
  choice_kinds (make_choice mode e) = filter (contributes fetch key) (kindOrder mode) /\
  route_key (choice_result (make_choice mode e)) = key.
Proof.
  intros Hin. apply consolidate_entry in Hin.
  destruct Hin as [k [r [g [Hg [He Hkey]]]]]. subst e. unfold make_choice.
  cbn [choice_kinds choice_result entry_kinds entry_result]. split; [| assumption].
  rewrite <- Hg. apply filter_ext_in. intros x Hx.
  apply includes_group. now apply kindOrder_variants.
Qed.

Lemma choices_spec mode fetch c :
  In c (build_choices mode (ok_routes mode fetch)) ->
  choice_kinds c = filter (contributes fetch (route_key (choice_result c))) (kindOrder mode).
Proof.
  intros Hin. apply build_choices_In in Hin. destruct Hin as [key [e [Hin ->]]].
  destruct (choice_kinds_contributes _ _ _ _ Hin) as [Hk Hr]. now rewrite Hr.
Qed.

Lemma choice_kind_ok mode fetch c k :
  In c (build_choices mode (ok_routes mode fetch)) -> In k (choice_kinds c) ->
  In k (variants mode) /\
  exists d, fetch k = ok d /\ route_key d = route_key (choice_result c).
Proof.
  intros Hc Hk. rewrite (choices_spec _ _ _ Hc) in Hk. apply filter_In in Hk.
  destruct Hk as [Hin Hcon]. split; [now apply kindOrder_variants |].
  now apply contributes_spec.
Qed.

(** Two choices of one result set with the same key are the same choice. *)
Lemma choices_same_key mode fetch c1 c2 :
  In c1 (build_choices mode (ok_routes mode fetch)) ->
  In c2 (build_choices mode (ok_routes mode fetch)) ->
  route_key (choice_result c1) = route_key (choice_result c2) -> c1 = c2.
Proof.
  intros H1 H2 Hkey. apply build_choices_In in H1, H2.
  destruct H1 as [key1 [e1 [Hin1 ->]]], H2 as [key2 [e2 [Hin2 ->]]].
  destruct (choice_kinds_contributes _ _ _ _ Hin1) as [_ Hr1].
  destruct (choice_kinds_contributes _ _ _ _ Hin2) as [_ Hr2].
  rewrite Hr1, Hr2 in Hkey. subst key2.
  apply map_get_In in Hin1, Hin2; try apply consolidate_NoDup. congruence.
Qed.

(** Every successful variant is in some choice, the one of its key. *)
Lemma ok_variant_has_choice mode fetch k d :
  In k (variants mode) -> fetch k = ok d ->
  exists c, In c (build_choices mode (ok_routes mode fetch)) /\
            In k (choice_kinds c) /\ route_key (choice_result c) = route_key d.
Proof.
  intros Hk Hd.
  assert (Hin : In (k, d) (ok_routes mode fetch)) by now apply ok_routes_In.
  destruct (consolidate_covers _ _ _ Hin) as [e [He _]].
  exists (make_choice mode e).
  destruct (choice_kinds_contributes _ _ _ _ He) as [Hkinds Hr].
  split; [apply build_choices_In; now exists (route_key d), e |]. split; [| assumption].
  rewrite Hkinds. apply filter_In. split; [now apply kindOrder_variants |].
  apply contributes_spec. now exists d.
Qed.

Lemma build_choices_nil mode : build_choices mode [] = [].
Proof. reflexivity. Qed.

Lemma build_choices_nonempty mode fetch k :
  In k (variants mode) -> is_ok (fetch k) = true ->
  build_choices mode (ok_routes mode fetch) <> [].
Proof.
  intros Hk Hok. destruct (fetch k) as [d | |] eqn:E; try discriminate.
  destruct (ok_variant_has_choice mode fetch k d Hk E) as [c [Hc _]].
  intros Hnil. rewrite Hnil in Hc. contradiction.
Qed.

Lemma choice_kinds_nonempty mode fetch c :
  In c (build_choices mode (ok_routes mode fetch)) -> choice_kinds c <> [].
Proof.
  intros Hc. pose proof Hc as Hc'. apply build_choices_In in Hc'.
  destruct Hc' as [key [e [Hin Hce]]].
  destruct (choice_kinds_contributes _ _ _ _ Hin) as [_ Hkey]. rewrite <- Hce in Hkey.
  apply consolidate_entry in Hin. destruct Hin as [k [r [g [Hg [_ Hr]]]]].
  apply group_of_head in Hg. destruct Hg as [_ Hokr]. apply ok_routes_In in Hokr.
  destruct Hokr as [Hk Hd].
  destruct (ok_variant_has_choice mode fetch k r Hk Hd) as [c' [Hc' [Hin' Hkey']]].
  assert (c' = c) by (apply (choices_same_key mode fetch); congruence). subst c'.
  intros Hnil. rewrite Hnil in Hin'. contradiction.
Qed.

(* ================================================================== *)
(** * Error surfacing *)

(** C1, as stated, fails: in the drive request where fastest answers
    noRoute("M1") and safe answers noRoute("M2") the surfaced message is
    "No Fastest route: M1", not "M1", which is what the specification's
    rule gives; and when fastest answers error("timeout") and safe answers
    noRoute("M2") the surfaced message is the one of the error, the first
    failure in request order, not the noRoute message. *)
Lemma surfaced_message_not_spec_message :
  route_outcome DRIVE (responses_of DRIVE both_no_route) = RouteFailed "No Fastest route: M1" /\
  spec_all_fail_message DRIVE both_no_route = Some "M1" /\
  route_outcome DRIVE (responses_of DRIVE both_no_route) <> RouteFailed "M1" /\
  route_outcome DRIVE (responses_of DRIVE error_then_no_route)
    = RouteFailed "Fastest route error: timeout" /\
  spec_all_fail_message DRIVE error_then_no_route = Some "M2".
Proof. repeat split; try reflexivity. discriminate. Qed.

(** C1, amended: when every variant fails, the surfaced message is the
    message built for the first variant in request order, whatever the
    kind of its failure: "No <label> route: <message>" (or "No route
    found." when the message is empty) for a noRoute, "<label> route
    error: <message>" for an error. *)
Theorem all_fail_surfaces_first_request_failure mode fetch :
  (forall k, In k (variants mode) -> is_ok (fetch k) = false) ->
  exists first message,
    hd_error (variants mode) = Some first /\
    failure_message first (fetch first) = Some message /\
    route_outcome mode (responses_of mode fetch) = RouteFailed message.
Proof.
  intros Hall. rewrite route_outcome_spec.
  assert (Hnil : ok_routes mode fetch = []) by now apply ok_routes_nil.
  rewrite Hnil. unfold failure_messages.
  destruct (variants mode) as [| first rest] eqn:Ev; [destruct mode; discriminate |].
  specialize (Hall first (or_introl eq_refl)).
  exists first. simpl.
  destruct (fetch first) as [d | m | m st]; simpl in *; [discriminate | |];
    eexists; repeat split.
Qed.

Lemma all_fail_surfaces_first_request_failure_witness :
  exists first message,
    hd_error (variants DRIVE) = Some first /\
    failure_message first (both_no_route first) = Some message /\
    route_outcome DRIVE (responses_of DRIVE both_no_route) = RouteFailed message.
Proof.
  apply (all_fail_surfaces_first_request_failure DRIVE both_no_route).
  intros k Hk. simpl in Hk. destruct Hk as [<- | [<- | []]]; reflexivity.
Defined.




(* ================================================================== *)
(** * Lemmas on ranks and on the default selection *)

Lemma findIndex_from_ext_in {A} (p q : A -> bool) l i :
  (forall x, In x l -> p x = q x) -> findIndex_from p l i = findIndex_from q l i.
Proof.
  revert i. induction l as [| a l IH]; intros i Hext; simpl; [reflexivity |].
  rewrite (Hext a (or_introl eq_refl)). destruct (q a); [reflexivity |].
  apply IH. intros x Hx. apply Hext. now right.
Qed.

Lemma findIndex_from_ge k l i :
  In k l -> (i <= findIndex_from (kind_eqb k) l i)%Z.
Proof.
  revert i. induction l as [| a l IH]; intros i Hin; simpl; [contradiction |].
  destruct (kind_eqb k a) eqn:E; [lia |].
  destruct Hin as [-> | Hin]; [rewrite kind_eqb_refl in E; discriminate |].
  specialize (IH (i + 1)%Z Hin). lia.
Qed.

Lemma filter_head_index (p : RouteVariantKind -> bool) l best rest i :
  filter p l = best :: rest ->
  findIndex_from p l i = findIndex_from (kind_eqb best) l i.
Proof.
  revert i. induction l as [| a l IH]; intros i Hf; simpl in *; [discriminate |].
  destruct (p a) eqn:Ea.
  - inversion Hf; subst. now rewrite kind_eqb_refl.
  - destruct (kind_eqb best a) eqn:E; [| now apply IH].
    apply kind_eqb_eq in E. subst a.
    assert (Hin : In best (filter p l)) by (rewrite Hf; now left).
    apply filter_In in Hin. destruct Hin as [_ Hp]. congruence.
Qed.

Lemma filter_head_least (p : RouteVariantKind -> bool) l best rest i k :
  filter p l = best :: rest -> In k (best :: rest) ->
  (findIndex_from (kind_eqb best) l i <= findIndex_from (kind_eqb k) l i)%Z.
Proof.
  revert i. induction l as [| a l IH]; intros i Hf Hk; simpl in *; [discriminate |].
  destruct (p a) eqn:Ea.
  - inversion Hf; subst. rewrite kind_eqb_refl.
    destruct (kind_eqb k best) eqn:E; [lia |].
    destruct Hk as [-> | Hk]; [rewrite kind_eqb_refl in E; discriminate |].
    apply filter_In in Hk. destruct Hk as [Hk _].
    pose proof (findIndex_from_ge k l (i + 1)%Z Hk). lia.
  - assert (Hne : forall x, In x (best :: rest) -> kind_eqb x a = false).
    { intros x Hx. rewrite <- Hf in Hx. apply filter_In in Hx. destruct Hx as [_ Hp].
      destruct (kind_eqb x a) eqn:E; [| reflexivity].
      apply kind_eqb_eq in E. congruence. }
    rewrite (Hne best (or_introl eq_refl)), (Hne k Hk). now apply IH.
Qed.

Lemma includes_filter (p : RouteVariantKind -> bool) l x :
  In x l -> includes (filter p l) x = p x.
Proof.
  intros Hx. apply eq_true_iff_eq. rewrite includes_In, filter_In. tauto.
Qed.

Lemma choice_of_kind_unique mode fetch c1 c2 k :
  In c1 (build_choices mode (ok_routes mode fetch)) ->
  In c2 (build_choices mode (ok_routes mode fetch)) ->
  In k (choice_kinds c1) -> In k (choice_kinds c2) -> c1 = c2.
Proof.
  intros H1 H2 K1 K2.
  destruct (choice_kind_ok _ _ _ _ H1 K1) as [_ [d1 [Hd1 Hk1]]].
  destruct (choice_kind_ok _ _ _ _ H2 K2) as [_ [d2 [Hd2 Hk2]]].
  apply (choices_same_key mode fetch); congruence.
Qed.

Lemma find_none_all {A} (f : A -> bool) l :
  (forall x, In x l -> f x = false) -> find f l = None.
Proof.
  induction l as [| a l IH]; intros H; simpl; [reflexivity |].
  rewrite (H a (or_introl eq_refl)). apply IH. intros x Hx. apply H. now right.
Qed.

Lemma find_some_exists {A} (f : A -> bool) l x :
  In x l -> f x = true -> exists y, find f l = Some y.
Proof.
  intros Hx Hf. destruct (find f l) as [y |] eqn:E; [now exists y |].
  rewrite (find_none _ _ E x Hx) in Hf. discriminate.
Qed.

Lemma default_selection_preferred mode fetch c :
  In c (build_choices mode (ok_routes mode fetch)) ->
  In (preferredKind mode) (choice_kinds c) ->
  default_selection mode (build_choices mode (ok_routes mode fetch)) = Some (choice_id c).
Proof.
  intros Hc Hp. unfold default_selection.
  destruct (find_some_exists (fun c => includes (choice_kinds c) (preferredKind mode))
              _ c Hc (proj2 (includes_In _ _) Hp)) as [c' Hfind].
  rewrite Hfind. apply find_some in Hfind. destruct Hfind as [Hc' Hp'].
  apply includes_In in Hp'.
  now rewrite (choice_of_kind_unique mode fetch c' c _ Hc' Hc Hp' Hp).
Qed.

Lemma default_selection_first mode choices :
  (forall c, In c choices -> ~ In (preferredKind mode) (choice_kinds c)) ->
  default_selection mode choices = option_map choice_id (hd_error choices).
Proof.
  intros Hno. unfold default_selection. rewrite find_none_all.
  - now destruct choices.
  - intros c Hc. specialize (Hno c Hc).
    destruct (includes (choice_kinds c) (preferredKind mode)) eqn:E; [| reflexivity].
    apply includes_In in E. contradiction.
Qed.

Lemma build_choices_sorted mode l :
  StronglySorted (fun a b => (best_rank mode a <= best_rank mode b)%Z) (build_choices mode l).
Proof. unfold build_choices. apply (array_sort_sorted (best_rank mode)). Qed.

(* ================================================================== *)
(** * Identifier, label, colour, order and default selection *)

(** C5: when at least one variant succeeds, each route has as kinds the
    contributing kinds in canonical order, as id their names joined by
    "-", as label their display labels joined by " · ", and as colour the
    colour of its best-ranked kind; the list is sorted by the rank of the
    best kind of each route; the default selection is the route holding
    the preferred kind of the travel mode, or the first route when no
    route holds it. *)
Theorem consolidated_routes_labelled_ranked_selected mode fetch :
  (exists k, In k (variants mode) /\ is_ok (fetch k) = true) ->
  exists choices selected,
    route_outcome mode (responses_of mode fetch) = RouteChoices choices selected /\
    choices <> [] /\
    (forall c, In c choices ->
       choice_kinds c
         = filter (contributes fetch (route_key (choice_result c))) (kindOrder mode) /\
       choice_id c = join "-" (map kind_name (choice_kinds c)) /\
       choice_label c = join " · " (map routeKindLabels (choice_kinds c)) /\
       exists best rest,
         choice_kinds c = best :: rest /\
         choice_color c = routeColors best /\
         best_rank mode c = rank mode best /\
         forall k, In k (choice_kinds c) -> (rank mode best <= rank mode k)%Z) /\
    StronglySorted (fun a b => (best_rank mode a <= best_rank mode b)%Z) choices /\
    (forall c, In c choices -> In (preferredKind mode) (choice_kinds c) ->
               selected = Some (choice_id c)) /\
    ((forall c, In c choices -> ~ In (preferredKind mode) (choice_kinds c)) ->
     selected = option_map choice_id (hd_error choices)).
Proof.
  intros [k0 [Hk0 Hok0]].
  exists (build_choices mode (ok_routes mode fetch)),
         (default_selection mode (build_choices mode (ok_routes mode fetch))).
  split; [| split; [| split; [| split; [| split]]]].
  - rewrite route_outcome_spec.
    destruct (ok_routes mode fetch) eqn:E; [| reflexivity].
    rewrite ok_routes_nil in E. rewrite (E k0 Hk0) in Hok0. discriminate.
  - now apply (build_choices_nonempty mode fetch k0).
  - intros c Hc. pose proof (choices_spec _ _ _ Hc) as Hkinds.
    pose proof (choice_kinds_nonempty _ _ _ Hc) as Hne.
    pose proof Hc as Hmk. apply build_choices_In in Hmk. destruct Hmk as [key [e [_ Hmk]]].
    split; [assumption |].
    split; [subst c; reflexivity |]. split; [subst c; reflexivity |].
    destruct (choice_kinds c) as [| best rest] eqn:Ek; [congruence |].
    exists best, rest. split; [reflexivity |]. split.
    + subst c. unfold make_choice in *. cbn [choice_kinds choice_color] in *.
      now rewrite Ek.
    + assert (Hbest : best_rank mode c = rank mode best).
      { unfold best_rank, rank, findIndex. rewrite Ek, Hkinds.
        rewrite (findIndex_from_ext_in _
                   (contributes fetch (route_key (choice_result c)))).
        - now apply (filter_head_index _ _ best rest).
        - intros x Hx. now apply includes_filter. }
      split; [assumption |]. intros k Hk. unfold rank, findIndex.
      now apply (filter_head_least _ _ best rest 0%Z k (eq_sym Hkinds)).
  - apply build_choices_sorted.
  - intros c Hc Hp. now apply default_selection_preferred.
  - apply default_selection_first.
Qed.

Lemma consolidated_routes_labelled_ranked_selected_witness :
  exists choices selected,
    route_outcome WALK (responses_of WALK two_merge) = RouteChoices choices selected /\
    choices <> [] /\
    (forall c, In c choices ->
       choice_kinds c
         = filter (contributes two_merge (route_key (choice_result c))) (kindOrder WALK) /\
       choice_id c = join "-" (map kind_name (choice_kinds c)) /\
       choice_label c = join " · " (map routeKindLabels (choice_kinds c)) /\
       exists best rest,
         choice_kinds c = best :: rest /\
         choice_color c = routeColors best /\
         best_rank WALK c = rank WALK best /\
         forall k, In k (choice_kinds c) -> (rank WALK best <= rank WALK k)%Z) /\
    StronglySorted (fun a b => (best_rank WALK a <= best_rank WALK b)%Z) choices /\
    (forall c, In c choices -> In (preferredKind WALK) (choice_kinds c) ->
               selected = Some (choice_id c)) /\
    ((forall c, In c choices -> ~ In (preferredKind WALK) (choice_kinds c)) ->
     selected = option_map choice_id (hd_error choices)).
Proof.
  apply (consolidated_routes_labelled_ranked_selected WALK two_merge).
  exists walkSafe. split; [simpl; tauto | reflexivity].
Defined.

(** Scenario A of the specification, evaluated. *)
Example scenario_A_outcome :
  route_outcome WALK (responses_of WALK two_merge) =
  RouteChoices
    [mkRouteChoice "walkSafe-walkAccessible" [walkSafe; walkAccessible] result_short
                   "#16a34a" "Safe · Accessible"]
    (Some "walkSafe-walkAccessible").
Proof. reflexivity. Qed.

(* ================================================================== *)
(** * Deduplication *)

Lemma route_outcome_choices mode fetch choices selected :
  route_outcome mode (responses_of mode fetch) = RouteChoices choices selected ->
  choices = build_choices mode (ok_routes mode fetch).
Proof.
  rewrite route_outcome_spec. destruct (ok_routes mode fetch); [discriminate |].
  now inversion 1.
Qed.

Lemma consolidate_keys_of_results mode l :
  map (fun c => route_key (choice_result c))
      (map (fun ke => make_choice mode (snd ke)) (consolidate l))
  = map fst (consolidate l).
Proof.
  rewrite map_map. apply map_ext_in. intros [key e] Hin.
  apply consolidate_entry in Hin. destruct Hin as [k [r [g [_ [-> Hkey]]]]].
  exact Hkey.
Qed.

Lemma build_choices_keys_NoDup mode l :
  NoDup (map (fun c => route_key (choice_result c)) (build_choices mode l)).
Proof.
  apply (Permutation_NoDup (l := map fst (consolidate l))); [| apply consolidate_NoDup].
  rewrite <- (consolidate_keys_of_results mode). apply Permutation_map.
  symmetry. apply array_sort_perm.
Qed.





(** Both cases on the samples: equal geometries give one route with both
    kinds, different geometries give two routes. *)
Example dedup_samples :
  map choice_kinds (build_choices WALK (ok_routes WALK two_merge))
    = [[walkSafe; walkAccessible]] /\
  map choice_kinds (build_choices WALK (ok_routes WALK two_differ))
    = [[walkSafe]; [walkAccessible]] /\
  same_coords (coords_of result_short) (coords_of result_long) = true /\
  same_coords (coords_of result_short) (coords_of result_other) = false /\
  finite_coords (coords_of result_short) /\ finite_coords (coords_of result_other).
Proof.
  repeat split; try reflexivity; repeat constructor.
Qed.

(** Outside the finite numbers the key is coarser than [===]: the
    infinities and NaN are all printed as "null". *)
Example non_finite_numbers_share_a_key :
  strict_eq Infinity NegInfinity = false /\
  JSON_stringify [(Infinity, of_Z 0)] = JSON_stringify [(NegInfinity, of_Z 0)].
Proof. split; reflexivity. Qed.

(* ================================================================== *)
(** * The result kept for a merged route *)

Lemma group_head_first_variant fetch key vs k r g :
  filter (has_key key)
         (flat_map (fun k => match fetch k with ok d => [(k, d)] | _ => [] end) vs)
    = (k, r) :: g ->
  find (contributes fetch key) vs = Some k /\ fetch k = ok r.
Proof.
  induction vs as [| a vs IH]; simpl; [discriminate |].
  rewrite filter_app. unfold contributes at 1.
  destruct (fetch a) as [d | m | m st] eqn:Ea; simpl; try exact IH.
  unfold has_key at 1. simpl.
  destruct (key_eq_dec (route_key d) key); simpl; [| exact IH].
  intros Heq. inversion Heq; subst. now split.
Qed.

(** C10: the result of a route is the result of the first variant, in
    request order, that succeeded with the route's geometry; the other
    kinds of the route are only known to have the same key. *)
Theorem merged_route_keeps_first_result mode fetch choices selected c :
  route_outcome mode (responses_of mode fetch) = RouteChoices choices selected ->
  In c choices ->
  exists first,
    find (contributes fetch (route_key (choice_result c))) (variants mode) = Some first /\
    fetch first = ok (choice_result c) /\
    In first (choice_kinds c) /\
    forall k, In k (choice_kinds c) ->
              exists d, fetch k = ok d /\ route_key d = route_key (choice_result c).
Proof.
  intros Hout Hc. apply route_outcome_choices in Hout. subst choices.
  pose proof Hc as Hmk. apply build_choices_In in Hmk. destruct Hmk as [key [e [Hin Hce]]].
  destruct (choice_kinds_contributes _ _ _ _ Hin) as [_ Hkey]. rewrite <- Hce in Hkey.
  apply consolidate_entry in Hin. destruct Hin as [k [r [g [Hg [He _]]]]].
  unfold group_of, ok_routes in Hg. apply group_head_first_variant in Hg.
  destruct Hg as [Hfind Hfetch].
  assert (Hres : choice_result c = r) by (subst c e; reflexivity).
  exists k. rewrite Hkey, Hres. split; [assumption |]. split; [assumption |]. split.
  - rewrite (choices_spec _ _ _ Hc). apply find_some in Hfind.
    destruct Hfind as [Hk Hcon]. apply filter_In. split.
    + now apply kindOrder_variants.
    + now rewrite Hkey.
  - intros k' Hk'. destruct (choice_kind_ok _ _ _ _ Hc Hk') as [_ [d [Hd Hdk]]].
    exists d. split; [assumption | congruence].
Qed.

Lemma merged_route_keeps_first_result_witness :
  exists first,
    find (contributes two_merge (route_key result_short)) (variants WALK) = Some first /\
    two_merge first = ok result_short /\
    In first [walkSafe; walkAccessible] /\
    forall k, In k [walkSafe; walkAccessible] ->
              exists d, two_merge k = ok d /\ route_key d = route_key result_short.
Proof.
  exact (merged_route_keeps_first_result WALK two_merge _ _
           (mkRouteChoice "walkSafe-walkAccessible" [walkSafe; walkAccessible] result_short
                          "#16a34a" "Safe · Accessible")
           eq_refl (or_introl eq_refl)).
Defined.

(** The later variant's length and duration are dropped unchecked: the
    two merged results differ in all fields but the geometry. *)
Example merged_route_drops_later_fields :
  map choice_result (build_choices WALK (ok_routes WALK two_merge)) = [result_short] /\
  two_merge walkAccessible = ok result_long /\
  distanceMeters result_long <> distanceMeters result_short /\
  pathNodeIds result_long <> pathNodeIds result_short.
Proof. repeat split; try reflexivity; discriminate. Qed.

(* ================================================================== *)
(** * Completion order *)

Section PromiseAll.
Context {A : Type}.

Lemma store_length i (v : A) slots : List.length (store i v slots) = List.length slots.
Proof.
  revert i. induction slots as [| x slots IH]; intros [| i]; simpl; auto.
Qed.

Lemma nth_error_store i (v : A) slots j :
  nth_error (store i v slots) j =
  if (Nat.eqb i j && Nat.ltb i (List.length slots))%bool
  then Some (Some v) else nth_error slots j.
Proof.
  revert i j. induction slots as [| x slots IH]; intros [| i] [| j]; simpl;
    try reflexivity.
  - now rewrite andb_false_r.
  - rewrite IH. reflexivity.
Qed.

Lemma fold_store_length (arr : list (nat * A)) slots :
  List.length (fold_left (fun slots iv => store (fst iv) (snd iv) slots) arr slots)
  = List.length slots.
Proof.
  revert slots. induction arr as [| [i v] arr IH]; intros slots; simpl; [reflexivity |].
  now rewrite IH, store_length.
Qed.

Lemma find_key_none (arr : list (nat * A)) j :
  ~ In j (map fst arr) -> find (fun iv => Nat.eqb (fst iv) j) arr = None.
Proof.
  intros Hnin. apply find_none_all. intros [i v] Hin. simpl.
  apply Nat.eqb_neq. intros ->. apply Hnin. now apply (in_map fst) in Hin.
Qed.

(** What the slot [j] holds once all the settlements are stored. *)
Lemma fold_store_nth (arr : list (nat * A)) : forall slots j,
  NoDup (map fst arr) -> j < List.length slots ->
  nth_error (fold_left (fun slots iv => store (fst iv) (snd iv) slots) arr slots) j =
  match find (fun iv => Nat.eqb (fst iv) j) arr with
  | Some iv => Some (Some (snd iv))
  | None => nth_error slots j
  end.
Proof.
  induction arr as [| [i v] arr IH]; intros slots j Hnd Hj; simpl; [reflexivity |].
  inversion Hnd as [| ? ? Hnotin Hnd']; subst.
  rewrite IH by (try rewrite store_length; assumption).
  destruct (Nat.eqb_spec i j) as [-> | Hne].
  - rewrite (find_key_none arr j Hnotin), nth_error_store, Nat.eqb_refl.
    destruct (Nat.ltb_spec j (List.length slots)); [reflexivity | lia].
  - destruct (find _ arr); [reflexivity |].
    rewrite nth_error_store. destruct (Nat.eqb_spec i j); [contradiction | reflexivity].
Qed.

Lemma find_key_unique (arr : list (nat * A)) j v :
  NoDup (map fst arr) -> In (j, v) arr ->
  find (fun iv => Nat.eqb (fst iv) j) arr = Some (j, v).
Proof.
  induction arr as [| [i w] arr IH]; intros Hnd Hin; simpl; [contradiction |].
  inversion Hnd as [| ? ? Hnotin Hnd']; subst.
  destruct Hin as [Heq | Hin].
  - inversion Heq; subst. now rewrite Nat.eqb_refl.
  - destruct (Nat.eqb_spec i j) as [-> | Hne]; [| now apply IH].
    exfalso. apply Hnotin. now apply (in_map fst) in Hin.
Qed.

Lemma all_filled_map_Some (vs : list A) : all_filled (map Some vs) = Some vs.
Proof. induction vs as [| v vs IH]; simpl; [reflexivity | now rewrite IH]. Qed.

Lemma combine_seq_fst (vs : list A) a : map fst (combine (seq a (List.length vs)) vs) = seq a (List.length vs).
Proof.
  revert a. induction vs as [| v vs IH]; intros a; simpl; [reflexivity |].
  now rewrite IH.
Qed.

Lemma combine_seq_In (vs : list A) a j v :
  nth_error vs j = Some v -> In (a + j, v) (combine (seq a (List.length vs)) vs).
Proof.
  revert a j. induction vs as [| w vs IH]; intros a [| j] Hj; simpl in *; try discriminate.
  - inversion Hj; subst. left. f_equal. lia.
  - right. replace (a + S j) with (S a + j) by lia. now apply IH.
Qed.

(** Whatever the order in which the promises settle, [Promise.all]
    delivers the values in the order of the promises. *)
Lemma Promise_all_any_order (vs : list A) (settlements : list (nat * A)) :
  Permutation settlements (combine (seq 0 (List.length vs)) vs) ->
  Promise_all (List.length vs) settlements = Some vs.
Proof.
  intros Hperm. unfold Promise_all.
  assert (Hnd : NoDup (map fst settlements)).
  { apply (Permutation_NoDup (l := seq 0 (List.length vs))); [| apply seq_NoDup].
    rewrite <- (combine_seq_fst vs 0). apply Permutation_map. now symmetry. }
  match goal with |- all_filled ?slots = _ => replace slots with (map Some vs) end;
    [apply all_filled_map_Some |].
  apply nth_error_ext. intros j. rewrite nth_error_map.
  destruct (Nat.ltb_spec j (List.length vs)) as [Hlt | Hge].
  - rewrite fold_store_nth; [| assumption | now rewrite repeat_length].
    destruct (nth_error vs j) as [v |] eqn:Ev;
      [| apply nth_error_None in Ev; lia].
    pose proof (combine_seq_In vs 0 j v Ev) as Hin. simpl in Hin.
    apply (Permutation_in _ (Permutation_sym Hperm)) in Hin.
    now rewrite (find_key_unique _ _ _ Hnd Hin).
  - rewrite (proj2 (nth_error_None vs j) Hge). simpl. symmetry.
    apply nth_error_None. now rewrite fold_store_length, repeat_length.
Qed.

End PromiseAll.

(** C3: for a fixed assignment of outcomes to kinds, whatever the order
    in which the requests complete, [handleRoute] derives the outcome of
    the request-ordered responses: the same routes with the same ids,
    labels and colours in the same order, and the same default selection. *)
Theorem outcome_independent_of_completion_order mode fetch settlements :
  Permutation settlements (in_request_order mode fetch) ->
  outcome_of_settlements mode settlements
  = Some (route_outcome mode (responses_of mode fetch)).
Proof.
  intros Hperm. unfold outcome_of_settlements, in_request_order in *.
  assert (Hlen : List.length (variants mode) = List.length (responses_of mode fetch))
    by (unfold responses_of; now rewrite length_map).
  rewrite Hlen in *. now rewrite (Promise_all_any_order _ _ Hperm).
Qed.

Lemma outcome_independent_of_completion_order_witness :
  outcome_of_settlements WALK
    [(2, no_route "blocked"); (1, ok result_long); (0, ok result_short)]
  = Some (route_outcome WALK (responses_of WALK two_merge)).
Proof.
  apply (outcome_independent_of_completion_order WALK two_merge
           [(2, no_route "blocked"); (1, ok result_long); (0, ok result_short)]).
  apply Permutation_sym.
  exact (Permutation_rev (in_request_order WALK two_merge)).
Defined.

(* ================================================================== *)
(** * Point selection and derived state *)

Section Interaction.
Context `{JsRuntime}.

Lemma clearRouteState_cleared s : route_cleared (clearRouteState s).
Proof. repeat split. Qed.

Lemma clearRouteState_points s : points (clearRouteState s) = points s.
Proof. reflexivity. Qed.

Lemma commit_route before after :
  route (fst (commit before after)) = route (fst after).
Proof. reflexivity. Qed.

Lemma commit_points before after :
  points (fst (commit before after)) = points (fst after).
Proof. reflexivity. Qed.

Lemma commit_hazard before after :
  hazard (fst (commit before after)) = hazard (fst after).
Proof. reflexivity. Qed.

(** After every event [startRef] mirrors [start]. *)
Lemma step_startRef s ev : startRef (geo (fst (step s ev))) = start (points (fst (step s ev))).
Proof. reflexivity. Qed.

(** A map click in normal mode leaves the route state cleared. *)
Lemma map_click_clears_route_state s la lo :
  hazardPickMode (hazard s) = false ->
  route_cleared (fst (step s (MapClick la lo))).
Proof.
  intros Hoff. unfold step, handle, mapEventHandler_click. rewrite Hoff.
  unfold route_cleared. rewrite commit_route. cbn [fst].
  unfold handleMapClick.
  destruct (start (points s)); [destruct (end_ (points s)) |]; repeat split.
Qed.

(** X23: a map click in normal mode moves through the cycle start, end,
    new start: it sets start when start is unset, else end when end is
    unset, else it becomes the new start and unsets end. *)
Lemma map_click_cycle s la lo :
  hazardPickMode (hazard s) = false ->
  let s' := fst (step s (MapClick la lo)) in
  match start (points s), end_ (points s) with
  | None, e => start (points s') = Some (mkLatLon la lo) /\ end_ (points s') = e
  | Some p, None => start (points s') = Some p /\ end_ (points s') = Some (mkLatLon la lo)
  | Some _, Some _ => start (points s') = Some (mkLatLon la lo) /\ end_ (points s') = None
  end.
Proof.
  intros Hoff. unfold step, handle, mapEventHandler_click. rewrite Hoff.
  cbn zeta. rewrite commit_points. cbn [fst]. unfold handleMapClick.
  destruct (start (points s)) eqn:Es; [destruct (end_ (points s)) eqn:Ee |];
    cbn; rewrite ?Es, ?Ee; split; reflexivity.
Qed.

(** A manual edit of a coordinate field leaves the route state cleared. *)
Lemma coordinate_edit_clears_route_state s ev value :
  ev = StartLatInput value \/ ev = StartLonInput value \/
  ev = EndLatInput value \/ ev = EndLonInput value ->
  route_cleared (fst (step s ev)).
Proof.
  intros [-> | [-> | [-> | ->]]]; repeat split.
Qed.

(** A place search that has a query clears the route state when it starts. *)
Lemma place_search_clears_at_start s kind :
  snd (handlePlaceSearch kind s) <> [] -> route_cleared (fst (step s (PlaceSearch kind))).
Proof.
  unfold step, handle, handlePlaceSearch.
  destruct (String.eqb _ ""); [intros Hreq; now elim Hreq |].
  intros _. repeat split.
Qed.

(** The assignment of a geocoded point itself does not touch the routes,
    the selection or the markers. *)
Lemma geocode_assignment_keeps_routes s kind result :
  let s' := fst (step s (GeocodeSettled kind result)) in
  routeChoices (route s') = routeChoices (route s) /\
  selectedRouteId (route s') = selectedRouteId (route s) /\
  routeMarkers (route s') = routeMarkers (route s).
Proof.
  unfold step, handle, handlePlaceSearch_settled. cbn zeta. rewrite commit_route. cbn [fst].
  destruct result as [la lo label | message].
  - destruct (negb (isValidLat la) || negb (isValidLon lo))%bool; [repeat split |].
    destruct kind; repeat split.
  - repeat split.
Qed.

(* ================================================================== *)
(** * Hazard-pick mode *)

(** C9: a map click while hazard-pick mode is on becomes the hazard
    location, turns the mode off and leaves the points and the route state
    as they are; the next click is then handled by [handleMapClick]. *)
Theorem hazard_pick_click_is_one_shot s la lo :
  hazardPickMode (hazard s) = true ->
  let s' := fst (step s (MapClick la lo)) in
  hazardLocation (hazard s') = Some (mkLatLon la lo) /\
  hazardLat (hazard s') = formatCoord la /\
  hazardLon (hazard s') = formatCoord lo /\
  hazardPickMode (hazard s') = false /\
  points s' = points s /\
  route s' = route s /\
  snd (step s (MapClick la lo)) = [] /\
  forall la2 lo2,
    step s' (MapClick la2 lo2) = commit s' (handleMapClick la2 lo2 s', []).
Proof.
  intros Hon. unfold step at 1 2, handle, mapEventHandler_click. rewrite Hon.
  cbn zeta. repeat split.
  - unfold commit. cbn [fst snd]. unfold onHazardPick.
    cbn. now rewrite Nat.eqb_refl.
Qed.

(* ================================================================== *)
(** * Marker refresh *)

Lemma build_choices_not_nil mode o l : build_choices mode (l ++ [o]) <> [].
Proof.
  unfold build_choices. intros Hnil.
  assert (Hp := array_sort_perm (compare_choices mode)
                  (map (fun ke => make_choice mode (snd ke)) (consolidate (l ++ [o])))).
  rewrite Hnil in Hp. apply Permutation_nil in Hp. apply map_eq_nil in Hp.
  rewrite consolidate_snoc in Hp. unfold consolidate_step in Hp.
  destruct (consolidate l) as [| [k e] m]; simpl in Hp; [discriminate |].
  destruct (key_eq_dec _ k); discriminate.
Qed.

Lemma route_outcome_choices_not_nil mode responses choices selected :
  route_outcome mode responses = RouteChoices choices selected -> choices <> [].
Proof.
  unfold route_outcome. destruct (classify mode responses) as [okRoutes errs].
  destruct okRoutes as [| o l]; [discriminate |]. intros Heq. inversion Heq; subst.
  destruct (exists_last (l := o :: l)) as [l' [o' Hl]]; [discriminate |].
  rewrite Hl. apply build_choices_not_nil.
Qed.

(** The marker effect asks for markers only with known bounds and a
    non-empty list of routes, which are the current ones. *)
Lemma effect_fetch_needs_bounds_and_routes s ev epoch choices b :
  In (ReqEffectMarkers epoch choices b) (markerEffect (fst (step s ev))) ->
  mapBounds (fst (step s ev)) = Some b /\
  choices = routeChoices (route (fst (step s ev))) /\ choices <> [] /\
  epoch = markerDeps (fst (step s ev)).
Proof.
  unfold markerEffect. destruct (mapBounds (fst (step s ev))) as [b' |]; [| intros []].
  destruct (routeChoices (route (fst (step s ev)))) as [| c cs] eqn:E; [intros [] |].
  intros [Heq | []]. inversion Heq; subst. repeat split; congruence.
Qed.

(** [handleRoute] asks for markers only with known bounds and a
    non-empty list of routes. *)
Lemma route_fetch_needs_bounds_and_routes mode bounds responses s choices b :
  In (ReqRouteMarkers choices b) (snd (handleRoute_settled mode bounds responses s)) ->
  bounds = Some b /\ choices <> [].
Proof.
  unfold handleRoute_settled.
  destruct (route_outcome mode responses) as [m | cs sel] eqn:E; cbn; [intros [] |].
  destruct bounds as [b' |]; [| intros []].
  intros [Heq | []]. inversion Heq; subst. split; [reflexivity |].
  now apply (route_outcome_choices_not_nil _ _ _ _ E).
Qed.

(** A marker fetch of the effect that completes after its dependencies
    have changed is discarded. *)
Lemma stale_effect_fetch_discarded s epoch choices response :
  epoch <> markerDeps s ->
  markerEffect_settled epoch choices response s = s.
Proof.
  intros Hne. unfold markerEffect_settled.
  destruct response; [| reflexivity].
  apply Nat.eqb_neq in Hne. now rewrite Hne.
Qed.

(** A marker fetch of the effect that completes in time gives its list to
    every current route. *)
Lemma fresh_effect_fetch_broadcast s choices data :
  routeMarkers (route (markerEffect_settled (markerDeps s) choices (markers_ok data) s))
  = broadcast choices data.
Proof. unfold markerEffect_settled. now rewrite Nat.eqb_refl. Qed.

Lemma record_get_set key v o : record_get key (record_set key v o) = Some v.
Proof.
  induction o as [| [k w] o IH]; simpl.
  - now rewrite String.eqb_refl.
  - destruct (String.eqb k key) eqn:E; simpl; rewrite E; [reflexivity | exact IH].
Qed.

Lemma record_get_set_other key key' v o :
  key' <> key -> record_get key' (record_set key v o) = record_get key' o.
Proof.
  intros Hne. induction o as [| [k w] o IH]; simpl.
  - destruct (String.eqb_spec key key'); congruence.
  - destruct (String.eqb_spec k key) as [-> | Hk]; simpl.
    + destruct (String.eqb_spec key key'); congruence.
    + destruct (String.eqb_spec k key'); [reflexivity | exact IH].
Qed.

Lemma broadcast_keeps key data choices : forall o,
  record_get key o = Some data ->
  record_get key (fold_left (fun o c => record_set (choice_id c) data o) choices o)
  = Some data.
Proof.
  induction choices as [| c choices IH]; intros o Hget; simpl; [assumption |].
  apply IH. destruct (string_dec key (choice_id c)) as [-> | Hne].
  - apply record_get_set.
  - now rewrite record_get_set_other.
Qed.

(** Every route of the list gets the one marker list. *)
Lemma broadcast_get choices data c :
  In c choices -> record_get (choice_id c) (broadcast choices data) = Some data.
Proof.
  unfold broadcast. generalize (@nil (string * RouteMarkers)) as o.
  induction choices as [| c' choices IH]; intros o Hin; [contradiction |].
  simpl. destruct Hin as [-> | Hin]; [| now apply IH].
  apply broadcast_keeps, record_get_set.
Qed.

(* ================================================================== *)
(** * The device-location default *)

Lemma latch_never_reset s ev :
  hasDefaultedStart (geo s) = true -> hasDefaultedStart (geo (fst (step s ev))) = true.
Proof.
  intros Hon. unfold step, commit. cbn [fst geo setStartRef upd_geo hasDefaultedStart].
  destruct ev; cbn -[route_outcome isSameLocation String.eqb]; try assumption.
  - unfold mapEventHandler_click, handleMapClick.
    destruct (hazardPickMode (hazard s)); [assumption |].
    destruct (start (points s)); [destruct (end_ (points s)) |]; assumption.
  - unfold handlePlaceSearch. destruct (String.eqb _ ""); assumption.
  - unfold handlePlaceSearch_settled. destruct result; [| assumption].
    destruct (negb _ || negb _)%bool; [assumption |]. destruct kind; assumption.
  - destruct (routeDisabled s); [assumption |]. unfold handleRoute.
    destruct (start (points s)); [| assumption].
    destruct (end_ (points s)); [| assumption].
    destruct (_ || _)%bool; assumption.
  - unfold handleRoute_settled. destruct (route_outcome mode responses); assumption.
  - unfold handleRoute_markers. destruct response; assumption.
  - unfold markerEffect_settled. destruct response; [| assumption].
    destruct (negb _); assumption.
  - unfold selectTravelMode. destruct (travelMode s); assumption.
  - unfold selectTravelMode. destruct (travelMode s); assumption.
  - destruct (hazardInputsDisabled s); assumption.
  - destruct (hazardLocation (hazard s)); [| assumption].
    destruct (hazardInputsDisabled s); assumption.
  - destruct (hazardInputsDisabled s); assumption.
  - destruct (hazardInputsDisabled s); assumption.
  - unfold requestDeviceLocation.
    destruct (geoStatus (geo s)); try assumption; destruct supported; assumption.
  - unfold geolocation_success.
    cbn [geo setGeoStatus setDeviceLocation upd_geo hasDefaultedStart startRef].
    rewrite Hon. assumption.
  - unfold reverseGeocode_settled. destruct result; [| assumption].
    destruct (startRef (geo s)); [| assumption].
    destruct (isSameLocation _ _); assumption.
Qed.

(** The latch is set by a successful fix that finds start unset, and by
    nothing else. *)
Lemma latch_set_only_by_fix s ev :
  hasDefaultedStart (geo s) = false ->
  hasDefaultedStart (geo (fst (step s ev))) = true ->
  exists la lo acc, ev = GeoSuccess la lo acc /\ startRef (geo s) = None.
Proof.
  intros Hoff. unfold step, commit. cbn [fst geo setStartRef upd_geo hasDefaultedStart].
  destruct ev; cbn -[route_outcome isSameLocation String.eqb];
    try (intros Hon; congruence);
    unfold mapEventHandler_click, handleMapClick, handlePlaceSearch,
      handlePlaceSearch_settled, handleRoute, handleRoute_settled, handleRoute_markers,
      markerEffect_settled, selectTravelMode, requestDeviceLocation,
      reverseGeocode_settled, geolocation_success;
    cbn [geo setGeoStatus setDeviceLocation upd_geo hasDefaultedStart startRef];
    repeat match goal with
           | |- context [match ?x with _ => _ end] => destruct x eqn:?
           end;
    intros Hon; cbn in Hon; try congruence.
  - destruct kind; cbn in Hon; congruence.
  - now exists glat, glon, gaccuracy.
Qed.

(** C8, amended: a successful fix becomes the default start exactly when
    the latch is not consumed and start is unset at that moment; the
    latch is consumed when, and only when, a fix is applied (no other
    event sets it), and is never reset; the label of the reverse geocoding
    is applied when start is then set and within 1e-6 of the fix in each
    component, and dropped otherwise. *)
Theorem device_default_latch s la lo acc :
  let r := step s (GeoSuccess la lo acc) in
  (hasDefaultedStart (geo s) = false -> startRef (geo s) = None ->
     start (points (fst r)) = Some (mkLatLon la lo) /\
     startPlace (points (fst r)) = "Current location" /\
     hasDefaultedStart (geo (fst r)) = true /\
     snd r = [ReqReverseGeocode (mkLatLon la lo)]) /\
  (hasDefaultedStart (geo s) = true \/ startRef (geo s) <> None ->
     points (fst r) = points s /\
     hasDefaultedStart (geo (fst r)) = hasDefaultedStart (geo s) /\
     snd r = []) /\
  (forall ev, hasDefaultedStart (geo s) = true ->
              hasDefaultedStart (geo (fst (step s ev))) = true) /\
  (forall ev, hasDefaultedStart (geo s) = false ->
              (hasDefaultedStart (geo (fst (step s ev))) = true <->
               exists fixLat fixLon fixAccuracy,
                 ev = GeoSuccess fixLat fixLon fixAccuracy /\ startRef (geo s) = None)) /\
  (forall d result,
     let s2 := fst (step s (ReverseGeocodeSettled d result)) in
     (forall label latest,
        result = reverse_ok label -> startRef (geo s) = Some latest ->
        lt (abs (sub (lat latest) (lat d))) lit_1e_6 = true ->
        lt (abs (sub (lon latest) (lon d))) lit_1e_6 = true ->
        points s2 = points (setStartPlace label s)) /\
     (result = reverse_failed \/ startRef (geo s) = None \/
      (exists latest, startRef (geo s) = Some latest /\
         (lt (abs (sub (lat latest) (lat d))) lit_1e_6 = false \/
          lt (abs (sub (lon latest) (lon d))) lit_1e_6 = false)) ->
      points s2 = points s)).
Proof.
  cbn zeta. split; [| split; [| split; [| split]]].
  - intros Hlatch Href. unfold step, handle, geolocation_success.
    cbn [geo setGeoStatus setDeviceLocation upd_geo hasDefaultedStart startRef].
    rewrite Hlatch, Href. unfold commit. cbn. now rewrite Nat.eqb_refl.
  - intros Hor. unfold step, handle, geolocation_success.
    cbn [geo setGeoStatus setDeviceLocation upd_geo hasDefaultedStart startRef].
    destruct (hasDefaultedStart (geo s)) eqn:Hl, (startRef (geo s)) eqn:Hr;
      try (destruct Hor as [Hor | Hor]; [discriminate | now elim Hor]);
      unfold commit; cbn; now rewrite Nat.eqb_refl.
  - intros ev. apply latch_never_reset.
  - intros ev Hoff. split; [now apply latch_set_only_by_fix |].
    intros [fixLat [fixLon [fixAccuracy [-> Href]]]].
    unfold step, handle, geolocation_success.
    cbn [geo setGeoStatus setDeviceLocation upd_geo hasDefaultedStart startRef].
    rewrite Hoff, Href. reflexivity.
  - intros d result. unfold step, handle, reverseGeocode_settled. rewrite commit_points.
    cbn [fst]. split.
    + intros label latest -> -> Hlat Hlon. unfold isSameLocation.
      now rewrite Hlat, Hlon.
    + intros [-> | [-> | [latest [-> Hfar]]]]; [reflexivity | now destruct result |].
      destruct result; [| reflexivity]. unfold isSameLocation.
      destruct Hfar as [-> | ->]; [reflexivity | now rewrite andb_false_r].
Qed.

End Interaction.

(* ================================================================== *)
(** * The built-ins on sample texts and numbers *)

Example trim_and_Number_samples :
  Ecma.String_trim "  Ithaca Commons  " = "Ithaca Commons" /\
  Ecma.String_trim "   " = "" /\
  Ecma.StringToNumber "72" = of_Z 72 /\
  Ecma.StringToNumber " -76.5 " = S754_finite true 5383208929591296 (-46) /\
  Ecma.StringToNumber "" = S754_zero false /\
  Ecma.StringToNumber "-0" = S754_zero true /\
  Ecma.StringToNumber "seventy" = NaN /\
  Ecma.StringToNumber "1e-6" = lit_1e_6 /\
  Ecma.StringToNumber "0x5A" = of_Z 90 /\
  Ecma.StringToNumber "1e999" = Infinity /\
  Ecma.StringToNumber "-Infinity" = NegInfinity.
Proof. vm_compute. repeat split. Qed.

Example toFixed_and_round_samples :
  Ecma.Number_toFixed (of_Z 4) 6 = "4.000000" /\
  Ecma.Number_toFixed (Ecma.StringToNumber "-76.5018999999") 6 = "-76.501900" /\
  Ecma.Number_toFixed (Ecma.StringToNumber "1.005") 2 = "1.00" /\
  Ecma.Number_toFixed (Ecma.StringToNumber "2.5") 0 = "3" /\
  Ecma.Number_toFixed (Ecma.StringToNumber "-1e-10") 6 = "-0.000000" /\
  Ecma.Number_toFixed (Ecma.StringToNumber "1e21") 6 = "1e+21" /\
  Ecma.Number_toFixed (of_Z (2 ^ 70)) 6 = "1.1805916207174113e+21" /\
  Ecma.Number_toFixed NaN 6 = "NaN" /\
  Ecma.Math_round (Ecma.StringToNumber "72.5") = of_Z 73 /\
  Ecma.Math_round (Ecma.StringToNumber "-1.5") = of_Z (-1) /\
  Ecma.Math_round (Ecma.StringToNumber "-0.2") = S754_zero true.
Proof. vm_compute. repeat split. Qed.

(** [parseNumber] on the text of a field: an empty field is the number 0,
    as [Number('')] is. *)
Example parseNumber_samples :
  @parseNumber plain_runtime "42.443" = Some (Ecma.StringToNumber "42.443") /\
  @parseNumber plain_runtime "" = Some (S754_zero false) /\
  @parseNumber plain_runtime "north" = None /\
  @parseNumber plain_runtime "Infinity" = None.
Proof. vm_compute. repeat split. Qed.

(* ================================================================== *)
(** * Concrete runs *)

Lemma hazard_pick_click_is_one_shot_witness :
  let s := fst (@run plain_runtime initial_state
                     [RefreshLocation true; GeoSuccess (of_Z 7) (of_Z 7) (of_Z 1);
                      HazardPickToggle]) in
  let s' := fst (@step plain_runtime s (MapClick (of_Z 4) (of_Z 4))) in
  hazardLocation (hazard s') = Some (point 4 4) /\
  hazardLat (hazard s') = @formatCoord plain_runtime (of_Z 4) /\
  hazardLon (hazard s') = @formatCoord plain_runtime (of_Z 4) /\
  hazardPickMode (hazard s') = false /\
  points s' = points s /\
  route s' = route s /\
  snd (@step plain_runtime s (MapClick (of_Z 4) (of_Z 4))) = [] /\
  forall la2 lo2,
    @step plain_runtime s' (MapClick la2 lo2)
    = commit s' (@handleMapClick plain_runtime la2 lo2 s', []).
Proof.
  exact (@hazard_pick_click_is_one_shot plain_runtime
           (fst (@run plain_runtime initial_state
                      [RefreshLocation true; GeoSuccess (of_Z 7) (of_Z 7) (of_Z 1);
                       HazardPickToggle]))
           (of_Z 4) (of_Z 4) eq_refl).
Defined.

(** Scenario D of the specification: three clicks in normal mode leave
    start at the third point and end unset, with the route state cleared
    after each click. *)
Example three_clicks_restart_the_cycle :
  let s1 := fst (@step plain_runtime initial_state (MapClick (of_Z 1) (of_Z 1))) in
  let s2 := fst (@step plain_runtime s1 (MapClick (of_Z 2) (of_Z 2))) in
  let s3 := fst (@step plain_runtime s2 (MapClick (of_Z 3) (of_Z 3))) in
  start (points s3) = Some (point 3 3) /\ end_ (points s3) = None /\
  route_cleared s1 /\ route_cleared s2 /\ route_cleared s3.
Proof. vm_compute. repeat split. Qed.

(** C6 fails on the geocode path: the route state is cleared when the
    place search starts, not when its result is assigned.  A route
    computed in between is still shown, and selected, after the start
    has moved to the geocoded point. *)
Theorem geocode_assignment_leaves_routes_of_old_start :
  let r := @run plain_runtime initial_state geocode_race_trace in
  snd r = [ReqGeocode StartPoint "Ithaca Commons";
           ReqRoutes WALK (mkRouteParams (of_Z 1) (of_Z 1) (of_Z 2) (of_Z 2)) None] /\
  start (points (fst r)) = Some (point 3 3) /\
  routeChoices (route (fst r)) = [merged_choice] /\
  selectedRouteId (route (fst r)) = Some "walkSafe-walkAccessible" /\
  ~ route_cleared (fst r).
Proof.
  vm_compute. repeat split. intros [Hchoices _]. discriminate Hchoices.
Qed.

(** C7 fails on the marker fetch of [handleRoute]: its result is stored
    without any staleness test.  The map is moved after the route was
    computed, so both fetches for the old bounds are stale.  The one of
    the effect is discarded; the one of [handleRoute] is stored, and
    replaces the markers of the new bounds fetched in the meantime. *)
Theorem stale_route_marker_fetch_is_stored :
  let r := @run plain_runtime initial_state stale_marker_trace in
  let s := fst r in
  let refreshed := fst (@step plain_runtime s
      (EffectMarkersSettled 6 [merged_choice] (markers_ok moved_markers))) in
  snd r = [ReqRoutes WALK (mkRouteParams (of_Z 1) (of_Z 1) (of_Z 2) (of_Z 2))
                     (Some sample_bounds);
           ReqRouteMarkers [merged_choice] sample_bounds;
           ReqEffectMarkers 5 [merged_choice] sample_bounds;
           ReqEffectMarkers 6 [merged_choice] moved_bounds] /\
  markerDeps s = 6 /\
  mapBounds s = Some moved_bounds /\
  route (fst (@step plain_runtime s
                    (EffectMarkersSettled 5 [merged_choice] (markers_ok sample_markers))))
    = route s /\
  routeMarkers (route refreshed) = [("walkSafe-walkAccessible", moved_markers)] /\
  routeMarkers (route (fst (@step plain_runtime refreshed
                    (RouteMarkersSettled [merged_choice] (markers_ok sample_markers)))))
    = [("walkSafe-walkAccessible", sample_markers)].
Proof. vm_compute. repeat split. Qed.

(** C8, as stated, fails: start is set by a click and cleared again
    before the first fix arrives, and the fix still becomes the default
    start; and a first fix that finds start set does not consume the
    latch, so that a later fix becomes the default start once start has
    been cleared. *)
Lemma device_default_after_start_was_set :
  let clicked := fst (@run plain_runtime initial_state
                           [RefreshLocation true; MapClick (of_Z 1) (of_Z 1)]) in
  let fixed := fst (@run plain_runtime clicked
                         [ClearClick; GeoSuccess (of_Z 7) (of_Z 7) (of_Z 1)]) in
  let kept := fst (@run plain_runtime clicked [GeoSuccess (of_Z 7) (of_Z 7) (of_Z 1)]) in
  let later := fst (@run plain_runtime kept
                         [ClearClick; RefreshLocation true;
                          GeoSuccess (of_Z 8) (of_Z 8) (of_Z 1)]) in
  start (points clicked) = Some (point 1 1) /\
  start (points fixed) = Some (point 7 7) /\
  startPlace (points fixed) = "Current location" /\
  start (points kept) = Some (point 1 1) /\
  hasDefaultedStart (geo kept) = false /\
  start (points later) = Some (point 8 8) /\
  hasDefaultedStart (geo later) = true.
Proof. vm_compute. repeat split. Qed.

(** The label of the reverse geocoding: applied while start is where
    the fix put it, dropped once start has moved. *)
Example reverse_geocode_label_staleness :
  let fixed := fst (@run plain_runtime initial_state
                         [RefreshLocation true; GeoSuccess (of_Z 7) (of_Z 7) (of_Z 1)]) in
  let moved := fst (@run plain_runtime fixed [ClearClick; MapClick (of_Z 1) (of_Z 1)]) in
  startPlace (points (fst (@step plain_runtime fixed
                 (ReverseGeocodeSettled (point 7 7) (reverse_ok "Ithaca Commons")))))
    = "Ithaca Commons" /\
  startPlace (points (fst (@step plain_runtime moved
                 (ReverseGeocodeSettled (point 7 7) (reverse_ok "Ithaca Commons")))))
    = "".
Proof. vm_compute. split; reflexivity. Qed.

(* ================================================================== *)
(** * Route identifiers *)

Lemma built_choice_id mode l c :
  In c (build_choices mode l) -> choice_id c = join "-" (map kind_name (choice_kinds c)).
Proof.
  intros Hc. apply build_choices_In in Hc. destruct Hc as [key [e [_ ->]]]. reflexivity.
Qed.

(** On the sub-lists of the canonical order the id determines the kinds,
    and only the empty list of kinds has the empty id. *)
Lemma id_of_kinds_injective mode (p q : RouteVariantKind -> bool) :
  join "-" (map kind_name (filter p (kindOrder mode)))
  = join "-" (map kind_name (filter q (kindOrder mode))) ->
  filter p (kindOrder mode) = filter q (kindOrder mode).
Proof.
  destruct mode; simpl;
    repeat match goal with
           | |- context [if ?b then _ else _] => destruct b
           end;
    simpl; intros Heq; try reflexivity; discriminate Heq.
Qed.

Lemma id_of_kinds_nonempty mode (p : RouteVariantKind -> bool) :
  filter p (kindOrder mode) <> [] ->
  join "-" (map kind_name (filter p (kindOrder mode))) <> "".
Proof.
  destruct mode; simpl;
    repeat match goal with
           | |- context [if ?b then _ else _] => destruct b
           end;
    simpl; intros Hne; try discriminate; now elim Hne.
Qed.

Lemma build_choices_NoDup mode l : NoDup (build_choices mode l).
Proof.
  apply (NoDup_map_inv (fun c => route_key (choice_result c))).
  apply build_choices_keys_NoDup.
Qed.

(** X2: the ids of the routes of one result set are pairwise different
    and none is the empty string. *)
Theorem route_ids_unique mode fetch :
  NoDup (map choice_id (build_choices mode (ok_routes mode fetch))) /\
  Forall (fun c => choice_id c <> "") (build_choices mode (ok_routes mode fetch)).
Proof.
  split.
  - apply NoDup_map_NoDup_ForallPairs; [| apply build_choices_NoDup].
    intros c1 c2 H1 H2 Hid.
    rewrite (built_choice_id _ _ _ H1), (built_choice_id _ _ _ H2) in Hid.
    pose proof (choices_spec _ _ _ H1) as K1. pose proof (choices_spec _ _ _ H2) as K2.
    rewrite K1, K2 in Hid. apply id_of_kinds_injective in Hid.
    rewrite <- K1, <- K2 in Hid.
    pose proof (choice_kinds_nonempty _ _ _ H1) as Hne.
    destruct (choice_kinds c1) as [| k rest] eqn:E1; [congruence |].
    apply (choice_of_kind_unique mode fetch c1 c2 k H1 H2).
    + rewrite E1. now left.
    + rewrite <- Hid. now left.
  - apply Forall_forall. intros c Hc.
    rewrite (built_choice_id _ _ _ Hc), (choices_spec _ _ _ Hc).
    apply id_of_kinds_nonempty. rewrite <- (choices_spec _ _ _ Hc).
    now apply (choice_kinds_nonempty mode fetch).
Qed.

(* ================================================================== *)
(** * The routes handed to the map *)

Section Keyed.
Context {A : Type} (key : A -> string).

Lemma find_unique_key l c :
  NoDup (map key l) -> In c l ->
  find (fun x => String.eqb (key x) (key c)) l = Some c.
Proof.
  induction l as [| a l IH]; intros Hnd Hin; simpl; [contradiction |].
  inversion Hnd as [| ? ? Hnotin Hnd']; subst.
  destruct Hin as [-> | Hin]; [now rewrite String.eqb_refl |].
  destruct (String.eqb_spec (key a) (key c)) as [Heq | Hne]; [| now apply IH].
  exfalso. apply Hnotin. rewrite Heq. now apply in_map.
Qed.

Lemma filter_out_self l c :
  NoDup (map key l) -> In c l ->
  Permutation (filter (fun x => negb (String.eqb (key x) (key c))) l ++ [c]) l.
Proof.
  induction l as [| a l IH]; intros Hnd Hin; simpl; [contradiction |].
  inversion Hnd as [| ? ? Hnotin Hnd']; subst.
  destruct Hin as [-> | Hin].
  - rewrite String.eqb_refl. simpl.
    replace (filter (fun x => negb (String.eqb (key x) (key c))) l) with l.
    + rewrite Permutation_app_comm. reflexivity.
    + symmetry. apply forallb_filter_id. apply forallb_forall. intros x Hx.
      destruct (String.eqb_spec (key x) (key c)) as [Heq | Hne]; [| reflexivity].
      exfalso. apply Hnotin. rewrite <- Heq. now apply in_map.
  - destruct (String.eqb_spec (key a) (key c)) as [Heq | Hne]; simpl.
    + exfalso. apply Hnotin. rewrite Heq. now apply in_map.
    + constructor. now apply IH.
Qed.

End Keyed.

Lemma find_map {A B} (f : B -> bool) (g : A -> B) l :
  find f (map g l) = option_map g (find (fun x => f (g x)) l).
Proof.
  induction l as [| a l IH]; simpl; [reflexivity |]. now destruct (f (g a)).
Qed.

Lemma filter_map_comm {A B} (f : B -> bool) (g : A -> B) l :
  filter f (map g l) = map g (filter (fun x => f (g x)) l).
Proof.
  induction l as [| a l IH]; simpl; [reflexivity |].
  destruct (f (g a)); simpl; now rewrite IH.
Qed.

Lemma find_app_split {A} (f : A -> bool) l1 l2 :
  find f (l1 ++ l2) = match find f l1 with Some x => Some x | None => find f l2 end.
Proof.
  induction l1 as [| a l1 IH]; simpl; [reflexivity |]. now destruct (f a).
Qed.

Section MapRoutes.
Context `{RouteGeometry}.

(** The element of [mapped] for a route whose geometry can be read. *)
Lemma to_map_route_coords c :
  coordinates (choice_result c) <> None \/ geometry_present (choice_result c) = true ->
  to_map_route c
  = Some (mkMapRoute (choice_id c) (choice_color c) (coords_of (choice_result c))).
Proof.
  unfold to_map_route, coords_of. destruct (coordinates (choice_result c)); [reflexivity |].
  intros [Hc | ->]; [congruence | reflexivity].
Qed.

Lemma map_all_defined choices :
  geometry_readable choices ->
  map_all to_map_route choices
  = Some (map (fun c => mkMapRoute (choice_id c) (choice_color c) (coords_of (choice_result c)))
              choices).
Proof.
  induction 1 as [| c choices Hc _ IH]; simpl; [reflexivity |].
  now rewrite (to_map_route_coords c Hc), IH.
Qed.

Lemma map_all_readable choices mapped :
  map_all to_map_route choices = Some mapped -> geometry_readable choices.
Proof.
  revert mapped. induction choices as [| c choices IH]; simpl; intros mapped Hm;
    [constructor |].
  unfold to_map_route in Hm at 1.
  destruct (map_all to_map_route choices) as [ys |] eqn:Em.
  - constructor; [| now apply (IH ys)].
    destruct (coordinates (choice_result c)); [left; discriminate |].
    destruct (geometry_present (choice_result c)); [now right | discriminate].
  - destruct (coordinates (choice_result c)); [discriminate |].
    destruct (geometry_present (choice_result c)); discriminate.
Qed.


(** With distinct ids and a selected route of the list, [mapRoutes] is
    the other routes in their order, then the selected one. *)
Lemma mapRoutes_shape s c :
  geometry_readable (routeChoices (route s)) ->
  NoDup (map choice_id (routeChoices (route s))) ->
  In c (routeChoices (route s)) -> choice_id c <> "" ->
  selectedRouteId (route s) = Some (choice_id c) ->
  mapRoutes s =
  Some (map (fun x => mkMapRoute (choice_id x) (choice_color x) (coords_of (choice_result x)))
            (filter (fun x => negb (String.eqb (choice_id x) (choice_id c)))
                    (routeChoices (route s)))
        ++ [mkMapRoute (choice_id c) (choice_color c) (coords_of (choice_result c))]).
Proof.
  intros Hall Hnd Hin Hne Hsel. unfold mapRoutes. rewrite (map_all_defined _ Hall), Hsel.
  simpl. apply String.eqb_neq in Hne. rewrite Hne. simpl.
  rewrite find_map. simpl. rewrite (find_unique_key choice_id _ _ Hnd Hin). simpl.
  now rewrite filter_map_comm.
Qed.

(** X3: when the geometry of every route can be read (line 513 throws
    otherwise), with distinct ids and the selected id being the id of a
    route of the list, [mapRoutes] holds every route exactly once, with
    its id, its colour and its coordinates, and the selected route last. *)
Theorem mapRoutes_selected_last s c :
  geometry_readable (routeChoices (route s)) ->
  NoDup (map choice_id (routeChoices (route s))) ->
  In c (routeChoices (route s)) -> choice_id c <> "" ->
  selectedRouteId (route s) = Some (choice_id c) ->
  let shown := fun x => mkMapRoute (choice_id x) (choice_color x)
                                   (coords_of (choice_result x)) in
  exists front,
    mapRoutes s = Some (front ++ [shown c]) /\
    Permutation (front ++ [shown c]) (map shown (routeChoices (route s))) /\
    Forall (fun r => mr_id r <> choice_id c) front.
Proof.
  intros Hall Hnd Hin Hne Hsel shown.
  rewrite (mapRoutes_shape s c Hall Hnd Hin Hne Hsel).
  eexists. split; [reflexivity |]. split.
  - rewrite <- (map_app shown _ [c]).
    apply Permutation_map. now apply (filter_out_self choice_id).
  - apply Forall_forall. intros r Hr.
    apply in_map_iff in Hr. destruct Hr as [x [<- Hx]]. apply filter_In in Hx.
    destruct Hx as [_ Hx]. simpl. apply String.eqb_neq.
    now destruct (String.eqb (choice_id x) (choice_id c)).
Qed.

Lemma polylines_app routes1 routes2 sel :
  polylines (routes1 ++ routes2) sel = polylines routes1 sel ++ polylines routes2 sel.
Proof. unfold polylines. apply flat_map_app. Qed.

(** X4: under the same conditions, if the selected route has at least
    one coordinate, [MapView] renders its polyline last, on top of the
    others, and it is the only one drawn as selected. *)
Theorem selected_polyline_on_top s c :
  geometry_readable (routeChoices (route s)) ->
  NoDup (map choice_id (routeChoices (route s))) ->
  In c (routeChoices (route s)) -> choice_id c <> "" ->
  selectedRouteId (route s) = Some (choice_id c) ->
  coords_of (choice_result c) <> [] ->
  exists routes below,
    mapRoutes s = Some routes /\
    polylines routes (selectedRouteId (route s))
    = below ++ [mkPolyline (choice_id c) (map to_latLng (coords_of (choice_result c))) true] /\
    Forall (fun line => line_selected line = false) below.
Proof.
  intros Hall Hnd Hin Hne Hsel Hcoords.
  rewrite (mapRoutes_shape s c Hall Hnd Hin Hne Hsel), Hsel.
  eexists. eexists. split; [reflexivity |].
  rewrite polylines_app. split.
  - f_equal. unfold polylines. simpl.
    destruct (coords_of (choice_result c)) as [| p ps]; [congruence |].
    simpl. now rewrite String.eqb_refl.
  - apply Forall_forall. intros line Hline. unfold polylines in Hline.
    apply in_flat_map in Hline. destruct Hline as [r [Hr Hline]].
    apply in_map_iff in Hr. destruct Hr as [x [<- Hx]]. apply filter_In in Hx.
    destruct Hx as [_ Hx]. simpl in Hline.
    destruct (map to_latLng (coords_of (choice_result x))); [contradiction |].
    destruct Hline as [<- | []]. simpl.
    now destruct (String.eqb (choice_id x) (choice_id c)).
Qed.

(** X5: for the routes [mapRoutes] hands to the map, the bounds fitted
    by [SelectedRouteBounds] are those of the selected route when its id
    is the id of a route of the list, and of the first route when nothing
    is selected; [fitBounds] is called only for a route of at least two
    points. *)
Theorem fitted_route_is_selected_route s routes :
  mapRoutes s = Some routes ->
  (forall c,
     NoDup (map choice_id (routeChoices (route s))) ->
     In c (routeChoices (route s)) -> choice_id c <> "" ->
     selectedRouteId (route s) = Some (choice_id c) ->
     bounds_route routes (selectedRouteId (route s))
     = Some (mkMapRoute (choice_id c) (choice_color c) (coords_of (choice_result c)))) /\
  (selectedRouteId (route s) = None ->
   bounds_route routes (selectedRouteId (route s))
   = option_map (fun first => mkMapRoute (choice_id first) (choice_color first)
                                         (coords_of (choice_result first)))
                (hd_error (routeChoices (route s)))) /\
  (forall latLngs,
     fitBounds_argument routes (selectedRouteId (route s)) = Some latLngs ->
     2 <= List.length latLngs /\
     exists r, bounds_route routes (selectedRouteId (route s)) = Some r /\
               latLngs = map to_latLng (mr_coordinates r)).
Proof.
  intros Hroutes.
  assert (Hall : geometry_readable (routeChoices (route s))).
  { unfold mapRoutes in Hroutes.
    destruct (map_all to_map_route (routeChoices (route s))) as [mapped |] eqn:Em;
      [| discriminate].
    now apply (map_all_readable _ mapped). }
  split; [| split].
  - intros c Hnd Hin Hne Hsel.
    rewrite (mapRoutes_shape s c Hall Hnd Hin Hne Hsel) in Hroutes.
    inversion Hroutes as [Hr]. clear Hroutes. rewrite Hsel. unfold bounds_route.
    set (front := map _ _).
    set (last := mkMapRoute (choice_id c) (choice_color c) (coords_of (choice_result c))).
    assert (Hfind : find (fun r => is_selected (Some (choice_id c)) (mr_id r))
                         (front ++ [last]) = Some last).
    { rewrite find_app_split. rewrite find_none_all.
      - simpl. now rewrite String.eqb_refl.
      - intros r Hin'. subst front. apply in_map_iff in Hin'. destruct Hin' as [x [<- Hx]].
        apply filter_In in Hx. destruct Hx as [_ Hx]. simpl.
        now destruct (String.eqb (choice_id x) (choice_id c)). }
    rewrite Hfind. destruct (front ++ [last]) eqn:E; [| reflexivity].
    destruct front; discriminate.
  - intros Hnone. unfold mapRoutes in Hroutes.
    rewrite (map_all_defined _ Hall), Hnone in Hroutes. simpl in Hroutes.
    inversion Hroutes as [Hr]. clear Hroutes. unfold bounds_route. rewrite Hnone.
    destruct (routeChoices (route s)) as [| c cs]; simpl; [reflexivity |].
    now rewrite find_none_all.
  - intros latLngs. unfold fitBounds_argument.
    destruct (bounds_route _ _) as [r |]; [| discriminate].
    destruct (Nat.ltb_spec 1 (List.length (map to_latLng (mr_coordinates r))));
      [| discriminate].
    intros Heq. inversion Heq; subst. split; [lia |]. now exists r.
Qed.

End MapRoutes.

(* ================================================================== *)
(** * Reading responses *)

Lemma or_else_nonempty a b : b <> "" -> or_else a b <> "".
Proof.
  intros Hb. unfold or_else. destruct (String.eqb_spec a ""); assumption.
Qed.

Lemma or_else_keeps a b : a <> "" -> or_else a b = a.
Proof.
  intros Ha. unfold or_else. destruct (String.eqb_spec a ""); [contradiction | reflexivity].
Qed.

(** X6: [readErrorMessage] gives the [message] field of a JSON body,
    else the JSON text of the body; for a JSON content type whose body
    cannot be decoded or is falsy it gives the status text, else "Request
    failed.", and never the body text, because the body has been read by
    then; for another content type it gives the body text, then the status
    text, then "Request failed.".  Outside the two cases of a decoded JSON
    body it never gives the empty string. *)
Theorem readErrorMessage_precedence r :
  (forall ct,
     resp_contentType r = Some ct -> str_includes ct "application/json" = true ->
     (forall message, resp_json r = Some (BodyWithMessage message) ->
                      readErrorMessage r = message) /\
     (forall stringified, resp_json r = Some (BodyOther stringified) ->
                          readErrorMessage r = stringified) /\
     (resp_json r = None \/ resp_json r = Some BodyFalsy ->
      readErrorMessage r <> "" /\
      (resp_statusText r <> "" -> readErrorMessage r = resp_statusText r) /\
      (resp_statusText r = "" -> readErrorMessage r = "Request failed."))) /\
  ((resp_contentType r = None \/
    exists ct, resp_contentType r = Some ct /\ str_includes ct "application/json" = false) ->
   readErrorMessage r <> "" /\
   (resp_text r <> "" -> readErrorMessage r = resp_text r) /\
   (resp_text r = "" -> resp_statusText r <> "" -> readErrorMessage r = resp_statusText r) /\
   (resp_text r = "" -> resp_statusText r = "" -> readErrorMessage r = "Request failed.")).
Proof.
  split.
  - intros ct Hct Hinc. unfold readErrorMessage. rewrite Hct, Hinc.
    split; [| split].
    + now intros message ->.
    + now intros stringified ->.
    + intros Hjson.
      assert (Hrest : match resp_json r with
                      | Some (BodyWithMessage message) => message
                      | Some (BodyOther stringified) => stringified
                      | _ => or_else (or_else (text_or_empty true r) (resp_statusText r))
                                     "Request failed."
                      end = or_else (resp_statusText r) "Request failed.")
        by (destruct Hjson as [-> | ->]; reflexivity).
      rewrite Hrest. split; [| split].
      * apply or_else_nonempty. discriminate.
      * intros Hs. now apply or_else_keeps.
      * now intros ->.
  - intros Hcase.
    assert (Hrest : readErrorMessage r
                    = or_else (or_else (resp_text r) (resp_statusText r)) "Request failed.").
    { unfold readErrorMessage.
      destruct Hcase as [-> | [ct [-> ->]]]; reflexivity. }
    rewrite Hrest. split; [| split; [| split]].
    + apply or_else_nonempty. discriminate.
    + intros Ht. now rewrite (or_else_keeps (resp_text r)), or_else_keeps.
    + intros -> Hs. simpl. now rewrite or_else_keeps.
    + intros -> ->. reflexivity.
Qed.

(** A 502 with a JSON content type and an HTML body: the status text is
    shown, not the body. *)
Example undecodable_json_body_is_not_shown :
  readErrorMessage (mkErrorResponse 502 "Bad Gateway" (Some "application/json") None
                                    "upstream down") = "Bad Gateway" /\
  readErrorMessage (mkErrorResponse 502 "Bad Gateway" (Some "text/plain") None
                                    "upstream down") = "upstream down".
Proof. split; reflexivity. Qed.

Lemma label_message_not_default kind rest :
  (routeKindLabels kind ++ rest)%string <> "No route found.".
Proof. destruct kind; discriminate. Qed.

(** X7: [fetchRouteVariant] answers ok only for an ok response whose body
    could be read, no_route only for status 422, and an error carrying the
    status for every other status; the message of a no_route, and of an
    error that carries a status, is never empty, so that the message
    [handleRoute] builds for a failed variant is never the bare "No route
    found.". *)
Theorem fetchRouteVariant_classification kind outcome :
  (forall data, fetchRouteVariant outcome = ok data <-> outcome = FetchOk (inr data)) /\
  (forall message,
     fetchRouteVariant outcome = no_route message ->
     message <> "" /\ exists r, outcome = FetchNotOk r /\ resp_status r = 422%Z) /\
  (forall message status,
     fetchRouteVariant outcome = error message (Some status) ->
     message <> "" /\
     exists r, outcome = FetchNotOk r /\ resp_status r <> 422%Z /\ status = of_Z (resp_status r)) /\
  (forall message,
     fetchRouteVariant outcome = error message None ->
     exists e, (outcome = FetchRejected e \/ outcome = FetchOk (inl e)) /\
               message = thrown_message "Network error." e) /\
  failure_message kind (fetchRouteVariant outcome) <> Some "No route found.".
Proof.
  split; [| split; [| split; [| split]]].
  - intros data. destruct outcome as [e | [e | d] | r]; simpl;
      try (split; intros Heq; discriminate Heq).
    + split; intros Heq; inversion Heq; reflexivity.
    + destruct (Z.eqb (resp_status r) 422); split; intros Heq; discriminate Heq.
  - intros message. destruct outcome as [e | [e | d] | r]; simpl; try discriminate.
    destruct (Z.eqb_spec (resp_status r) 422) as [H422 | Hother]; [| discriminate].
    intros Heq. inversion Heq; subst. split.
    + apply or_else_nonempty. discriminate.
    + now exists r.
  - intros message status. destruct outcome as [e | [e | d] | r]; simpl; try discriminate.
    destruct (Z.eqb_spec (resp_status r) 422) as [H422 | Hother]; [discriminate |].
    intros Heq. inversion Heq; subst. split.
    + apply or_else_nonempty. discriminate.
    + exists r. repeat split. assumption.
  - intros message. destruct outcome as [e | [e | d] | r]; simpl.
    + intros Heq. inversion Heq; subst. exists e. split; [now left | reflexivity].
    + intros Heq. inversion Heq; subst. exists e. split; [now right | reflexivity].
    + discriminate.
    + destruct (Z.eqb (resp_status r) 422); discriminate.
  - destruct outcome as [e | [e | d] | r]; simpl; try discriminate.
    + intros Heq. inversion Heq as [Hm]. now apply label_message_not_default in Hm.
    + intros Heq. inversion Heq as [Hm]. now apply label_message_not_default in Hm.
    + destruct (Z.eqb (resp_status r) 422); simpl.
      * destruct (String.eqb_spec (or_else (readErrorMessage r) "No route found.") "")
          as [Hempty | _].
        -- exfalso. revert Hempty. apply or_else_nonempty. discriminate.
        -- intros Heq. inversion Heq as [Hm]. destruct kind; discriminate Hm.
      * intros Heq. inversion Heq as [Hm]. now apply label_message_not_default in Hm.
Qed.

(** X8: a hazard upload answered by a response that is not ok throws an
    error whose message is not empty, and that message is what the form
    shows, with the upload flag off and the picked location kept. *)
Theorem hazard_upload_failure_message request r s f :
  exists message,
    submitHazard_result (FetchNotOk r) = inl (ThrownError message) /\
    message <> "" /\
    handleHazardSubmit_settled request (submitHazard_result (FetchNotOk r)) (s, f)
    = (s, f |> setHazardError (Some message) |> setHazardUploading false).
Proof.
  eexists. split; [reflexivity |]. split; [| reflexivity].
  apply or_else_nonempty. discriminate.
Qed.

(* ================================================================== *)
(** * Markers from the server to the map *)

(** X9: without bounds [fetchRouteMarkers] answers an error whatever the
    network does; an ok answer holds, in the order of the server, the
    markers whose coordinates ([lat]/[lon], else [latitude]/[longitude])
    are both finite, and no others; it holds no risk markers. *)
Theorem fetchRouteMarkers_normalized bounds outcome :
  (bounds = None ->
   fetchRouteMarkers bounds outcome = markers_error "Missing bounds for marker request." None) /\
  (forall data,
     fetchRouteMarkers bounds outcome = markers_ok data ->
     bounds <> None /\
     exists api, outcome = FetchOk (inr api) /\
       hazardMarkers data
       = map normalize_marker (filter resolved_finite (nullish (api_hazardMarkers api) [])) /\
       riskMarkers data = [] /\
       Forall (fun m => isFinite (marker_lat m) = true /\ isFinite (marker_lon m) = true)
              (hazardMarkers data) /\
       List.length (hazardMarkers data) <= List.length (nullish (api_hazardMarkers api) [])).
Proof.
  split; [intros ->; reflexivity |].
  intros data. unfold fetchRouteMarkers.
  destruct bounds as [b |]; [| discriminate].
  destruct outcome as [e | [e | api] | r]; try discriminate.
  intros Heq. inversion Heq; subst; clear Heq. split; [discriminate |].
  exists api. cbn [hazardMarkers riskMarkers].
  split; [reflexivity |]. split.
  - now rewrite filter_map_comm.
  - split; [reflexivity |]. split.
    + apply Forall_forall. intros m Hm. apply filter_In in Hm. destruct Hm as [_ Hm].
      now apply andb_true_iff in Hm.
    + rewrite <- (length_map normalize_marker (nullish (api_hazardMarkers api) [])).
      apply filter_length_le.
Qed.

Lemma leb_abs_bound (x : number) (m : positive) (e : Z) :
  (isFinite x && le (abs x) (S754_finite false m e))%bool
  = (ge x (S754_finite true m e) && le x (S754_finite false m e))%bool.
Proof.
  unfold le, ge, abs, SFleb, SFabs, SFcompare.
  destruct x as [s | s | | s mx ex]; simpl; try reflexivity.
  - now destruct s.
  - destruct s; [| reflexivity].
    rewrite andb_true_r. rewrite (Z.compare_antisym ex e).
    destruct (ex ?= e)%Z; simpl; try reflexivity.
    change (Pos.compare_cont Eq m mx) with (m ?= mx)%positive.
    change (Pos.compare_cont Eq mx m) with (mx ?= m)%positive.
    rewrite (Pos.compare_antisym mx m). now destruct (mx ?= m)%positive.
Qed.

Lemma isValidCoord_valid_eq la lo :
  isValidCoord la lo = (isValidLat la && isValidLon lo)%bool.
Proof.
  unfold isValidCoord, isValidLat, isValidLon.
  change (of_Z 90) with (S754_finite false 6333186975989760 (-46)).
  change (of_Z (-90)) with (S754_finite true 6333186975989760 (-46)).
  change (of_Z 180) with (S754_finite false 6333186975989760 (-45)).
  change (of_Z (-180)) with (S754_finite true 6333186975989760 (-45)).
  rewrite <- !leb_abs_bound.
  destruct (isFinite la), (isFinite lo); simpl; try reflexivity.
  - now rewrite andb_false_r.
Qed.

(** X10: the test of [MapView] for drawing a point and the tests of
    [App] for accepting one agree on every pair of numbers; infinite
    values and NaN fail both. *)
Theorem isValidCoord_agrees_with_validation la lo :
  isValidCoord la lo = (isValidLat la && isValidLon lo)%bool /\
  (isValidLat la = true -> isFinite la = true) /\
  (isValidLon lo = true -> isFinite lo = true).
Proof.
  split; [apply isValidCoord_valid_eq |].
  split; intros Hv.
  - pose proof (isValidCoord_valid_eq la (of_Z 0)) as Heq.
    rewrite Hv in Heq. unfold isValidCoord in Heq.
    destruct (isFinite la); [reflexivity | discriminate].
  - pose proof (isValidCoord_valid_eq (of_Z 0) lo) as Heq.
    rewrite Hv in Heq. unfold isValidCoord in Heq. simpl in Heq.
    destruct (isFinite lo); [reflexivity | discriminate].
Qed.

(** X11: the markers that reach the map are exactly the normalized
    markers of the server whose coordinates are in range, so each of them
    would pass the validation of a start or end point. *)
Theorem drawn_markers_in_range b api :
  exists data,
    fetchRouteMarkers (Some b) (FetchOk (inr api)) = markers_ok data /\
    safeHazardMarkers (hazardMarkers data)
    = filter (fun m => isValidLat (marker_lat m) && isValidLon (marker_lon m))
             (map normalize_marker (nullish (api_hazardMarkers api) [])) /\
    Forall (fun m => isValidLat (marker_lat m) = true /\ isValidLon (marker_lon m) = true)
           (safeHazardMarkers (hazardMarkers data)).
Proof.
  eexists. split; [reflexivity |]. cbn [hazardMarkers]. unfold safeHazardMarkers. split.
  - induction (map normalize_marker (nullish (api_hazardMarkers api) [])) as [| m l IH];
      simpl; [reflexivity |].
    rewrite <- isValidCoord_valid_eq.
    destruct (isFinite (marker_lat m) && isFinite (marker_lon m))%bool eqn:Efin; simpl.
    + rewrite IH. reflexivity.
    + rewrite IH. unfold isValidCoord. rewrite Efin. reflexivity.
  - apply Forall_forall. intros m Hm. apply filter_In in Hm. destruct Hm as [_ Hm].
    rewrite isValidCoord_valid_eq in Hm. now apply andb_true_iff in Hm.
Qed.

(* ================================================================== *)
(** * Classification of the responses, in general *)

Lemma failure_message_nonempty kind response message :
  failure_message kind response = Some message -> message <> "".
Proof.
  destruct response as [d | m | m st]; simpl; [discriminate | |].
  - destruct (String.eqb m ""); intros Heq; inversion Heq; [discriminate |].
    discriminate.
  - intros Heq. inversion Heq. destruct kind; discriminate.
Qed.

Lemma classify_lists mode responses :
  classify mode responses =
  (flat_map (fun kr => match snd kr with ok d => [(fst kr, d)] | _ => [] end)
            (combine (variants mode) responses),
   flat_map (fun kr => match failure_message (fst kr) (snd kr) with
                       | Some m => [m] | None => [] end)
            (combine (variants mode) responses)).
Proof. unfold classify. now rewrite classify_fold. Qed.

(** X12: every response that is read lands in exactly one of the two
    lists of [handleRoute]; the message shown when no variant is ok is
    never the empty string, so the error banner is rendered. *)
Theorem classify_partition mode responses :
  List.length (fst (classify mode responses)) + List.length (snd (classify mode responses))
  = Nat.min (List.length (variants mode)) (List.length responses) /\
  (forall kind data, In (kind, data) (fst (classify mode responses)) ->
                     In kind (variants mode) /\ In (ok data) responses) /\
  Forall (fun message => message <> "") (snd (classify mode responses)) /\
  (forall message, route_outcome mode responses = RouteFailed message -> message <> "").
Proof.
  rewrite classify_lists. cbn [fst snd].
  assert (Herrs : Forall (fun message => message <> "")
            (flat_map (fun kr => match failure_message (fst kr) (snd kr) with
                                 | Some m => [m] | None => [] end)
                      (combine (variants mode) responses))).
  { apply Forall_forall. intros m Hm. apply in_flat_map in Hm.
    destruct Hm as [[k r] [_ Hm]]. simpl in Hm.
    destruct (failure_message k r) eqn:E; [| contradiction].
    destruct Hm as [<- | []]. now apply (failure_message_nonempty k r). }
  split; [| split; [| split]].
  - clear Herrs. rewrite <- length_combine.
    induction (combine (variants mode) responses) as [| [k r] l IH]; [reflexivity |].
    simpl. rewrite !length_app.
    destruct r; simpl; rewrite ?Nat.add_succ_r; f_equal; exact IH.
  - intros kind data Hin. apply in_flat_map in Hin. destruct Hin as [[k r] [Hkr Hin]].
    simpl in Hin. destruct r as [d | |]; try contradiction.
    destruct Hin as [Heq | []]. inversion Heq; subst.
    split; [now apply in_combine_l in Hkr | now apply in_combine_r in Hkr].
  - exact Herrs.
  - unfold route_outcome. rewrite classify_lists. cbv beta iota zeta.
    match goal with
    | |- forall _, match ?oks with _ => _ end = _ -> _ => destruct oks as [| o l]
    end; [| intros message Heq; discriminate Heq].
    revert Herrs.
    match goal with
    | |- Forall _ ?errs -> _ => destruct errs as [| m ms]
    end; intros Herrs message Heq; inversion Heq; subst.
    + discriminate.
    + now inversion Herrs.
Qed.

(* ================================================================== *)
(** * The device marker of the map *)

Lemma deviceCenter_centered_stays renders calls :
  fold_left deviceCenter_effect renders (mkDeviceCenter true calls) = mkDeviceCenter true calls.
Proof.
  induction renders as [| [loc zoom] renders IH]; simpl; [reflexivity |].
  unfold deviceCenter_effect at 2. simpl. destruct loc; exact IH.
Qed.

(** X13: whatever the sequence of device locations [DeviceCenter] is
    rendered with, [map.setView] is called at most once, for the first
    location that is not null, with the zoom of that render. *)
Theorem deviceCenter_centers_once renders :
  setView_calls (deviceCenter_run renders)
  = match find (fun props => match fst props with Some _ => true | None => false end)
               renders with
    | Some (Some deviceLocation, zoom) => [(deviceLocation, zoom)]
    | _ => []
    end /\
  List.length (setView_calls (deviceCenter_run renders)) <= 1.
Proof.
  assert (Hcalls : setView_calls (deviceCenter_run renders)
                   = match find (fun props => match fst props with
                                              | Some _ => true | None => false end)
                                renders with
                     | Some (Some deviceLocation, zoom) => [(deviceLocation, zoom)]
                     | _ => []
                     end).
  { unfold deviceCenter_run.
    induction renders as [| [loc zoom] renders IH]; simpl; [reflexivity |].
    destruct loc as [l |]; simpl.
    - unfold deviceCenter_effect at 2. simpl. now rewrite deviceCenter_centered_stays.
    - exact IH. }
  split; [exact Hcalls |]. rewrite Hcalls.
  destruct (find _ renders) as [[[l |] zoom] |]; simpl; lia.
Qed.

(* ================================================================== *)
(** * Invariants of the interaction *)

Section Invariants.
Context `{JsRuntime}.

Lemma default_selection_in mode choices routeId :
  default_selection mode choices = Some routeId -> In routeId (map choice_id choices).
Proof.
  unfold default_selection.
  destruct (find _ choices) as [c |] eqn:Ef.
  - intros Heq. inversion Heq; subst. apply find_some in Ef. apply in_map. tauto.
  - destruct choices as [| c cs]; [discriminate |].
    intros Heq. inversion Heq; subst. now left.
Qed.

Lemma route_outcome_selection mode responses choices selected :
  route_outcome mode responses = RouteChoices choices selected ->
  forall routeId, selected = Some routeId -> In routeId (map choice_id choices).
Proof.
  unfold route_outcome. destruct (classify mode responses) as [oks errs].
  destruct oks as [| o l]; [discriminate |].
  intros Heq. inversion Heq; subst. intros routeId. apply default_selection_in.
Qed.

Lemma fst_run_cons s ev rest : fst (run s (ev :: rest)) = fst (run (fst (step s ev)) rest).
Proof.
  cbn [run]. destruct (step s ev) as [s1 r1]. cbn [fst].
  destruct (run s1 rest) as [s2 r2]. reflexivity.
Qed.

(** One event keeps the selection among the routes shown. *)
Lemma step_selection_valid s ev :
  selection_valid s ->
  match ev with
  | SelectRoute routeId => In routeId (map choice_id (routeChoices (route s)))
  | _ => True
  end ->
  selection_valid (fst (step s ev)).
Proof.
  intros Hvalid Hev. unfold selection_valid in *. unfold step. rewrite commit_route.
  destruct ev; cbn -[route_outcome isSameLocation String.eqb]; try assumption; try exact I.
  - unfold mapEventHandler_click, handleMapClick.
    destruct (hazardPickMode (hazard s)); [assumption |].
    destruct (start (points s)); [destruct (end_ (points s)) |]; exact I.
  - unfold handlePlaceSearch. destruct (String.eqb _ ""); [assumption | exact I].
  - unfold handlePlaceSearch_settled. destruct result; [| assumption].
    destruct (negb _ || negb _)%bool; [assumption |]. destruct kind; assumption.
  - destruct (routeDisabled s); [assumption |]. unfold handleRoute.
    destruct (start (points s)); [| exact I].
    destruct (end_ (points s)); [| exact I].
    destruct (_ || _)%bool; exact I.
  - unfold handleRoute_settled.
    destruct (route_outcome mode responses) as [m | choices selected] eqn:E;
      [assumption |].
    cbn. destruct selected as [routeId |]; [| exact I].
    now apply (route_outcome_selection _ _ _ _ E).
  - unfold handleRoute_markers. destruct response; assumption.
  - unfold markerEffect_settled. destruct response; [| assumption].
    destruct (negb _); assumption.
  - unfold selectTravelMode. destruct (travelMode s); [assumption | exact I].
  - unfold selectTravelMode. destruct (travelMode s); [exact I | assumption].
  - destruct (hazardInputsDisabled s); assumption.
  - destruct (hazardLocation (hazard s)); [| assumption].
    destruct (hazardInputsDisabled s); assumption.
  - destruct (hazardInputsDisabled s); assumption.
  - destruct (hazardInputsDisabled s); assumption.
  - unfold requestDeviceLocation.
    destruct (geoStatus (geo s)); try assumption; destruct supported; assumption.
  - unfold geolocation_success.
    cbn [geo setGeoStatus setDeviceLocation upd_geo hasDefaultedStart startRef].
    destruct (hasDefaultedStart (geo s)), (startRef (geo s)); assumption.
  - unfold reverseGeocode_settled. destruct result; [| assumption].
    destruct (startRef (geo s)); [| assumption].
    destruct (isSameLocation _ _); assumption.
Qed.

Lemma selected_route_found s routeId :
  selection_valid s -> selectedRouteId (route s) = Some routeId ->
  exists c, selectedRoute s = Some c /\ choice_id c = routeId /\
            In c (routeChoices (route s)).
Proof.
  unfold selection_valid, selectedRoute. intros Hvalid Hsel. rewrite Hsel in *.
  apply in_map_iff in Hvalid. destruct Hvalid as [c [Hid Hc]].
  destruct (find_some_exists (fun choice => is_selected (Some routeId) (choice_id choice))
              _ c Hc) as [c' Hfind].
  - simpl. rewrite Hid. apply String.eqb_refl.
  - exists c'. split; [assumption |]. apply find_some in Hfind.
    destruct Hfind as [Hin Heq]. simpl in Heq. apply String.eqb_eq in Heq. now split.
Qed.

(** X1: along every sequence of events in which the ids selected by the
    user are ids of routes shown at that moment, the selected id is absent
    or is the id of a route of the current list, and [selectedRoute] then
    finds a route with that id. *)
Theorem selection_stays_among_routes s evs :
  selection_valid s -> selects_shown s evs ->
  selection_valid (fst (run s evs)) /\
  forall routeId,
    selectedRouteId (route (fst (run s evs))) = Some routeId ->
    exists c, selectedRoute (fst (run s evs)) = Some c /\ choice_id c = routeId /\
              In c (routeChoices (route (fst (run s evs)))).
Proof.
  intros Hvalid Hshown.
  assert (Hfinal : selection_valid (fst (run s evs))).
  { revert s Hvalid Hshown. induction evs as [| ev rest IH]; intros s Hvalid Hshown.
    - exact Hvalid.
    - rewrite fst_run_cons. destruct Hshown as [Hev Hrest].
      apply IH; [| exact Hrest]. apply step_selection_valid; [assumption |].
      destruct ev; try exact I. exact Hev. }
  split; [exact Hfinal |]. intros routeId. now apply selected_route_found.
Qed.

Lemma step_location_ready s ev : location_ready s -> location_ready (fst (step s ev)).
Proof.
  unfold location_ready, step, commit.
  cbn [fst geo setStartRef upd_geo geoStatus deviceLocation].
  intros Hinv.
  destruct ev; cbn -[route_outcome isSameLocation String.eqb]; try assumption.
  - unfold mapEventHandler_click, handleMapClick.
    destruct (hazardPickMode (hazard s)); [assumption |].
    destruct (start (points s)); [destruct (end_ (points s)) |]; assumption.
  - unfold handlePlaceSearch. destruct (String.eqb _ ""); assumption.
  - unfold handlePlaceSearch_settled. destruct result; [| assumption].
    destruct (negb _ || negb _)%bool; [assumption |]. destruct kind; assumption.
  - destruct (routeDisabled s); [assumption |]. unfold handleRoute.
    destruct (start (points s)); [| assumption].
    destruct (end_ (points s)); [| assumption].
    destruct (_ || _)%bool; assumption.
  - unfold handleRoute_settled. destruct (route_outcome mode responses); assumption.
  - unfold handleRoute_markers. destruct response; assumption.
  - unfold markerEffect_settled. destruct response; [| assumption].
    destruct (negb _); assumption.
  - unfold selectTravelMode. destruct (travelMode s); assumption.
  - unfold selectTravelMode. destruct (travelMode s); assumption.
  - destruct (hazardInputsDisabled s); assumption.
  - destruct (hazardLocation (hazard s)); [| assumption].
    destruct (hazardInputsDisabled s); assumption.
  - destruct (hazardInputsDisabled s); assumption.
  - destruct (hazardInputsDisabled s); assumption.
  - unfold requestDeviceLocation.
    destruct (geoStatus (geo s)) eqn:Eg; try assumption; destruct supported; cbn;
      intros Hr; try discriminate Hr; congruence.
  - unfold geolocation_success.
    cbn [geo setGeoStatus setDeviceLocation upd_geo hasDefaultedStart startRef].
    destruct (hasDefaultedStart (geo s)), (startRef (geo s)); cbn; intros _; discriminate.
  - intros Hr. discriminate Hr.
  - unfold reverseGeocode_settled. destruct result; [| assumption].
    destruct (startRef (geo s)); [| assumption].
    destruct (isSameLocation _ _); assumption.
Qed.

(** X14: in every state reached from the initial one, the geolocation
    status is [ready] only while a device location is held. *)
Theorem ready_status_has_location evs :
  geoStatus (geo (fst (run initial_state evs))) = ready ->
  exists device, deviceLocation (geo (fst (run initial_state evs))) = Some device.
Proof.
  assert (Hinv : location_ready (fst (run initial_state evs))).
  { assert (Hgen : forall s, location_ready s -> location_ready (fst (run s evs))).
    { induction evs as [| ev rest IH]; intros s Hs; [exact Hs |].
      rewrite fst_run_cons. apply IH. now apply step_location_ready. }
    apply Hgen. discriminate. }
  intros Hready. specialize (Hinv Hready).
  destruct (deviceLocation _) as [device |]; [now exists device | now elim Hinv].
Qed.

(* ================================================================== *)
(** * Requests and what starts them *)

Lemma handleRoute_cases s :
  handleRoute s =
  match start (points s), end_ (points s) with
  | Some st, Some en =>
      if isValidCoord (lat st) (lon st) && isValidCoord (lat en) (lon en)
      then (setLoading true (clearRouteState s),
            [ReqRoutes (travelMode s) (mkRouteParams (lat st) (lon st) (lat en) (lon en))
                       (mapBounds s)])
      else (setError (Some "Coordinates are out of range.") (clearRouteState s), [])
  | _, _ =>
      (setError (Some "Please set both a start and end location.") (clearRouteState s), [])
  end.
Proof.
  unfold handleRoute. destruct (start (points s)) as [st |]; [| reflexivity].
  destruct (end_ (points s)) as [en |]; [| reflexivity].
  rewrite !isValidCoord_valid_eq.
  now destruct (isValidLat (lat st)), (isValidLon (lon st)),
               (isValidLat (lat en)), (isValidLon (lon en)).
Qed.

Lemma commit_without_routes s after :
  routeChoices (route (fst after)) = [] -> snd (commit s after) = snd after.
Proof.
  intros Hnil. unfold commit, markerEffect. cbn [snd fst].
  replace (routeChoices (route (setStartRef (start (points (fst after))) (fst after))))
    with (@nil RouteChoice) by (symmetry; exact Hnil).
  destruct (Nat.eqb _ _); [apply app_nil_r |].
  destruct (mapBounds _); apply app_nil_r.
Qed.

(** X15: a click on Route starts a request exactly when no request is
    loading and both points are set and in range; with a point missing or a
    request loading the button is disabled and the click changes nothing;
    with a point out of range the click only shows "Coordinates are out of
    range.". *)
Theorem route_click_request s :
  let r := step s RouteClick in
  (snd r <> [] <->
   loading s = false /\
   exists st en, start (points s) = Some st /\ end_ (points s) = Some en /\
                 isValidCoord (lat st) (lon st) = true /\
                 isValidCoord (lat en) (lon en) = true) /\
  (forall request, In request (snd r) ->
     exists st en, start (points s) = Some st /\ end_ (points s) = Some en /\
       request = ReqRoutes (travelMode s)
                           (mkRouteParams (lat st) (lon st) (lat en) (lon en))
                           (mapBounds s) /\
       loading (fst r) = true /\ route_cleared (fst r)) /\
  (loading s = true \/ start (points s) = None \/ end_ (points s) = None ->
   snd r = [] /\ route (fst r) = route s /\ points (fst r) = points s /\
   loading (fst r) = loading s) /\
  (loading s = false ->
   forall st en, start (points s) = Some st -> end_ (points s) = Some en ->
     (isValidCoord (lat st) (lon st) && isValidCoord (lat en) (lon en))%bool = false ->
     snd r = [] /\ loading (fst r) = false /\ routeChoices (route (fst r)) = [] /\
     error_ (route (fst r)) = Some "Coordinates are out of range.").
Proof.
  cbn zeta. unfold step, handle, routeDisabled. rewrite handleRoute_cases.
  destruct (loading s) eqn:El; [| destruct (start (points s)) as [st |] eqn:Es;
                                  [destruct (end_ (points s)) as [en |] eqn:Ee |]];
    cbn [orb].
  - unfold commit. cbn. rewrite Nat.eqb_refl, El.
    split; [| split; [| split]].
    + split; [intros Hreq; now elim Hreq | intros [Hl _]; discriminate Hl].
    + intros request [].
    + intros _. repeat split.
    + intros Hl. discriminate Hl.
  - destruct (isValidCoord (lat st) (lon st) && isValidCoord (lat en) (lon en))%bool eqn:Ev;
      rewrite !commit_without_routes by reflexivity; unfold commit; cbn; rewrite ?El.
    + apply andb_true_iff in Ev. destruct Ev as [Vs Ve].
      split; [| split; [| split]].
      * split; [intros _ | intros _; discriminate].
        split; [reflexivity |]. now exists st, en.
      * intros request [<- | []]. exists st, en. repeat split.
      * intros [Hl | [Hs | He]]; discriminate.
      * intros _ st' en' Hs He Hv. inversion Hs; inversion He; subst.
        rewrite Vs, Ve in Hv. discriminate Hv.
    + split; [| split; [| split]].
      * split; [intros Hreq; now elim Hreq |].
        intros [_ [st' [en' [Hs [He [Vs Ve]]]]]]. inversion Hs; inversion He; subst.
        rewrite Vs, Ve in Ev. discriminate Ev.
      * intros request [].
      * intros [Hl | [Hs | He]]; discriminate.
      * intros _ st' en' _ _ _. repeat split.
  - unfold commit. cbn. rewrite Nat.eqb_refl, El.
    split; [| split; [| split]].
    + split; [intros Hreq; now elim Hreq |].
      intros [_ [st' [en' [_ [He _]]]]]. discriminate He.
    + intros request [].
    + intros _. repeat split.
    + intros _ st' en' _ He. discriminate He.
  - unfold commit. cbn. rewrite Nat.eqb_refl, El.
    split; [| split; [| split]].
    + split; [intros Hreq; now elim Hreq |].
      intros [_ [st' [en' [Hs _]]]]. discriminate Hs.
    + intros request [].
    + intros _. repeat split.
    + intros _ st' en' Hs. discriminate Hs.
Qed.

End Invariants.

(* ================================================================== *)
(** * Points from text, and what the user is shown *)

Lemma isValidLat_finite la : isValidLat la = true -> isFinite la = true.
Proof.
  intros Hv. pose proof (isValidCoord_valid_eq la (of_Z 0)) as Heq.
  rewrite Hv in Heq. unfold isValidCoord in Heq.
  destruct (isFinite la); [reflexivity | discriminate].
Qed.

Lemma isValidLon_finite lo : isValidLon lo = true -> isFinite lo = true.
Proof.
  intros Hv. pose proof (isValidCoord_valid_eq (of_Z 0) lo) as Heq.
  rewrite Hv in Heq. unfold isValidCoord in Heq. simpl in Heq.
  destruct (isFinite lo); [reflexivity | discriminate].
Qed.

Section Shown.
Context `{JsRuntime}.

Lemma point_of_inputs_spec nextLat nextLon :
  point_of_inputs nextLat nextLon =
  if isValidCoord (Number_ nextLat) (Number_ nextLon)
  then Some (mkLatLon (Number_ nextLat) (Number_ nextLon))
  else None.
Proof.
  unfold point_of_inputs, parseNumber. rewrite isValidCoord_valid_eq. cbv zeta.
  destruct (isFinite (Number_ nextLat)) eqn:Fa.
  - destruct (isFinite (Number_ nextLon)) eqn:Fo; [reflexivity |].
    destruct (isValidLon (Number_ nextLon)) eqn:Vo.
    + apply isValidLon_finite in Vo. congruence.
    + now rewrite andb_false_r.
  - destruct (isValidLat (Number_ nextLat)) eqn:Va.
    + apply isValidLat_finite in Va. congruence.
    + reflexivity.
Qed.

(** X16: the point that a pair of coordinate fields denotes is stored
    exactly when [MapView] would draw it: the texts must convert to finite
    numbers in range, otherwise the point is unset; this holds for the
    start fields, the end fields and the hazard fields alike. *)
Theorem typed_point_is_validated nextLat nextLon s :
  let typed := if isValidCoord (Number_ nextLat) (Number_ nextLon)
               then Some (mkLatLon (Number_ nextLat) (Number_ nextLon))
               else None in
  (start (points (updateStartFromInputs nextLat nextLon s)) = typed /\
   end_ (points (updateStartFromInputs nextLat nextLon s)) = end_ (points s) /\
   startPlace (points (updateStartFromInputs nextLat nextLon s)) = "") /\
  (end_ (points (updateEndFromInputs nextLat nextLon s)) = typed /\
   start (points (updateEndFromInputs nextLat nextLon s)) = start (points s) /\
   endPlace (points (updateEndFromInputs nextLat nextLon s)) = "") /\
  (hazardLocation (hazard (handleHazardLocationInput nextLat nextLon s)) = typed /\
   points (handleHazardLocationInput nextLat nextLon s) = points s /\
   route (handleHazardLocationInput nextLat nextLon s) = route s).
Proof.
  cbn zeta. rewrite <- point_of_inputs_spec. repeat split.
Qed.

(** X17: a geocoder answer is assigned only if its coordinates are in
    range; otherwise the points stay as they are and an error is shown; a
    geocoder failure shows the geocoder's message. *)
Theorem geocoded_point_is_validated s kind result :
  let s' := handlePlaceSearch_settled kind result s in
  geocoding s' = None /\
  match result with
  | geocode_ok la lo label =>
      if isValidCoord la lo
      then error_ (route s') = error_ (route s) /\
           match kind with
           | StartPoint => start (points s') = Some (mkLatLon la lo) /\
                           startPlace (points s') = label /\
                           end_ (points s') = end_ (points s)
           | EndPoint => end_ (points s') = Some (mkLatLon la lo) /\
                         endPlace (points s') = label /\
                         start (points s') = start (points s)
           end
      else points s' = points s /\
           error_ (route s') = Some "Geocoder returned out-of-range coordinates."
  | geocode_failed message =>
      points s' = points s /\ error_ (route s') = Some message
  end.
Proof.
  cbn zeta. unfold handlePlaceSearch_settled.
  destruct result as [la lo label | message].
  - rewrite isValidCoord_valid_eq.
    destruct (isValidLat la), (isValidLon lo); simpl; try (repeat split; fail).
    destruct kind; repeat split.
  - repeat split.
Qed.

(** X18: a place search with a blank text starts no request and leaves
    points, routes, selection and markers as they are, showing "Please
    enter a place name."; otherwise it clears the route state and asks the
    geocoder for the trimmed text. *)
Theorem place_search_request s kind :
  let text := match kind with
              | StartPoint => startPlace (points s)
              | EndPoint => endPlace (points s)
              end in
  let r := step s (PlaceSearch kind) in
  (trim text = "" ->
   snd r = [] /\ points (fst r) = points s /\
   routeChoices (route (fst r)) = routeChoices (route s) /\
   selectedRouteId (route (fst r)) = selectedRouteId (route s) /\
   routeMarkers (route (fst r)) = routeMarkers (route s) /\
   geocoding (fst r) = geocoding s /\
   error_ (route (fst r)) = Some "Please enter a place name.") /\
  (trim text <> "" ->
   snd r = [ReqGeocode kind (trim text)] /\ points (fst r) = points s /\
   route_cleared (fst r) /\ geocoding (fst r) = Some kind).
Proof.
  cbn zeta. unfold step, handle, handlePlaceSearch. split; intros Htext.
  - rewrite Htext. simpl String.eqb. cbv iota. unfold commit. cbn.
    rewrite Nat.eqb_refl. repeat split.
  - apply String.eqb_neq in Htext. rewrite Htext.
    rewrite commit_without_routes by reflexivity. repeat split.
Qed.

Ltac pick_stays_off :=
  cbn -[route_outcome isSameLocation String.eqb];
  let Hon := fresh "Hon" in intros Hon; congruence.

(** X19: hazard-pick mode is switched on by nothing but its toggle
    button, and only while the location status is [ready]. *)
Theorem hazard_pick_turns_on_by_toggle_only s ev :
  hazardPickMode (hazard s) = false ->
  hazardPickMode (hazard (fst (step s ev))) = true ->
  ev = HazardPickToggle /\ geoStatus (geo s) = ready.
Proof.
  intros Hoff. unfold step. rewrite commit_hazard.
  destruct ev; cbn -[route_outcome isSameLocation String.eqb];
    try (pick_stays_off).
  - unfold mapEventHandler_click, handleMapClick. rewrite Hoff.
    destruct (start (points s)); [destruct (end_ (points s)) |];
      pick_stays_off.
  - unfold handlePlaceSearch. destruct (String.eqb _ ""); pick_stays_off.
  - unfold handlePlaceSearch_settled. destruct result; [| pick_stays_off].
    destruct (negb _ || negb _)%bool; [pick_stays_off |].
    destruct kind; pick_stays_off.
  - destruct (routeDisabled s); [pick_stays_off |]. unfold handleRoute.
    destruct (start (points s)); [| pick_stays_off].
    destruct (end_ (points s)); [| pick_stays_off].
    destruct (_ || _)%bool; pick_stays_off.
  - unfold handleRoute_settled.
    destruct (route_outcome mode responses); pick_stays_off.
  - unfold handleRoute_markers. destruct response; pick_stays_off.
  - unfold markerEffect_settled. destruct response; [| pick_stays_off].
    destruct (negb _); pick_stays_off.
  - unfold selectTravelMode. destruct (travelMode s); pick_stays_off.
  - unfold selectTravelMode. destruct (travelMode s); pick_stays_off.
  - unfold hazardInputsDisabled.
    destruct (geoStatus (geo s)); cbn; intros Hon; try congruence. now split.
  - destruct (hazardLocation (hazard s)); [| pick_stays_off].
    destruct (hazardInputsDisabled s); pick_stays_off.
  - destruct (hazardInputsDisabled s); pick_stays_off.
  - destruct (hazardInputsDisabled s); pick_stays_off.
  - unfold requestDeviceLocation.
    destruct (geoStatus (geo s)); try (pick_stays_off);
      destruct supported; pick_stays_off.
  - unfold geolocation_success.
    cbn [geo setGeoStatus setDeviceLocation upd_geo hasDefaultedStart startRef].
    destruct (hasDefaultedStart (geo s)), (startRef (geo s)); pick_stays_off.
  - unfold reverseGeocode_settled. destruct result; [| pick_stays_off].
    destruct (startRef (geo s)); [| pick_stays_off].
    destruct (isSameLocation _ _); pick_stays_off.
Qed.

Lemma activeRouteId_shown s :
  selection_valid s -> routeChoices (route s) <> [] ->
  exists c, In c (routeChoices (route s)) /\ activeRouteId s = Some (choice_id c).
Proof.
  unfold selection_valid, activeRouteId. intros Hvalid Hne.
  destruct (selectedRouteId (route s)) as [routeId |].
  - apply in_map_iff in Hvalid. destruct Hvalid as [c [Hid Hc]]. exists c. now rewrite Hid.
  - destruct (routeChoices (route s)) as [| c cs]; [congruence |].
    exists c. split; [now left | reflexivity].
Qed.

(** X20: when a marker fetch of the effect completes in time, the one
    list it returned is stored under the id of every current route, and the
    markers handed to the map are that list, whichever route is selected. *)
Theorem fresh_markers_reach_the_map s data :
  selection_valid s -> routeChoices (route s) <> [] ->
  Forall (fun c => choice_id c <> "") (routeChoices (route s)) ->
  let s' := markerEffect_settled (markerDeps s) (routeChoices (route s)) (markers_ok data) s in
  (forall c, In c (routeChoices (route s')) ->
             record_get (choice_id c) (routeMarkers (route s')) = Some data) /\
  activeMarkers s' = Some data /\
  hazardMarkers_prop s' = hazardMarkers data.
Proof.
  intros Hvalid Hne Hids. cbn zeta. unfold markerEffect_settled.
  rewrite Nat.eqb_refl. cbn [negb].
  assert (Hget : forall c, In c (routeChoices (route s)) ->
            record_get (choice_id c) (broadcast (routeChoices (route s)) data) = Some data)
    by (intros c; apply broadcast_get).
  assert (Hactive : activeMarkers (setRouteMarkers (broadcast (routeChoices (route s)) data) s)
                    = Some data).
  { destruct (activeRouteId_shown s Hvalid Hne) as [c [Hc Hid]].
    unfold activeMarkers.
    replace (activeRouteId (setRouteMarkers (broadcast (routeChoices (route s)) data) s))
      with (activeRouteId s) by reflexivity.
    rewrite Hid. simpl truthy.
    rewrite Forall_forall in Hids. specialize (Hids c Hc).
    apply String.eqb_neq in Hids. rewrite Hids. simpl. now apply Hget. }
  split; [exact Hget |]. split; [exact Hactive |].
  unfold hazardMarkers_prop. now rewrite Hactive.
Qed.

End Shown.

(* ================================================================== *)
(** * The hazard report *)

Section HazardReport.
Context `{JsRuntime} `{JsMath}.

Lemma allowed_type_In t :
  existsb (String.eqb t) ALLOWED_IMAGE_TYPES = true <-> In t ALLOWED_IMAGE_TYPES.
Proof.
  rewrite existsb_exists. split.
  - intros [x [Hin Heq]]. apply String.eqb_eq in Heq. now subst.
  - intros Hin. exists t. split; [assumption | apply String.eqb_refl].
Qed.

(** X21: [handleHazardSubmit] sends a report only when the location
    status is ready and a device location is held; the coordinates sent
    are the picked hazard location if there is one, else the device
    location; a photo is sent only if its type is JPEG, PNG or WEBP and its
    size is at most 10 MiB; a quick report only if the severity text
    converts to a number from 0 to 100, which is sent rounded. *)
Theorem hazard_submit_request s f f' request :
  handleHazardSubmit s f = (f', Some request) ->
  geoStatus (geo s) = ready /\
  (exists device,
     deviceLocation (geo s) = Some device /\
     let location := match hazardLocation (hazard s) with
                     | Some l => l
                     | None => mkLatLon (dev_lat device) (dev_lon device)
                     end in
     match request with
     | SubmitImage file la lo =>
         hazardReportMode f = photo /\ hazardFile f = Some file /\
         In (file_type file) ALLOWED_IMAGE_TYPES /\
         (file_size file <= MAX_IMAGE_BYTES)%Z /\
         la = lat location /\ lo = lon location
     | SubmitReport type la lo severity =>
         hazardReportMode f = quick /\ type = hazardType f /\
         la = lat location /\ lo = lon location /\
         exists value, parseNumber (hazardSeverity f) = Some value /\
                       lt value (of_Z 0) = false /\ lt (of_Z 100) value = false /\
                       severity = Math_round value
     end) /\
  hazardUploading f' = true /\ hazardError f' = None /\ hazardSuccess f' = None.
Proof.
  unfold handleHazardSubmit.
  destruct (geoStatus (geo s)) eqn:Eg; try discriminate.
  destruct (deviceLocation (geo s)) as [device |] eqn:Ed; [| discriminate].
  set (location := match hazardLocation (hazard s) with
                   | Some l => l
                   | None => mkLatLon (dev_lat device) (dev_lon device)
                   end).
  assert (Hsel : match hazardLocation (hazard s) with
                 | Some l => Some l
                 | None => Some (mkLatLon (dev_lat device) (dev_lon device))
                 end = Some location) by (subst location; now destruct (hazardLocation _)).
  rewrite Hsel. clear Hsel.
  destruct (hazardReportMode f) eqn:Em.
  - destruct (parseNumber (hazardSeverity f)) as [value |] eqn:Ep; [| discriminate].
    destruct (lt value (of_Z 0)) eqn:E0; [discriminate |].
    destruct (lt (of_Z 100) value) eqn:E100; [discriminate |].
    simpl. intros Heq. inversion Heq; subst.
    split; [reflexivity |]. split; [| repeat split].
    exists device. split; [reflexivity |]. cbn zeta. repeat split.
    exists value. repeat split; assumption.
  - destruct (hazardFile f) as [file |] eqn:Ef; [| discriminate].
    destruct (existsb _ ALLOWED_IMAGE_TYPES) eqn:Et; [| discriminate].
    destruct (Z.ltb_spec MAX_IMAGE_BYTES (file_size file)); [discriminate |].
    simpl. intros Heq. inversion Heq; subst.
    split; [reflexivity |]. split; [| repeat split].
    exists device. split; [reflexivity |]. cbn zeta. repeat split; try assumption.
    now apply allowed_type_In.
Qed.

(** X22: when [handleHazardSubmit] sends nothing it shows a message,
    which is never "Please select a location for the hazard report."; and
    when the submit button is enabled, in a state where the ready status
    comes with a device location, the upload flag is back to false and the
    message is about the image type, the image size or the severity. *)
Theorem hazard_submit_refusal s f :
  snd (handleHazardSubmit s f) = None ->
  exists message,
    hazardError (fst (handleHazardSubmit s f)) = Some message /\
    message <> "Please select a location for the hazard report." /\
    (location_ready s -> hazardSubmitDisabled s f = false ->
     hazardUploading (fst (handleHazardSubmit s f)) = false /\
     In message ["Image type must be JPEG, PNG, or WEBP.";
                 "Image must be 10MB or smaller.";
                 "Severity must be between 0 and 100."]).
Proof.
  unfold handleHazardSubmit, hazardSubmitDisabled, hazardInputsDisabled_form,
    hazardInputsDisabled, location_ready.
  destruct (geoStatus (geo s)) eqn:Eg;
    try (intros _; eexists; split; [reflexivity |]; split; [discriminate |];
         cbn; intros _ Hd; discriminate Hd).
  destruct (deviceLocation (geo s)) as [device |] eqn:Ed.
  2: { intros _. eexists. split; [reflexivity |]. split; [discriminate |].
       intros Hready. now elim (Hready eq_refl). }
  destruct (hazardLocation (hazard s)) as [l |] eqn:El;
    (destruct (hazardReportMode f) eqn:Em;
     [destruct (parseNumber (hazardSeverity f)) as [value |];
      [destruct (lt value (of_Z 0) || lt (of_Z 100) value)%bool |]
     |destruct (hazardFile f) as [file |];
      [destruct (negb (existsb (String.eqb (file_type file)) ALLOWED_IMAGE_TYPES));
       [| destruct (MAX_IMAGE_BYTES <? file_size file)%Z] |]]);
    cbn; intros Hnone; try discriminate Hnone;
    eexists; (split; [reflexivity |]); (split; [discriminate |]);
    intros _ Hd; try discriminate Hd;
    try (rewrite orb_true_r in Hd; discriminate Hd);
    (split; [reflexivity | simpl; tauto]).
Qed.

End HazardReport.

(* ================================================================== *)
(** * Instances of the properties above *)

Lemma routed_state_ids_distinct : NoDup (map choice_id (routeChoices (route routed_state))).
Proof.
  vm_compute. repeat constructor; simpl; intuition discriminate.
Defined.

Lemma routed_state_readable :
  @geometry_readable bare_payload (routeChoices (route routed_state)).
Proof.
  unfold geometry_readable. apply Forall_forall. intros c Hc. left.
  vm_compute in Hc. destruct Hc as [<- | [<- | []]]; discriminate.
Defined.

Lemma mapRoutes_selected_last_witness :
  let shown := fun x => mkMapRoute (choice_id x) (choice_color x)
                                   (coords_of (choice_result x)) in
  exists front,
    @mapRoutes bare_payload routed_state = Some (front ++ [shown safe_choice]) /\
    Permutation (front ++ [shown safe_choice])
                (map shown (routeChoices (route routed_state))) /\
    Forall (fun r => mr_id r <> choice_id safe_choice) front.
Proof.
  apply (@mapRoutes_selected_last bare_payload routed_state safe_choice).
  - exact routed_state_readable.
  - exact routed_state_ids_distinct.
  - vm_compute. now left.
  - discriminate.
  - reflexivity.
Defined.

Lemma selected_polyline_on_top_witness :
  exists routes below,
    @mapRoutes bare_payload routed_state = Some routes /\
    polylines routes (selectedRouteId (route routed_state))
    = below ++ [mkPolyline (choice_id safe_choice)
                           (map to_latLng (coords_of (choice_result safe_choice))) true] /\
    Forall (fun line => line_selected line = false) below.
Proof.
  apply (@selected_polyline_on_top bare_payload routed_state safe_choice).
  - exact routed_state_readable.
  - exact routed_state_ids_distinct.
  - vm_compute. now left.
  - discriminate.
  - reflexivity.
  - discriminate.
Defined.

Lemma fitted_route_is_selected_route_witness :
  let routes := [mkMapRoute "walkAccessible" "#1e3a8a" [(of_Z 0, of_Z 0); (of_Z 2, of_Z 1)];
                 mkMapRoute "walkSafe" "#16a34a" [(of_Z 0, of_Z 0); (of_Z 1, of_Z 1)]] in
  (forall c,
     NoDup (map choice_id (routeChoices (route routed_state))) ->
     In c (routeChoices (route routed_state)) -> choice_id c <> "" ->
     selectedRouteId (route routed_state) = Some (choice_id c) ->
     bounds_route routes (selectedRouteId (route routed_state))
     = Some (mkMapRoute (choice_id c) (choice_color c) (coords_of (choice_result c)))) /\
  (selectedRouteId (route routed_state) = None ->
   bounds_route routes (selectedRouteId (route routed_state))
   = option_map (fun first => mkMapRoute (choice_id first) (choice_color first)
                                         (coords_of (choice_result first)))
                (hd_error (routeChoices (route routed_state)))) /\
  (forall latLngs,
     fitBounds_argument routes (selectedRouteId (route routed_state)) = Some latLngs ->
     2 <= List.length latLngs /\
     exists r, bounds_route routes (selectedRouteId (route routed_state)) = Some r /\
               latLngs = map to_latLng (mr_coordinates r)).
Proof.
  apply (@fitted_route_is_selected_route bare_payload routed_state). reflexivity.
Defined.

(** A result without coordinates among the routes: when it has no
    [routeGeojson] the callback of [mapRoutes] throws, also with another
    route selected; when only its [coordinates] are missing it is handed to
    the map with no point, and [MapView] draws no polyline for it. *)
Example result_without_geometry_breaks_the_render :
  @mapRoutes bare_payload broken_state = None /\
  @mapRoutes empty_geometry_payload broken_state
  = Some [mkMapRoute "walkAccessible" "#1e3a8a" [];
          mkMapRoute "walkSafe" "#16a34a" [(of_Z 0, of_Z 0); (of_Z 1, of_Z 1)]] /\
  polylines [mkMapRoute "walkAccessible" "#1e3a8a" [];
             mkMapRoute "walkSafe" "#16a34a" [(of_Z 0, of_Z 0); (of_Z 1, of_Z 1)]]
            (Some "walkSafe")
  = [mkPolyline "walkSafe" [(of_Z 0, of_Z 0); (of_Z 1, of_Z 1)] true].
Proof. vm_compute. repeat split. Qed.

Lemma selection_stays_among_routes_witness :
  let evs := [MapClick (of_Z 1) (of_Z 1); MapClick (of_Z 2) (of_Z 2); RouteClick;
              RoutesSettled WALK None (responses_of WALK two_differ);
              SelectRoute "walkAccessible"] in
  selection_valid (fst (@run plain_runtime initial_state evs)) /\
  forall routeId,
    selectedRouteId (route (fst (@run plain_runtime initial_state evs))) = Some routeId ->
    exists c, selectedRoute (fst (@run plain_runtime initial_state evs)) = Some c /\
              choice_id c = routeId /\
              In c (routeChoices (route (fst (@run plain_runtime initial_state evs)))).
Proof.
  apply (@selection_stays_among_routes plain_runtime initial_state).
  - exact I.
  - vm_compute. repeat split. right. now left.
Defined.

Lemma ready_status_has_location_witness :
  exists device,
    deviceLocation (geo (fst (@run plain_runtime initial_state
                                   [RefreshLocation true;
                                    GeoSuccess (of_Z 7) (of_Z 7) (of_Z 1)])))
    = Some device.
Proof.
  apply (@ready_status_has_location plain_runtime
           [RefreshLocation true; GeoSuccess (of_Z 7) (of_Z 7) (of_Z 1)]).
  reflexivity.
Defined.

Lemma hazard_pick_turns_on_by_toggle_only_witness :
  HazardPickToggle = HazardPickToggle /\ geoStatus (geo located_state) = ready.
Proof.
  apply (@hazard_pick_turns_on_by_toggle_only plain_runtime located_state HazardPickToggle);
    reflexivity.
Defined.

Lemma fresh_markers_reach_the_map_witness :
  let s' := markerEffect_settled (markerDeps routed_state) (routeChoices (route routed_state))
                                 (markers_ok sample_markers) routed_state in
  (forall c, In c (routeChoices (route s')) ->
             record_get (choice_id c) (routeMarkers (route s')) = Some sample_markers) /\
  activeMarkers s' = Some sample_markers /\
  hazardMarkers_prop s' = hazardMarkers sample_markers.
Proof.
  apply (fresh_markers_reach_the_map routed_state sample_markers).
  - vm_compute. now left.
  - discriminate.
  - vm_compute. repeat constructor; discriminate.
Defined.

Lemma map_click_cycle_witness :
  start (points (fst (@step plain_runtime initial_state (MapClick (of_Z 1) (of_Z 1)))))
  = Some (point 1 1) /\
  end_ (points (fst (@step plain_runtime initial_state (MapClick (of_Z 1) (of_Z 1))))) = None.
Proof.
  exact (@map_click_cycle plain_runtime initial_state (of_Z 1) (of_Z 1) eq_refl).
Defined.

Lemma hazard_submit_request_witness :
  geoStatus (geo located_state) = ready /\
  (exists device,
     deviceLocation (geo located_state) = Some device /\
     let location := match hazardLocation (hazard located_state) with
                     | Some l => l
                     | None => mkLatLon (dev_lat device) (dev_lon device)
                     end in
     hazardReportMode photo_form = photo /\ hazardFile photo_form = Some sample_file /\
     In (file_type sample_file) ALLOWED_IMAGE_TYPES /\
     (file_size sample_file <= MAX_IMAGE_BYTES)%Z /\
     of_Z 7 = lat location /\ of_Z 7 = lon location) /\
  hazardUploading (setHazardUploading true photo_form) = true /\
  hazardError (setHazardUploading true photo_form) = None /\
  hazardSuccess (setHazardUploading true photo_form) = None.
Proof.
  exact (@hazard_submit_request plain_runtime plain_math located_state photo_form
           (setHazardUploading true photo_form)
           (SubmitImage sample_file (of_Z 7) (of_Z 7)) eq_refl).
Defined.

Lemma hazard_submit_refusal_witness :
  exists message,
    hazardError (fst (@handleHazardSubmit plain_runtime plain_math located_state excess_form))
    = Some message /\
    message <> "Please select a location for the hazard report." /\
    (location_ready located_state ->
     hazardSubmitDisabled located_state excess_form = false ->
     hazardUploading (fst (@handleHazardSubmit plain_runtime plain_math located_state
                                               excess_form)) = false /\
     In message ["Image type must be JPEG, PNG, or WEBP.";
                 "Image must be 10MB or smaller.";
                 "Severity must be between 0 and 100."]).
Proof.
  apply (@hazard_submit_refusal plain_runtime plain_math located_state excess_form).
  vm_compute. reflexivity.
Defined.

(** The quick form on the located sample state: the default severity
    "72" is sent as 72, "72.5" is sent rounded, and "150" is refused. *)
Example hazard_submit_samples :
  snd (@handleHazardSubmit plain_runtime plain_math located_state initial_form)
  = Some (SubmitReport cracks (of_Z 7) (of_Z 7) (of_Z 72)) /\
  snd (@handleHazardSubmit plain_runtime plain_math located_state
         (mkHazardForm false None None blocked_sidewalk "72.5" quick None))
  = Some (SubmitReport blocked_sidewalk (of_Z 7) (of_Z 7) (of_Z 73)) /\
  @handleHazardSubmit plain_runtime plain_math located_state excess_form
  = (mkHazardForm false None (Some "Severity must be between 0 and 100.") cracks "150"
                  quick None, None).
Proof. vm_compute. repeat split. Qed.
